(** * The execution gateway of sirrah-rpc (httpserver/handler.go)

    A shallow embedding of [RevmService] (the engine command, its admission
    channel, [ExecuteLocked], [ExecuteTx]) and of the JSON-RPC handler
    [handleAPI], followed by the properties of the gateway.

    Go values are modelled as follows.
    - [[]byte] is [list byte]; the frame delimiter ['\n'] is [x0a].
    - [error] is the error's message; a nil error is [None].
    - a buffered channel is the list of the values it currently buffers,
      together with its capacity; a send on a full channel and a receive
      from an empty one do not return.
    - a goroutine either returns, panics, or stays blocked for ever; the
      state reached is kept in all three cases. *)

From Stdlib Require Import List ZArith String Ascii Bool Lia Arith.
From Stdlib.Strings Require Import Byte.
From Stdlib.Floats Require Import SpecFloat.
Import ListNotations.

Set Implicit Arguments.
Set Warnings "-register-all".

(** ** Go values *)

Definition error := string.

Definition nl : byte := x0a.

Inductive PanicValue :=
| PanicErr (e : error)            (* panic(err) *)
| PanicRuntime (msg : string).    (* a run-time error of the Go runtime *)

Inductive Outcome (A : Type) :=
| Ret (a : A)
| Panic (v : PanicValue)
| Blocked
| OutOfFuel.

Arguments Ret {A} a.
Arguments Panic {A} v.
Arguments Blocked {A}.
Arguments OutOfFuel {A}.

(** [buf[:n]] on a slice or array: a run-time panic outside [0..len]. *)
Definition slice_to (buf : list byte) (n : Z) : option (list byte) :=
  if ((0 <=? n) && (n <=? Z.of_nat (List.length buf)))%Z
  then Some (firstn (Z.to_nat n) buf) else None.

(** [buf[i]]: a run-time panic outside [0..len-1]. *)
Definition index (buf : list byte) (i : Z) : option byte :=
  if ((0 <=? i) && (i <? Z.of_nat (List.length buf)))%Z
  then nth_error buf (Z.to_nat i) else None.

(** ** JSON values and struct encoding (encoding/json, reflect) *)

(** A value as the encoder writes it.  What the decoder stores in an
    [interface{}] is such a value: a number is a float64, whatever its
    literal was, and an object is a Go map, which the encoder writes with
    its members in the order of their keys. *)
Inductive JSON :=
| JNull
| JBool (b : bool)
| JNumber (f : spec_float)        (* a decoded number: a float64 *)
| JInt (n : Z)                    (* an encoded Go int *)
| JString (s : string)
| JBase64 (bs : list byte)        (* a []byte: the string of its base64 text *)
| JArray (xs : list JSON)
| JObject (members : list (string * JSON)).

Module reflect.

(** Go's [reflect.StructTag.Lookup], from the Go standard library (it is
    not part of this repository): a tag is a sequence of [key:"value"]
    pairs separated by spaces, and scanning stops at the first pair that
    is not of that shape.  Quoted values holding a backslash do not occur
    in this program and are treated as failing to unquote. *)

(** The double quote character (code 34). *)
Definition dq : ascii := ascii_of_nat 34.

Definition is_space (c : ascii) : bool := Ascii.eqb c " "%char.

Fixpoint skip_spaces (s : string) : string :=
  match s with
  | String c r => if is_space c then skip_spaces r else s
  | EmptyString => s
  end.

Definition name_char (c : ascii) : bool :=
  (32 <? nat_of_ascii c) && negb (Ascii.eqb c ":"%char)
  && negb (Ascii.eqb c dq) && negb (nat_of_ascii c =? 127).

(** The longest prefix of name characters, and the rest. *)
Fixpoint scan_name (s : string) : string * string :=
  match s with
  | String c r =>
      if name_char c
      then let (n, rest) := scan_name r in (String c n, rest)
      else (EmptyString, s)
  | EmptyString => (EmptyString, EmptyString)
  end.

(** After the opening quote: the text up to the closing quote and what
    follows it; [None] when the quote is not closed or a backslash
    occurs. *)
Fixpoint scan_quoted (s : string) : option (string * string) :=
  match s with
  | String c r =>
      if Ascii.eqb c dq then Some (EmptyString, r)
      else if Ascii.eqb c "\"%char then None
      else match scan_quoted r with
           | Some (v, rest) => Some (String c v, rest)
           | None => None
           end
  | EmptyString => None
  end.

Fixpoint Lookup_loop (fuel : nat) (tag key : string) : option string :=
  match fuel with
  | O => None
  | S fuel =>
      let tag := skip_spaces tag in
      match tag with
      | EmptyString => None
      | _ =>
          let (name, rest) := scan_name tag in
          match name, rest with
          | EmptyString, _ => None
          | _, String colon (String quote rest') =>
              if Ascii.eqb colon ":"%char && Ascii.eqb quote dq
              then match scan_quoted rest' with
                   | Some (value, tag') =>
                       if String.eqb key name then Some value
                       else Lookup_loop fuel tag' key
                   | None => None
                   end
              else None
          | _, _ => None
          end
      end
  end.

Definition Lookup (tag key : string) : option string :=
  Lookup_loop (String.length tag) tag key.

(** [StructTag.Get]: the empty string when the key is absent. *)
Definition Get (tag key : string) : string :=
  match Lookup tag key with Some v => v | None => EmptyString end.

End reflect.

Module json.

(** A struct field as encoding/json sees it: its Go name, its tag and
    its encoded value. *)
Record Field := mkField { go_name : string; tag : string; value : JSON }.

(** The part of a [json] tag before the first comma. *)
Fixpoint tag_name (s : string) : string :=
  match s with
  | String c r => if Ascii.eqb c ","%char then EmptyString
                  else String c (tag_name r)
  | EmptyString => EmptyString
  end.

(** The object key of a field: the name given by its [json] tag, and the
    Go field name when the tag gives none. *)
Definition key_of (f : Field) : string :=
  match tag_name (reflect.Get (tag f) "json") with
  | EmptyString => go_name f
  | n => n
  end.

Definition Marshal (fields : list Field) : JSON :=
  JObject (map (fun f => (key_of f, value f)) fields).

(** What the decoder stores in an [interface{}] for a JSON number (the
    decoder is not told to [UseNumber]): the float64 that
    [strconv.ParseFloat] finds for the literal, the nearest one, ties to
    the even significand.  [float64_of_Z n] is that float64 for the
    literal of an integer [n] within the range of float64. *)
Definition float64_of_Z (n : Z) : spec_float :=
  binary_normalize 53 1024 n 0 false.

(** The integer a float64 stands for, when it stands for one. *)
Definition float64_to_Z (f : spec_float) : option Z :=
  match f with
  | S754_zero _ => Some 0%Z
  | S754_finite s m e =>
      let v := if s then Z.neg m else Z.pos m in
      if (0 <=? e)%Z then Some (v * 2 ^ e)%Z
      else if (v mod 2 ^ (- e) =? 0)%Z then Some (v / 2 ^ (- e))%Z
      else None
  | _ => None
  end.

End json.

Module exec.

(** Go's [os/exec.Cmd], from the Go standard library (it is not part of
    this repository).  Only what the service touches is kept: the three
    stream fields, which are nil until the caller or a [...Pipe] method
    sets them, and the [Process] field, which [Start] sets.  The guards
    of [StdinPipe], [StdoutPipe], [StderrPipe] and [Start] are the
    library's, with the library's error texts.

    [os_Pipe] is not a field of the library's struct: it is what the
    operating system answers to the calls of [os.Pipe()] made for this
    command, first call first ([None]: a pipe is made); once the list is
    used up every call makes a pipe. *)

Inductive Stream :=
| Buffer        (* a caller-supplied [&bytes.Buffer{}] *)
| PipeEnd.      (* the child's end of a pipe made by a [...Pipe] method *)

Record Cmd := mkCmd {
  Path : string;
  Args : list string;
  Stdin : option Stream;
  Stdout : option Stream;
  Stderr : option Stream;
  Process : option unit;
  os_Pipe : list (option error)
}.

Definition Command (name : string) (args : list string) : Cmd :=
  mkCmd name (name :: args) None None None None [].

Definition set_Stdin (c : Cmd) (v : option Stream) : Cmd :=
  mkCmd (Path c) (Args c) v (Stdout c) (Stderr c) (Process c) (os_Pipe c).
Definition set_Stdout (c : Cmd) (v : option Stream) : Cmd :=
  mkCmd (Path c) (Args c) (Stdin c) v (Stderr c) (Process c) (os_Pipe c).
Definition set_Stderr (c : Cmd) (v : option Stream) : Cmd :=
  mkCmd (Path c) (Args c) (Stdin c) (Stdout c) v (Process c) (os_Pipe c).
Definition set_Process (c : Cmd) (v : option unit) : Cmd :=
  mkCmd (Path c) (Args c) (Stdin c) (Stdout c) (Stderr c) v (os_Pipe c).
Definition set_os_Pipe (c : Cmd) (v : list (option error)) : Cmd :=
  mkCmd (Path c) (Args c) (Stdin c) (Stdout c) (Stderr c) (Process c) v.

(** [os.Pipe()], called for the command [c]. *)
Definition Pipe (c : Cmd) : option error * Cmd :=
  (hd None (os_Pipe c), set_os_Pipe c (tl (os_Pipe c))).

(** [c.Start()]; [launch] is what the operating system answers when the
    program is launched ([None]: launched). *)
Definition Start (launch : option error) (c : Cmd) : option error * Cmd :=
  match Process c with
  | Some _ => (Some "exec: already started"%string, c)
  | None =>
      match launch with
      | Some e => (Some e, c)
      | None => (None, set_Process c (Some tt))
      end
  end.

(** The three [...Pipe] methods: the two guards, then [os.Pipe()]; when
    that fails its error is returned and the stream field stays nil. *)
Definition StdinPipe (c : Cmd) : (error + unit) * Cmd :=
  match Stdin c, Process c with
  | Some _, _ => (inl "exec: Stdin already set"%string, c)
  | None, Some _ => (inl "exec: StdinPipe after process started"%string, c)
  | None, None =>
      match Pipe c with
      | (Some err, c) => (inl err, c)
      | (None, c) => (inr tt, set_Stdin c (Some PipeEnd))
      end
  end.

Definition StdoutPipe (c : Cmd) : (error + unit) * Cmd :=
  match Stdout c, Process c with
  | Some _, _ => (inl "exec: Stdout already set"%string, c)
  | None, Some _ => (inl "exec: StdoutPipe after process started"%string, c)
  | None, None =>
      match Pipe c with
      | (Some err, c) => (inl err, c)
      | (None, c) => (inr tt, set_Stdout c (Some PipeEnd))
      end
  end.

Definition StderrPipe (c : Cmd) : (error + unit) * Cmd :=
  match Stderr c, Process c with
  | Some _, _ => (inl "exec: Stderr already set"%string, c)
  | None, Some _ => (inl "exec: StderrPipe after process started"%string, c)
  | None, None =>
      match Pipe c with
      | (Some err, c) => (inl err, c)
      | (None, c) => (inr tt, set_Stderr c (Some PipeEnd))
      end
  end.

End exec.

(** ** The engine behind the pipes, and the transaction codec *)

(** One call of [Read(buf[:])]: the bytes stored at the front of [buf]
    (their number is [nRead]) and the error returned with them. *)
Record ReadResult := mkRead { rdata : list byte; rerr : option error }.

Module os.

(** [Read] of [os.File], from the Go standard library: the ends of the pipes
    that [StdoutPipe] and [StderrPipe] return are files, and the library
    reports a read into a non-empty buffer that stored no byte and met no
    error as [io.EOF] ([poll.FD.eofError]).  [File_Read] takes what the
    read on the descriptor answered and gives what [Read] returns. *)
Definition EOF : error := "EOF"%string.

Definition File_Read (r : ReadResult) : ReadResult :=
  match rdata r, rerr r with
  | [], None => mkRead [] (Some EOF)
  | _, _ => r
  end.

End os.

(** What answers on the three pipes of the engine: the write on the
    descriptor of the input pipe and the reads on the descriptors of the
    two output pipes.  Every operation takes and returns the state of the
    far end; [None] is a call that never returns. *)
Class Engine (E : Type) := {
  stdin_Write : E -> list byte -> option (option error * E);
  stdout_Read : E -> nat -> option (ReadResult * E);
  stderr_Read : E -> nat -> option (ReadResult * E)
}.

(** The parsed envelope. *)
Record JsonRpcRequest := mkRequest {
  Jsonrpc : string;
  Method : string;
  Params : list byte;      (* json.RawMessage *)
  Id : JSON                (* interface{} *)
}.

(** The decoders and the encoder the handler calls, for a type [Tx] of
    transactions (go-ethereum's [types.Transaction]):
    [json.NewDecoder(r.Body).Decode(&req)], [json.Unmarshal(jr.Params, &tx)]
    and [tx.MarshalBinary()]. *)
Class Codec (Tx : Type) := {
  Decode : list byte -> error + JsonRpcRequest;
  Unmarshal : list byte -> error + Tx;
  MarshalBinary : Tx -> error + list byte
}.

(** ** The state one request handler runs in *)

Inductive Level := LevelInfo | LevelError.

Inductive Event :=
| EvLock                                   (* r.cmdLock <- struct{}{} *)
| EvUnlock                                 (* <-r.cmdLock *)
| EvMetric (name : string)                 (* histogram.Record *)
| EvWrite (bs : list byte) (res : option (option error))
                                           (* inPipe.Write and its answer *)
| EvReadOut (res : option ReadResult)      (* outPipe.Read and its answer *)
| EvReadErr (res : option ReadResult)      (* errPipe.Read and its answer *)
| EvSleep                                  (* time.Sleep(time.Microsecond) *)
| EvLog (lvl : Level) (msg : string) (arg : option error).

(** [http.ResponseWriter]: the headers set, the status written and the
    chunks written to the body, oldest first. *)
Inductive Chunk :=
| Text (s : string)          (* w.Write *)
| Encoded (v : JSON).        (* json.NewEncoder(w).Encode *)

Record ResponseWriter := mkWriter {
  header : list (string * string);
  status : option Z;
  body : list Chunk
}.

Record State (E : Type) := mkState {
  sgxRevmCmd : exec.Cmd;            (* r.sgxRevmCmd *)
  cmdLock : list unit;              (* r.cmdLock, of capacity 1 *)
  engine : E;
  pick : bool;                      (* the runtime's choice when both cases
                                       of the select are ready *)
  outCh : list (list byte);         (* handleAPI's outCh, of capacity 2 *)
  errCh : list (option error);      (* handleAPI's errCh, of capacity 1 *)
  w : ResponseWriter;
  events : list Event               (* oldest first *)
}.

Section Monad.

Context {E : Type}.

Definition M (A : Type) := State E -> Outcome A * State E.

Definition ret {A} (a : A) : M A := fun s => (Ret a, s).

Definition bind {A B} (m : M A) (k : A -> M B) : M B :=
  fun s =>
    match m s with
    | (Ret a, s') => k a s'
    | (Panic v, s') => (Panic v, s')
    | (Blocked, s') => (Blocked, s')
    | (OutOfFuel, s') => (OutOfFuel, s')
    end.

Definition panic {A} (v : PanicValue) : M A := fun s => (Panic v, s).
Definition block {A} : M A := fun s => (Blocked, s).
Definition out_of_fuel {A} : M A := fun s => (OutOfFuel, s).

Definition emit (e : Event) : M unit :=
  fun s => (Ret tt,
            mkState (sgxRevmCmd s) (cmdLock s) (engine s) (pick s)
                    (outCh s) (errCh s) (w s) (events s ++ [e])).

Definition set_cmd (c : exec.Cmd) (s : State E) : State E :=
  mkState c (cmdLock s) (engine s) (pick s) (outCh s) (errCh s) (w s)
          (events s).
Definition set_cmdLock (l : list unit) (s : State E) : State E :=
  mkState (sgxRevmCmd s) l (engine s) (pick s) (outCh s) (errCh s) (w s)
          (events s).
Definition set_engine (e : E) (s : State E) : State E :=
  mkState (sgxRevmCmd s) (cmdLock s) e (pick s) (outCh s) (errCh s) (w s)
          (events s).
Definition set_outCh (c : list (list byte)) (s : State E) : State E :=
  mkState (sgxRevmCmd s) (cmdLock s) (engine s) (pick s) c (errCh s) (w s)
          (events s).
Definition set_errCh (c : list (option error)) (s : State E) : State E :=
  mkState (sgxRevmCmd s) (cmdLock s) (engine s) (pick s) (outCh s) c (w s)
          (events s).
Definition set_w (x : ResponseWriter) (s : State E) : State E :=
  mkState (sgxRevmCmd s) (cmdLock s) (engine s) (pick s) (outCh s)
          (errCh s) x (events s).

End Monad.

Declare Scope go_scope.
Delimit Scope go_scope with go.
Notation "x <- m ;; k" := (bind m (fun x => k))
  (at level 100, m at next level, right associativity) : go_scope.
Notation "m ;; k" := (bind m (fun _ => k))
  (at level 100, right associativity) : go_scope.

Local Open Scope go_scope.

(** ** RevmService *)

Module context.

(** A [context.Context] as the select of [ExecuteLocked] finds it. *)
Inductive Context :=
| Live                        (* ctx.Done() is still open *)
| Cancelled (err : error).    (* ctx.Done() is closed, ctx.Err() = err *)

End context.
Import context.

Record RevmService := mkService {
  svc_cmd : exec.Cmd;         (* sgxRevmCmd *)
  svc_lock : list unit        (* cmdLock: make(chan struct{}, 1) *)
}.

(** [NewRevmService]; [launch] is the answer of the operating system to
    [cmd.Start()]. *)
Definition NewRevmService (launch : option error) : error + RevmService :=
  let cmd := exec.Command "gramine-sgx" ["./sgx-revm"%string] in
  let cmd := exec.set_Stdout cmd (Some exec.Buffer) in
  let cmd := exec.set_Stderr cmd (Some exec.Buffer) in
  match exec.Start launch cmd with
  | (Some err, _) => inl err
  | (None, cmd) => inr (mkService cmd [])
  end.

Definition bufSize : nat := 1024.

Section Service.

Context {E : Type} `{Engine E} {Tx : Type} `{Codec Tx}.

(** *** Channel operations *)

Definition lock_send : M (E:=E) unit :=
  fun s =>
    if (List.length (cmdLock s) <? 1)%nat
    then emit EvLock (set_cmdLock (cmdLock s ++ [tt]) s)
    else (Blocked, s).

Definition lock_recv : M (E:=E) unit :=
  fun s =>
    match cmdLock s with
    | _ :: rest => emit EvUnlock (set_cmdLock rest s)
    | [] => (Blocked, s)
    end.

Definition outCh_send (v : list byte) : M (E:=E) unit :=
  fun s =>
    if (List.length (outCh s) <? 2)%nat
    then (Ret tt, set_outCh (outCh s ++ [v]) s)
    else (Blocked, s).

Definition outCh_recv : M (E:=E) (list byte) :=
  fun s =>
    match outCh s with
    | v :: rest => (Ret v, set_outCh rest s)
    | [] => (Blocked, s)
    end.

Definition errCh_send (v : option error) : M (E:=E) unit :=
  fun s =>
    if (List.length (errCh s) <? 1)%nat
    then (Ret tt, set_errCh (errCh s ++ [v]) s)
    else (Blocked, s).

Definition errCh_recv : M (E:=E) (option error) :=
  fun s =>
    match errCh s with
    | v :: rest => (Ret v, set_errCh rest s)
    | [] => (Blocked, s)
    end.

(** *** ExecuteLocked *)

(** The first case of the select, taken when the send can proceed. *)
Definition locked_case (cb : M (E:=E) unit) : M (E:=E) (option error) :=
  lock_send ;;                              (* case r.cmdLock <- struct{}{} *)
  emit (EvMetric "revm_lock_wait") ;;
  cb ;;
  lock_recv ;;                              (* <-r.cmdLock *)
  ret None.

(** The second case, taken when [ctx.Done()] is closed. *)
Definition done_case (err : error) : M (E:=E) (option error) :=
  emit (EvMetric "revm_lock_timeout") ;;
  ret (Some err).

(** [ExecuteLocked], in the state in which its select resolves: the send
    can proceed when the channel has room, the receive from [ctx.Done()]
    when the context is done; when both can, the runtime picks one; when
    neither ever can, the goroutine stays in the select. *)
Definition ExecuteLocked (ctx : context.Context) (cb : M (E:=E) unit)
  : M (E:=E) (option error) :=
  fun s =>
    match (List.length (cmdLock s) <? 1)%nat, ctx with
    | true, Live => locked_case cb s
    | true, Cancelled err =>
        if pick s then locked_case cb s else done_case err s
    | false, Cancelled err => done_case err s
    | false, Live => block s
    end.

(** *** ExecuteTx *)

Definition cmd_call {A} (f : exec.Cmd -> A * exec.Cmd) : M (E:=E) A :=
  fun s => let (a, c) := f (sgxRevmCmd s) in (Ret a, set_cmd c s).

(** [inPipe.Write(txBytes)] *)
Definition pipe_Write (bs : list byte) : M (E:=E) (option error) :=
  fun s =>
    match stdin_Write (engine s) bs with
    | Some (err, e') =>
        (Ret err, set_engine e' (snd (emit (EvWrite bs (Some err)) s)))
    | None => (Blocked, snd (emit (EvWrite bs None) s))
    end.

(** [pipe.Read(buf[:])] on one of the two output pipes, which are
    files. *)
Definition pipe_Read (read : E -> nat -> option (ReadResult * E))
           (ev : option ReadResult -> Event) : M (E:=E) ReadResult :=
  fun s =>
    match read (engine s) bufSize with
    | Some (r, e') =>
        let r := os.File_Read r in
        (Ret r, set_engine e' (snd (emit (ev (Some r)) s)))
    | None => (Blocked, snd (emit (ev None) s))
    end.

(** The frame loop of [ExecuteTx]; the source has it twice, once on
    [outPipe] (lines 82-98) and once on [errPipe] (lines 100-115), the
    same but for the pipe read.  [acc] is [outData] (or [outErr]). *)
Fixpoint readLoop (read : E -> nat -> option (ReadResult * E))
         (ev : option ReadResult -> Event) (fuel : nat) (acc : list byte)
  : M (E:=E) (list byte) :=
  match fuel with
  | O => out_of_fuel
  | S fuel =>
      r <- pipe_Read read ev ;;
      match rerr r with
      | Some err =>
          emit (EvLog LevelError
                      "revm service stdout corrupted, cannot recover"
                      (Some err)) ;;
          panic (PanicErr err)
      | None =>
          let buf := firstn bufSize (rdata r ++ repeat x00 bufSize) in
          let nRead := Z.of_nat (List.length (rdata r)) in
          (if (nRead =? 0)%Z then emit EvSleep else ret tt) ;;
          match slice_to buf nRead with
          | None => panic (PanicRuntime "slice bounds out of range")
          | Some chunk =>
              let acc := acc ++ chunk in
              match index buf (nRead - 1) with
              | None => panic (PanicRuntime "index out of range")
              | Some b =>
                  if Byte.eqb b nl then ret acc
                  else readLoop read ev fuel acc
              end
          end
      end
  end.

Definition ExecuteTx (fuel : nat) (ctx : context.Context) (tx : Tx)
  : M (E:=E) (error + list byte * list byte) :=
  inPipe <- cmd_call exec.StdinPipe ;;
  match inPipe with
  | inl err => ret (inl err)
  | inr _ =>
  outPipe <- cmd_call exec.StdoutPipe ;;
  match outPipe with
  | inl err => ret (inl err)
  | inr _ =>
  errPipe <- cmd_call exec.StderrPipe ;;
  match errPipe with
  | inl err => ret (inl err)
  | inr _ =>
  match MarshalBinary tx with
  | inl err => ret (inl err)
  | inr txBytes =>
  let txBytes := txBytes ++ [nl] in
  err <- pipe_Write txBytes ;;
  match err with
  | Some err => ret (inl err)
  | None =>
  outData <- readLoop stdout_Read EvReadOut fuel [] ;;
  outErr <- readLoop stderr_Read EvReadErr fuel [] ;;
  ret (inr (outData, outErr))
  end end end end end.

End Service.

(** ** JSON-RPC envelopes *)

Record JsonRpcError := mkError { Code : Z; Message : string }.

Record JsonRpcErrorResponse := mkErrorResponse {
  err_Jsonrpc : string;
  Error : JsonRpcError;
  err_Id : JSON
}.

Definition NewJsonRpcErrorResponse (r : JsonRpcRequest) (code : Z)
           (msg : string) : JsonRpcErrorResponse :=
  {| err_Id := Id r;
     Error := mkError code msg;
     err_Jsonrpc := Jsonrpc r |}.

Record JsonRpcSuccessResponse := mkSuccessResponse {
  ok_Jsonrpc : string;
  Result : list byte;        (* interface{}; the handler stores a []byte *)
  ok_Id : JSON
}.

Definition NewJsonRpcSuccessResponse (r : JsonRpcRequest) (data : list byte)
  : JsonRpcSuccessResponse :=
  {| ok_Id := Id r;
     Result := data;
     ok_Jsonrpc := Jsonrpc r |}.

(** The struct tags, as written in the source.  [quoted s] is [s] between
    double quotes. *)
Definition quoted (s : string) : string :=
  String reflect.dq (s ++ String reflect.dq EmptyString).

Definition tag_jsonrpc : string := "json:" ++ quoted "jsonrpc".
Definition tag_error : string := "json:" ++ quoted "error".
Definition tag_result : string := "json:" ++ quoted "result".
Definition tag_id : string := "json:" ++ quoted "id".
Definition tag_code : string := "json:" ++ quoted "code".
(** The tag of [JsonRpcError.Message]: [json:message] followed by two
    double quotes. *)
Definition tag_message : string := "json:message" ++ quoted EmptyString.

Definition encode_JsonRpcError (e : JsonRpcError) : JSON :=
  json.Marshal
    [ json.mkField "Code" tag_code (JInt (Code e));
      json.mkField "Message" tag_message (JString (Message e)) ].

Definition encode_JsonRpcErrorResponse (r : JsonRpcErrorResponse) : JSON :=
  json.Marshal
    [ json.mkField "Jsonrpc" tag_jsonrpc (JString (err_Jsonrpc r));
      json.mkField "Error" tag_error (encode_JsonRpcError (Error r));
      json.mkField "Id" tag_id (err_Id r) ].

Definition encode_JsonRpcSuccessResponse (r : JsonRpcSuccessResponse) : JSON :=
  json.Marshal
    [ json.mkField "Jsonrpc" tag_jsonrpc (JString (ok_Jsonrpc r));
      json.mkField "Result" tag_result (JBase64 (Result r));
      json.mkField "Id" tag_id (ok_Id r) ].

(** ** The handler *)

(** The part of an [*http.Request] the handler reads. *)
Record Request := mkHttpRequest {
  Body : list byte;
  Ctx : context.Context      (* r.Context() *)
}.

Section Handler.

Context {E : Type} `{Engine E} {Tx : Type} `{Codec Tx}.

Definition parseJsonRpcRequest (r : Request) : error + JsonRpcRequest :=
  match Decode (Body r) with
  | inl err => inl err
  | inr req => inr req
  end.

(** *** http.ResponseWriter *)

Definition WriteHeader (code : Z) : M (E:=E) unit :=
  fun s =>
    let x := w s in
    (Ret tt,
     set_w (mkWriter (header x)
                     (match status x with None => Some code | st => st end)
                     (body x)) s).

Definition Write (c : Chunk) : M (E:=E) unit :=
  fun s =>
    let x := w s in
    (Ret tt,
     set_w (mkWriter (header x)
                     (match status x with None => Some 200%Z | st => st end)
                     (body x ++ [c])) s).

Definition Header_Set (k v : string) : M (E:=E) unit :=
  fun s =>
    let x := w s in
    (Ret tt, set_w (mkWriter ((k, v) :: header x) (status x) (body x)) s).

(** A deferred call that only records: it runs when the body returns and
    when it panics, not while the goroutine is blocked. *)
Definition defer_emit {A} (e : Event) (m : M (E:=E) A) : M (E:=E) A :=
  fun s =>
    match m s with
    | (Ret a, s') => (Ret a, snd (emit e s'))
    | (Panic v, s') => (Panic v, snd (emit e s'))
    | (o, s') => (o, s')
    end.

(** The closure passed to [ExecuteLocked] (lines 211-221). *)
Definition callback (fuel : nat) (ctx : context.Context) (tx : Tx)
  : M (E:=E) unit :=
  r <- ExecuteTx fuel ctx tx ;;
  match r with
  | inl err => errCh_send (Some err)
  | inr (stdout, stderr) =>
      outCh_send stdout ;;
      outCh_send stderr ;;
      errCh_send None
  end.

(** [handleAPI] once the request is parsed (lines 192-233). *)
Definition serve (fuel : nat) (r : Request) (jr : JsonRpcRequest)
  : M (E:=E) unit :=
  Header_Set "Content-Type" "application/json" ;;
  if negb (String.eqb (Method jr) "suave_offchainCall") then
    Write (Encoded (encode_JsonRpcErrorResponse
      (NewJsonRpcErrorResponse jr (-32600)
         "invalid method, expected suave_offchainCall")))
  else
    match Unmarshal (Params jr) with
    | inl err =>
        Write (Encoded (encode_JsonRpcErrorResponse
          (NewJsonRpcErrorResponse jr (-32600)
             ("could not unmarshal transaction: " ++ err))))
    | inr tx =>
        let ctx := Ctx r in
        (fun s => (Ret tt, set_errCh [] (set_outCh [] s))) ;;
        _ <- ExecuteLocked ctx (callback fuel ctx tx) ;;
        err <- errCh_recv ;;
        match err with
        | Some err =>
            emit (EvLog LevelError "could not execute offchain call"
                        (Some err)) ;;
            Write (Encoded (encode_JsonRpcErrorResponse
              (NewJsonRpcErrorResponse jr (-32600)
                 ("could not execute: " ++ err))))
        | None =>
            stdout <- outCh_recv ;;
            Write (Encoded (encode_JsonRpcSuccessResponse
              (NewJsonRpcSuccessResponse jr stdout))) ;;
            errData <- errCh_recv ;;
            match errData with
            | Some e =>
                emit (EvLog LevelInfo "encountered execution error"
                            (Some e))
            | None => ret tt
            end
        end
    end.

Definition handleAPI (fuel : nat) (r : Request) : M (E:=E) unit :=
  defer_emit (EvMetric "request_duration_api")
    match parseJsonRpcRequest r with
    | inl err =>
        WriteHeader 400 ;;
        Write (Text ("could not parse request: " ++ err))
    | inr jr => serve fuel r jr
    end.

End Handler.

(** ** Engines *)

(** An engine that follows a script: every write gets the same answer, and
    each read on an output pipe takes the next answer of that pipe's script;
    a read finds nothing to return once its script is used up. *)
Record Scripted := mkScripted {
  write_answer : option error;
  out_reads : list ReadResult;
  err_reads : list ReadResult;
  written : list (list byte)
}.

#[export] Instance Scripted_Engine : Engine Scripted := {
  stdin_Write e bs :=
    Some (write_answer e,
          mkScripted (write_answer e) (out_reads e) (err_reads e)
                     (written e ++ [bs]));
  stdout_Read e _ :=
    match out_reads e with
    | r :: rest =>
        Some (r, mkScripted (write_answer e) rest (err_reads e) (written e))
    | [] => None
    end;
  stderr_Read e _ :=
    match err_reads e with
    | r :: rest =>
        Some (r, mkScripted (write_answer e) (out_reads e) rest (written e))
    | [] => None
    end
}.

(** The stub engine of the specification: what is written to its input
    comes back on its primary output (a loopback), and every input yields
    an empty diagnostic frame.  A read takes as many pending bytes as fit
    the buffer and waits while none is pending. *)
Record Echo := mkEcho { pending_out : list byte; pending_err : list byte }.

Definition take (pending : list byte) (cap : nat)
  : option (ReadResult * list byte) :=
  match pending with
  | [] => None
  | _ => Some (mkRead (firstn cap pending) None, skipn cap pending)
  end.

#[export] Instance Echo_Engine : Engine Echo := {
  stdin_Write e bs :=
    Some (None, mkEcho (pending_out e ++ bs) (pending_err e ++ [nl]));
  stdout_Read e cap :=
    match take (pending_out e) cap with
    | Some (r, rest) => Some (r, mkEcho rest (pending_err e))
    | None => None
    end;
  stderr_Read e cap :=
    match take (pending_err e) cap with
    | Some (r, rest) => Some (r, mkEcho (pending_out e) rest)
    | None => None
    end
}.

(** A stub codec for concrete runs: every body decodes to [answer], and a
    transaction is its own parameter bytes and its own binary encoding. *)
Definition Stub_Codec (answer : error + JsonRpcRequest) : Codec (list byte) :=
  {| Decode := fun _ => answer;
     Unmarshal := fun bs => inr bs;
     MarshalBinary := fun tx => inr tx |}.

(** The state a handler starts in. *)
Definition start_state {E} (svc : RevmService) (e : E) (choice : bool)
  : State E :=
  mkState (svc_cmd svc) (svc_lock svc) e choice [] []
          (mkWriter [] None []) [].

(** A service whose command has not been started and has no stream set:
    the only state of an [exec.Cmd] in which the three pipe methods
    succeed. *)
Definition unstarted_service : RevmService :=
  mkService (exec.Command "gramine-sgx" ["./sgx-revm"%string]) [].

(** * The vocabulary of the properties *)

Unset Implicit Arguments.

Local Open Scope string_scope.
Local Open Scope list_scope.

(** The events of a trace that take and free the admission slot. *)
Definition is_lock (e : Event) : bool :=
  match e with EvLock => true | _ => false end.

Definition is_unlock (e : Event) : bool :=
  match e with EvUnlock => true | _ => false end.

Definition locks (evs : list Event) : nat := List.length (filter is_lock evs).

Definition unlocks (evs : list Event) : nat :=
  List.length (filter is_unlock evs).

(** The error envelope as it is written to the response. *)
Definition error_envelope (jr : JsonRpcRequest) (key : string) (msg : string)
  : Chunk :=
  Encoded (JObject
    [ ("jsonrpc", JString (Jsonrpc jr));
      ("error", JObject [ ("code", JInt (-32600)); (key, JString msg) ]);
      ("id", Id jr) ]).

Definition success_envelope (jr : JsonRpcRequest) (result : list byte)
  : Chunk :=
  Encoded (JObject
    [ ("jsonrpc", JString (Jsonrpc jr));
      ("result", JBase64 result);
      ("id", Id jr) ]).

(** Concrete requests and states used to run the handler. *)
Definition call_request : JsonRpcRequest :=
  mkRequest "2.0" "suave_offchainCall" [x61; x62] (JNumber (json.float64_of_Z 1)).

Definition foo_request : JsonRpcRequest :=
  mkRequest "2.0" "foo" [] (JNumber (json.float64_of_Z 1)).

Definition live_http : Request := mkHttpRequest [] Live.

Definition expired_http : Request :=
  mkHttpRequest [] (Cancelled "context deadline exceeded").

Definition idle_echo : State Echo :=
  start_state unstarted_service (mkEcho [] []) true.

Definition started_service : RevmService :=
  match NewRevmService None with
  | inr svc => svc
  | inl _ => unstarted_service
  end.

Definition busy_echo : State Echo :=
  start_state (mkService (svc_cmd unstarted_service) [tt]) (mkEcho [] [])
              true.

(** A relation between the state before and the state after, that every
    run of a computation satisfies, however it ends. *)
Definition preserves {E} (R : State E -> State E -> Prop) {A}
           (m : M (E:=E) A) : Prop :=
  forall s o s', m s = (o, s') -> R s s'.

(** The handler's own variables, the response and the admission channel. *)
Definition untouched {E} (s s' : State E) : Prop :=
  w s' = w s /\ cmdLock s' = cmdLock s /\ outCh s' = outCh s
  /\ errCh s' = errCh s /\ pick s' = pick s.

(** The state in which the callback starts, when [ExecuteLocked] is
    entered in [s] and takes the slot. *)
Definition acquired_state {E} (s : State E) : State E :=
  snd (emit (EvMetric "revm_lock_wait")
         (snd (emit EvLock (set_cmdLock (cmdLock s ++ [tt]) s)))).

(** A stdout pipe whose first read fails. *)
Definition broken_stdout : State Scripted :=
  start_state unstarted_service
              (mkScripted None [mkRead [] (Some "EOF")] [] []) true.

(** The state in which the callback starts, when [handleAPI] is entered in
    [s] with a valid call and takes the slot. *)
Definition callback_entry {E} (s : State E) : State E :=
  acquired_state
    (set_errCh []
       (set_outCh []
          (snd (Header_Set "Content-Type" "application/json" s)))).

(** The state after a read that returned [r] and left the far end in
    [e']. *)
Definition after_read {E} (ev : option ReadResult -> Event) (r : ReadResult)
           (e' : E) (s : State E) : State E :=
  set_engine e' (snd (emit (ev (Some r)) s)).


(** A primary pipe that first delivers nothing, then a whole frame. *)
Definition pausing_stdout : State Scripted :=
  start_state unstarted_service
    (mkScripted None [mkRead [] None; mkRead [x6f; x6b; x0a] None]
                [mkRead [x0a] None] [])
    true.

(** A command whose three pipes have been handed out. *)
Definition with_pipes (c : exec.Cmd) : exec.Cmd :=
  exec.set_Stderr
    (exec.set_Stdout
       (exec.set_Stdin
          (exec.set_os_Pipe c (tl (tl (tl (exec.os_Pipe c)))))
          (Some exec.PipeEnd))
       (Some exec.PipeEnd))
    (Some exec.PipeEnd).

(** A command that still hands out its pipes: not started, no stream
    set, and the operating system makes the next three pipes. *)
Definition hands_out_pipes (c : exec.Cmd) : Prop :=
  exec.Stdin c = None /\ exec.Stdout c = None /\ exec.Stderr c = None
  /\ exec.Process c = None
  /\ nth 0 (exec.os_Pipe c) None = None
  /\ nth 1 (exec.os_Pipe c) None = None
  /\ nth 2 (exec.os_Pipe c) None = None.

(** [ExecuteTx] after the three pipes were obtained (lines 71-117). *)
Definition exchange {E} `{Engine E} {Tx} `{Codec Tx} (fuel : nat) (tx : Tx)
  : M (E:=E) (error + list byte * list byte) :=
  (match MarshalBinary tx with
   | inl err => ret (inl err)
   | inr txBytes =>
       err <- pipe_Write (txBytes ++ [nl]) ;;
       match err with
       | Some err => ret (inl err)
       | None =>
           outData <- readLoop stdout_Read EvReadOut fuel [] ;;
           outErr <- readLoop stderr_Read EvReadErr fuel [] ;;
           ret (inr (outData, outErr))
       end
   end)%go.

(** The errors the pipe calls of a trace reported. *)
Definition read_fault (e : Event) : list error :=
  match e with
  | EvReadOut (Some r) | EvReadErr (Some r) =>
      match rerr r with Some err => [err] | None => [] end
  | _ => []
  end.

Definition write_fault (e : Event) : list error :=
  match e with
  | EvWrite _ (Some (Some err)) => [err]
  | _ => []
  end.

Definition read_faults (evs : list Event) : list error :=
  flat_map read_fault evs.

Definition write_faults (evs : list Event) : list error :=
  flat_map write_fault evs.

(** What the handler does once [ExecuteTx] is over: its own outcome, the
    events it adds and the chunks it writes. *)
Definition handler_outcome (ox : Outcome (error + list byte * list byte))
  : Outcome unit :=
  match ox with
  | Ret (inl _) => Ret tt
  | Ret (inr _) => Blocked
  | Panic v => Panic v
  | Blocked => Blocked
  | OutOfFuel => OutOfFuel
  end.

Definition tail_events (ox : Outcome (error + list byte * list byte))
  : list Event :=
  match ox with
  | Ret (inl err) =>
      [ EvUnlock;
        EvLog LevelError "could not execute offchain call" (Some err);
        EvMetric "request_duration_api" ]
  | Ret (inr _) => [EvUnlock]
  | Panic _ => [EvMetric "request_duration_api"]
  | _ => []
  end.

Definition response_chunks (jr : JsonRpcRequest)
           (ox : Outcome (error + list byte * list byte)) : list Chunk :=
  match ox with
  | Ret (inl err) =>
      [error_envelope jr "Message" ("could not execute: " ++ err)%string]
  | Ret (inr (stdout, _)) => [success_envelope jr stdout]
  | _ => []
  end.

(** An input pipe on which every write fails. *)
Definition broken_stdin : State Scripted :=
  start_state unstarted_service
              (mkScripted (Some "write |1: broken pipe") [] [] []) true.

(** The member of an encoded object under a key. *)
Fixpoint member (k : string) (ms : list (string * JSON)) : option JSON :=
  match ms with
  | [] => None
  | (k', v) :: rest => if String.eqb k k' then Some v else member k rest
  end.

(** A chunk of the response that is an envelope echoing the [jsonrpc] and
    [id] fields of [jr]. *)
Definition echoes (jr : JsonRpcRequest) (c : Chunk) : Prop :=
  exists ms,
    c = Encoded (JObject ms) /\
    member "jsonrpc" ms = Some (JString (Jsonrpc jr)) /\
    member "id" ms = Some (Id jr).

(** The request [jr] with another version string. *)
Definition with_version (v : string) (jr : JsonRpcRequest) : JsonRpcRequest :=
  mkRequest v (Method jr) (Params jr) (Id jr).

(** What the handler answers, apart from the fields it takes over from
    the request: nothing, an error with its message, or a result. *)
Inductive Reply :=
| NoReply
| ErrorReply (msg : string)
| ResultReply (result : list byte).

(** The chunks of a reply to the request [jr]. *)
Definition envelopes (jr : JsonRpcRequest) (a : Reply) : list Chunk :=
  match a with
  | NoReply => []
  | ErrorReply msg => [error_envelope jr "Message" msg]
  | ResultReply result => [success_envelope jr result]
  end.

(** The envelope that the decoder makes of the body
    [{"jsonrpc":"2.0","method":"foo","id":9007199254740993}]: the [id]
    is the number 2^53 + 1, stored as a float64. *)
Definition big_id : Z := 9007199254740993.

Definition big_id_request : JsonRpcRequest :=
  mkRequest "2.0" "foo" [] (JNumber (json.float64_of_Z big_id)).

Definition same_response {E} (s s' : State E) : Prop := w s' = w s.

(** ** Goroutines sharing the slot *)

Module Interleaving.

(** Any number of goroutines, each running [ExecuteLocked] once with the
    handler's callback, share the channel [cmdLock] and the engine's
    pipes.  A goroutine is where it is in that code; the system moves by
    one goroutine taking one step, in any order. *)

Inductive Pc :=
| AtSelect      (* in the select of ExecuteLocked (line 43) *)
| AtWrite       (* slot taken, callback running, before inPipe.Write *)
| AtReadOut     (* in the loop on outPipe *)
| AtReadErr     (* in the loop on errPipe *)
| AtUnlock      (* callback returned, before <-r.cmdLock (line 47) *)
| Returned      (* ExecuteLocked returned nil (line 48) *)
| TimedOut      (* ExecuteLocked returned ctx.Err() (line 51) *)
| Panicked.     (* the callback panicked *)

Inductive Io := IoWrite | IoReadOut | IoReadErr.

(** What a read on a pipe leads to: another turn of the loop, the end of
    the frame, or a panic (a failed or an empty read). *)
Inductive Answer := More | Last | Bad.

Inductive Move :=
| Acquire                (* the send on cmdLock goes through *)
| GiveUp                 (* ctx.Done() is closed *)
| Fail                   (* ExecuteTx returns an error before writing *)
| Write (ok : bool)      (* inPipe.Write, with or without error *)
| Read (a : Answer)      (* one Read on the pipe of the current loop *)
| Unlock.                (* the receive from cmdLock *)

Record Sys := mkSys {
  lock : list unit;             (* what cmdLock buffers; its capacity is 1 *)
  pcs : nat -> Pc;              (* where each goroutine is *)
  io : list (nat * Io)          (* the calls made on the pipes, newest first *)
}.

Definition init : Sys := mkSys [] (fun _ => AtSelect) [].

Definition move_to (f : nat -> Pc) (t : nat) (p : Pc) : nat -> Pc :=
  fun i => if Nat.eqb i t then p else f i.

Definition after_out (a : Answer) : Pc :=
  match a with More => AtReadOut | Last => AtReadErr | Bad => Panicked end.

Definition after_err (a : Answer) : Pc :=
  match a with More => AtReadErr | Last => AtUnlock | Bad => Panicked end.

(** One step of goroutine [t]; [None] when the step cannot be taken. *)
Definition step (x : Sys) (t : nat) (m : Move) : option Sys :=
  match pcs x t, m with
  | AtSelect, Acquire =>
      if (List.length (lock x) <? 1)%nat
      then Some (mkSys (lock x ++ [tt]) (move_to (pcs x) t AtWrite) (io x))
      else None
  | AtSelect, GiveUp =>
      Some (mkSys (lock x) (move_to (pcs x) t TimedOut) (io x))
  | AtWrite, Fail =>
      Some (mkSys (lock x) (move_to (pcs x) t AtUnlock) (io x))
  | AtWrite, Write ok =>
      Some (mkSys (lock x)
                  (move_to (pcs x) t (if ok then AtReadOut else AtUnlock))
                  ((t, IoWrite) :: io x))
  | AtReadOut, Read a =>
      Some (mkSys (lock x) (move_to (pcs x) t (after_out a))
                  ((t, IoReadOut) :: io x))
  | AtReadErr, Read a =>
      Some (mkSys (lock x) (move_to (pcs x) t (after_err a))
                  ((t, IoReadErr) :: io x))
  | AtUnlock, Unlock =>
      match lock x with
      | _ :: rest => Some (mkSys rest (move_to (pcs x) t Returned) (io x))
      | [] => None
      end
  | _, _ => None
  end.

(** A schedule, first step first. *)
Fixpoint run (x : Sys) (sched : list (nat * Move)) : option Sys :=
  match sched with
  | [] => Some x
  | (t, m) :: rest =>
      match step x t m with
      | Some x' => run x' rest
      | None => None
      end
  end.

(** The goroutines that hold the slot. *)
Definition holds (p : Pc) : bool :=
  match p with
  | AtWrite | AtReadOut | AtReadErr | AtUnlock | Panicked => true
  | AtSelect | Returned | TimedOut => false
  end.

(** The goroutines that never held it. *)
Definition outside (p : Pc) : bool :=
  match p with
  | AtSelect | TimedOut => true
  | _ => false
  end.

(** The goroutines of a log, runs of calls by one goroutine merged into
    one entry. *)
Fixpoint runs (l : list nat) : list nat :=
  match l with
  | [] => []
  | t :: r =>
      match runs r with
      | t' :: q => if Nat.eqb t t' then t' :: q else t :: t' :: q
      | [] => [t]
      end
  end.

Definition callers (x : Sys) : list nat := map fst (io x).

(** What holds in every state the goroutines can reach. *)
Record Inv (x : Sys) : Prop := mkInv {
  lock_small : lock x = [] \/ lock x = [tt];
  holder_locks : forall i, holds (pcs x i) = true -> lock x = [tt];
  holder_unique :
    forall i j, holds (pcs x i) = true -> holds (pcs x j) = true -> i = j;
  outside_silent :
    forall i, outside (pcs x i) = true -> ~ In i (callers x);
  holder_newest :
    forall i, holds (pcs x i) = true ->
              ~ In i (callers x) \/ hd_error (runs (callers x)) = Some i;
  runs_distinct : NoDup (runs (callers x))
}.

End Interleaving.

(** Two calls: goroutine 0 runs a whole exchange while goroutine 1 waits,
    then goroutine 1 takes the slot and writes. *)
Definition two_calls : list (nat * Interleaving.Move) :=
  [ (0, Interleaving.Acquire); (0, Interleaving.Write true);
    (0, Interleaving.Read Interleaving.More);
    (0, Interleaving.Read Interleaving.Last);
    (0, Interleaving.Read Interleaving.Last); (0, Interleaving.Unlock);
    (1, Interleaving.Acquire); (1, Interleaving.Write true) ]%nat.

Definition after_two_calls : Interleaving.Sys :=
  match Interleaving.run Interleaving.init two_calls with
  | Some x => x
  | None => Interleaving.init
  end.

(** ** Vocabulary of the further properties *)

(** The engine, read with [read] from state [e], answers the successive
    reads with the chunks of [chunks], without error, and is then in
    [e']. *)
Fixpoint delivers {E} (read : E -> nat -> option (ReadResult * E)) (e : E)
         (chunks : list (list byte)) (e' : E) : Prop :=
  match chunks with
  | [] => e' = e
  | c :: cs =>
      exists e1,
        read e bufSize = Some (mkRead c None, e1) /\ delivers read e1 cs e'
  end.

(** A chunk a read may store: not empty and no larger than the buffer. *)
Definition fits (c : list byte) : Prop :=
  c <> [] /\ (List.length c <= bufSize)%nat.

(** A chunk that ends the frame loop: its last byte is the delimiter. *)
Definition ends_frame (c : list byte) : Prop := last c x00 = nl.

(** A command that refuses [StdinPipe]. *)
Definition refuses_stdin (c : exec.Cmd) : Prop :=
  exec.Stdin c <> None \/ exec.Process c <> None.

Definition keeps_refusing {E} (s s' : State E) : Prop :=
  refuses_stdin (sgxRevmCmd s) -> refuses_stdin (sgxRevmCmd s').

(** A command for which [StdinPipe] passes its guards and [os.Pipe()]
    then fails. *)
Definition stdin_pipe_fails (c : exec.Cmd) : Prop :=
  exec.Stdin c = None /\ exec.Process c = None
  /\ hd None (exec.os_Pipe c) <> None.

(** The idle echo engine behind a command for which the operating system
    refuses the first pipe and makes the later ones. *)
Definition no_pipe_echo : State Echo :=
  start_state
    (mkService
       (exec.set_os_Pipe (svc_cmd unstarted_service)
                         [Some "pipe: too many open files"])
       [])
    (mkEcho [] []) true.

Definition same_cmd {E} (s s' : State E) : Prop :=
  sgxRevmCmd s' = sgxRevmCmd s.

(** A primary pipe that delivers a delimiter inside its first chunk, ends
    its second chunk with one, and has a third chunk waiting. *)
Definition two_frames_stdout : State Scripted :=
  start_state unstarted_service
    (mkScripted None
       [ mkRead [x61; x0a; x62] None; mkRead [x63; x0a] None;
         mkRead [x64; x0a] None ]
       [] [])
    true.

(** A diagnostic pipe that delivers the frame [ok] in three chunks. *)
Definition slow_stderr : State Scripted :=
  start_state unstarted_service
    (mkScripted None []
       [mkRead [x6f] None; mkRead [x6b] None; mkRead [x0a] None] [])
    true.

(** The status of a response after a write: an earlier status stays. *)
Definition written_status (st : option Z) : option Z :=
  match st with None => Some 200%Z | _ => st end.

(** Between two states of a handler: the headers are kept, and either the
    response is as it was or its status is that of a written response. *)
Definition answers_ok {E} (s s' : State E) : Prop :=
  header (w s') = header (w s) /\
  (w s' = w s \/ status (w s') = written_status (status (w s))).

(** A chunk that reports an error: a plain text, or an encoded object with
    a member [error]. *)
Definition is_error_chunk (c : Chunk) : bool :=
  match c with
  | Text _ => true
  | Encoded (JObject ms) =>
      match member "error" ms with Some _ => true | None => false end
  | Encoded _ => false
  end.

(** The admission channel once [ExecuteTx] is over in a handler that took
    the slot. *)
Definition slot_after (ox : Outcome (error + list byte * list byte))
  : list unit :=
  match ox with
  | Ret _ => []
  | _ => [tt]
  end.

(** ** The readiness handlers *)

Module Readiness.

(** What the handlers log and how long they sleep. *)
Inductive Act :=
| Logged (msg : string)      (* s.log.Info(msg) *)
| Slept (d : Z).             (* time.Sleep(d) *)

(** Modelled from the spec: the type [Server] is declared outside
    handler.go.  Of its fields the four handlers use the readiness flag
    [isReady], a process-wide boolean read and swapped atomically, the
    grace interval [cfg.DrainDuration] and the logger; [acts] is what was
    logged and slept so far, oldest first. *)
Record Server := mkServer {
  isReady : bool;
  DrainDuration : Z;
  acts : list Act
}.

(** [s.isReady.Load()] *)
Definition Load (s : Server) : bool := isReady s.

(** [s.isReady.Swap(new)]: the old value, and the server with the new
    one. *)
Definition Swap (new : bool) (s : Server) : bool * Server :=
  (isReady s, mkServer new (DrainDuration s) (acts s)).

Definition act (a : Act) (s : Server) : Server :=
  mkServer (isReady s) (DrainDuration s) (acts s ++ [a]).

(** [w.WriteHeader(code)]: the first status written stays. *)
Definition write_header (code : Z) (x : ResponseWriter) : ResponseWriter :=
  mkWriter (header x)
           (match status x with None => Some code | st => st end)
           (body x).

Definition handleLivenessCheck (s : Server) (x : ResponseWriter)
  : Server * ResponseWriter :=
  (s, write_header 200 x).

Definition handleReadinessCheck (s : Server) (x : ResponseWriter)
  : Server * ResponseWriter :=
  if negb (Load s) then (s, write_header 503 x)
  else (s, write_header 200 x).

Definition handleDrain (s : Server) (x : ResponseWriter)
  : Server * ResponseWriter :=
  let (wasReady, s) := Swap false s in
  if negb wasReady then (s, x)
  else
    let s := act (Logged "Server marked as not ready") s in
    (act (Slept (DrainDuration s)) s, x).

Definition handleUndrain (s : Server) (x : ResponseWriter)
  : Server * ResponseWriter :=
  let (wasReady, s) := Swap true s in
  if wasReady then (s, x)
  else (act (Logged "Server marked as ready") s, x).

(** The two administrative calls, and a run of them one after another,
    each on a response of its own. *)
Inductive Admin := Drain | Undrain.

Definition target (a : Admin) : bool :=
  match a with Drain => false | Undrain => true end.

Definition admin (a : Admin) (s : Server) : Server :=
  match a with
  | Drain => fst (handleDrain s (mkWriter [] None []))
  | Undrain => fst (handleUndrain s (mkWriter [] None []))
  end.

Definition admin_all (calls : list Admin) (s : Server) : Server :=
  fold_left (fun s a => admin a s) calls s.

(** What a transition to [ready] leaves in [acts]. *)
Definition transition (d : Z) (ready : bool) : list Act :=
  if ready then [Logged "Server marked as ready"]
  else [Logged "Server marked as not ready"; Slept d].

(** A list of flag values in which each differs from the one before it,
    the first from [b]. *)
Fixpoint alternates (b : bool) (l : list bool) : Prop :=
  match l with
  | [] => True
  | x :: r => x = negb b /\ alternates x r
  end.

End Readiness.

(** A call whose callback panics on an empty read of the output, and two
    callers that then give up waiting for the slot. *)
Definition failed_call : list (nat * Interleaving.Move) :=
  [ (0, Interleaving.Acquire); (0, Interleaving.Write true);
    (0, Interleaving.Read Interleaving.Bad) ]%nat.

Definition after_failed_call : Interleaving.Sys :=
  match Interleaving.run Interleaving.init failed_call with
  | Some x => x
  | None => Interleaving.init
  end.

Definition callers_give_up : list (nat * Interleaving.Move) :=
  [ (1, Interleaving.GiveUp); (2, Interleaving.GiveUp) ]%nat.

Definition after_give_up : Interleaving.Sys :=
  match Interleaving.run after_failed_call callers_give_up with
  | Some x => x
  | None => Interleaving.init
  end.

(** A codec whose transactions never unmarshal. *)
Definition Refusing_Codec (answer : error + JsonRpcRequest) (err : error)
  : Codec (list byte) :=
  {| Decode := fun _ => answer;
     Unmarshal := fun _ => inl err;
     MarshalBinary := fun tx => inr tx |}.

(** The handler's response body is as it was, or has one more chunk. *)
Definition same_body {E} (s s' : State E) : Prop := body (w s') = body (w s).

Definition one_more_chunk {E} (s s' : State E) : Prop :=
  body (w s') = body (w s) \/ exists c, body (w s') = body (w s) ++ [c].

(** The events of the loop on the primary output, and of the loop on the
    diagnostic output: the reads on that pipe, the pauses after an empty
    read, and the log entry before the panic. *)
Definition of_stdout_loop (e : Event) : bool :=
  match e with
  | EvReadOut _ | EvSleep | EvLog _ _ _ => true
  | _ => false
  end.

Definition of_stderr_loop (e : Event) : bool :=
  match e with
  | EvReadErr _ | EvSleep | EvLog _ _ _ => true
  | _ => false
  end.

(** The trace has grown by events that all satisfy [P]. *)
Definition gains {E} (P : Event -> bool) (s s' : State E) : Prop :=
  exists l, events s' = events s ++ l /\ forallb P l = true.

(** * Properties *)

Lemma encode_error_envelope : forall jr code msg,
  Encoded (encode_JsonRpcErrorResponse (NewJsonRpcErrorResponse jr code msg))
  = Encoded (JObject
      [ ("jsonrpc", JString (Jsonrpc jr));
        ("error", JObject [ ("code", JInt code); ("Message", JString msg) ]);
        ("id", Id jr) ]).
Proof. reflexivity. Qed.

Lemma encode_success_envelope : forall jr data,
  Encoded (encode_JsonRpcSuccessResponse (NewJsonRpcSuccessResponse jr data))
  = success_envelope jr data.
Proof. reflexivity. Qed.

(** ** The invalid-method envelope *)

(** C7 (the code departs from the claim): a parsed request whose method is
    not [suave_offchainCall] gets the error envelope with code -32600 and
    the echoed [jsonrpc] and [id], and the handler returns; but the message
    of the error object is written under the key [Message], the Go field
    name, because the struct tag of that field is malformed: the envelope
    is not the one with the key [message]. *)
Theorem handleAPI_invalid_method :
  forall E (HE : Engine E) Tx (HC : Codec Tx) fuel r jr (s : State E),
    parseJsonRpcRequest r = inr jr ->
    Method jr <> "suave_offchainCall" ->
    (exists s',
       handleAPI fuel r s = (Ret tt, s') /\
       body (w s') =
         body (w s)
         ++ [error_envelope jr "Message"
               "invalid method, expected suave_offchainCall"]) /\
    error_envelope jr "Message" "invalid method, expected suave_offchainCall"
    <> error_envelope jr "message"
         "invalid method, expected suave_offchainCall".
Proof.
  intros E HE Tx HC fuel r jr s Hp Hm. split.
  - unfold handleAPI, defer_emit. rewrite Hp.
    unfold serve.
    destruct (String.eqb (Method jr) "suave_offchainCall") eqn:Heq.
    + apply String.eqb_eq in Heq. contradiction.
    + simpl. eexists. split; [reflexivity|]. reflexivity.
  - unfold error_envelope. intro Habs. discriminate Habs.
Qed.

Lemma handleAPI_invalid_method_witness :
  (exists s',
     @handleAPI Echo _ _ (Stub_Codec (inr foo_request)) 0 live_http idle_echo
     = (Ret tt, s') /\
     body (w s') =
       body (w idle_echo)
       ++ [error_envelope foo_request "Message"
             "invalid method, expected suave_offchainCall"]) /\
  error_envelope foo_request "Message"
    "invalid method, expected suave_offchainCall"
  <> error_envelope foo_request "message"
       "invalid method, expected suave_offchainCall".
Proof.
  apply (@handleAPI_invalid_method Echo _ _ (Stub_Codec (inr foo_request))).
  - reflexivity.
  - discriminate.
Defined.

(** ** The pipes of the started command *)

(** C6 (the code departs from the claim): on the service [NewRevmService]
    builds, the command is already started when [ExecuteTx] asks it for its
    pipes, so the first request, [StdinPipe], is refused: every call
    returns that error, and nothing is written to or read from the
    engine.  The two other pipes would be refused as well, their streams
    being set to buffers before the start. *)
Theorem ExecuteTx_after_start_fails :
  forall E (HE : Engine E) Tx (HC : Codec Tx) launch svc fuel ctx (tx : Tx)
         (s : State E),
    NewRevmService launch = inr svc ->
    sgxRevmCmd s = svc_cmd svc ->
    ExecuteTx fuel ctx tx s
    = (Ret (inl "exec: StdinPipe after process started"), s) /\
    fst (exec.StdoutPipe (svc_cmd svc)) = inl "exec: Stdout already set" /\
    fst (exec.StderrPipe (svc_cmd svc)) = inl "exec: Stderr already set".
Proof.
  intros E HE Tx HC launch svc fuel ctx tx s Hnew Hcmd.
  unfold NewRevmService in Hnew.
  destruct launch as [e|]; simpl in Hnew; [discriminate|].
  injection Hnew as <-. simpl in Hcmd.
  split; [|split; reflexivity].
  unfold ExecuteTx, bind, cmd_call. rewrite Hcmd. simpl.
  destruct s; simpl in *. subst. reflexivity.
Qed.

Lemma ExecuteTx_after_start_fails_witness :
  @ExecuteTx Echo _ _ (Stub_Codec (inr call_request)) 1 Live [x61; x62]
             (start_state started_service (mkEcho [] []) true)
  = (Ret (inl "exec: StdinPipe after process started"),
     start_state started_service (mkEcho [] []) true) /\
  fst (exec.StdoutPipe (svc_cmd started_service))
  = inl "exec: Stdout already set" /\
  fst (exec.StderrPipe (svc_cmd started_service))
  = inl "exec: Stderr already set".
Proof.
  apply (@ExecuteTx_after_start_fails Echo _ _
           (Stub_Codec (inr call_request)) None started_service).
  - reflexivity.
  - reflexivity.
Defined.

(** ** A deadline that passes while the slot is taken *)

(** C2 (the code departs from the claim): when the slot is taken and the
    request's context is done, [ExecuteLocked] returns the context's error
    without running the callback, so nothing is written to or read from the
    engine and the slot is left as it was; but [handleAPI] drops that
    error and waits on [errCh], on which nothing was sent: the handler
    stays blocked and writes no envelope. *)
Theorem handleAPI_timeout_blocks :
  forall E (HE : Engine E) Tx (HC : Codec Tx) fuel r jr (tx : Tx) err
         (s : State E),
    parseJsonRpcRequest r = inr jr ->
    Method jr = "suave_offchainCall" ->
    Unmarshal (Params jr) = inr tx ->
    cmdLock s = [tt] ->
    Ctx r = Cancelled err ->
    exists s',
      handleAPI fuel r s = (Blocked, s') /\
      body (w s') = body (w s) /\
      events s' = events s ++ [EvMetric "revm_lock_timeout"] /\
      engine s' = engine s /\
      cmdLock s' = [tt].
Proof.
  intros E HE Tx HC fuel r jr tx err s Hp Hm Hu Hl Hc.
  unfold handleAPI, defer_emit. rewrite Hp.
  unfold serve. rewrite Hm, Hu, Hc. simpl.
  unfold bind, Header_Set, ExecuteLocked. simpl. rewrite Hl. simpl.
  eexists. split; [reflexivity|]. simpl. auto.
Qed.

Lemma handleAPI_timeout_blocks_witness :
  exists s',
    @handleAPI Echo _ _ (Stub_Codec (inr call_request)) 1 expired_http
               busy_echo = (Blocked, s') /\
    body (w s') = body (w busy_echo) /\
    events s' = events busy_echo ++ [EvMetric "revm_lock_timeout"] /\
    engine s' = engine busy_echo /\
    cmdLock s' = [tt].
Proof.
  apply (@handleAPI_timeout_blocks Echo _ _ (Stub_Codec (inr call_request))
           1 expired_http call_request [x61; x62]
           "context deadline exceeded" busy_echo);
    reflexivity.
Defined.

(** ** What a computation leaves alone *)

Section Preserves.

Context {E : Type}.
Variable R : State E -> State E -> Prop.
Hypothesis R_refl : forall s, R s s.
Hypothesis R_trans : forall s1 s2 s3, R s1 s2 -> R s2 s3 -> R s1 s3.

Lemma preserves_ret : forall A (a : A), preserves R (ret a).
Proof. intros A a s o s' Heq. inversion Heq. apply R_refl. Qed.

Lemma preserves_panic : forall A v, preserves R (@panic E A v).
Proof. intros A v s o s' Heq. inversion Heq. apply R_refl. Qed.

Lemma preserves_out_of_fuel : forall A, preserves R (@out_of_fuel E A).
Proof. intros A s o s' Heq. inversion Heq. apply R_refl. Qed.

Lemma preserves_bind : forall A B (m : M A) (k : A -> M B),
  preserves R m -> (forall a, preserves R (k a)) -> preserves R (bind m k).
Proof.
  intros A B m k Hm Hk s o s' Heq. unfold bind in Heq.
  destruct (m s) as [[a| v | |] s1] eqn:Hms;
    try (inversion Heq; subst; eapply Hm; eassumption).
  eapply R_trans; [eapply Hm | eapply Hk]; eassumption.
Qed.

End Preserves.

Lemma untouched_refl : forall E (s : State E), untouched s s.
Proof. unfold untouched. auto. Qed.

Lemma untouched_trans : forall E (s1 s2 s3 : State E),
  untouched s1 s2 -> untouched s2 s3 -> untouched s1 s3.
Proof.
  unfold untouched. intros E s1 s2 s3 (A1 & A2 & A3 & A4 & A5)
                           (B1 & B2 & B3 & B4 & B5).
  repeat split; congruence.
Qed.

Create HintDb frame.
#[local] Hint Resolve untouched_refl untouched_trans : frame.

Section Frames.

Context {E : Type} `{Engine E} {Tx : Type} `{Codec Tx}.

Lemma emit_untouched : forall e, preserves (E:=E) untouched (emit e).
Proof. intros e s o s' Heq. inversion Heq. unfold untouched. auto. Qed.

Lemma cmd_call_untouched : forall A (f : exec.Cmd -> A * exec.Cmd),
  preserves (E:=E) untouched (cmd_call f).
Proof.
  intros A f s o s' Heq. unfold cmd_call in Heq.
  destruct (f (sgxRevmCmd s)). inversion Heq. unfold untouched. auto.
Qed.

Lemma pipe_Write_untouched : forall bs,
  preserves (E:=E) untouched (pipe_Write bs).
Proof.
  intros bs s o s' Heq. unfold pipe_Write in Heq.
  destruct (stdin_Write (engine s) bs) as [[err e']|];
    inversion Heq; unfold untouched; auto.
Qed.

Lemma pipe_Read_untouched : forall read ev,
  preserves (E:=E) untouched (pipe_Read read ev).
Proof.
  intros read ev s o s' Heq. unfold pipe_Read in Heq.
  destruct (read (engine s) bufSize) as [[r e']|];
    inversion Heq; unfold untouched; auto.
Qed.

Ltac frame_bind x :=
  apply preserves_bind; [exact (@untouched_trans E) | | intros x ].

Ltac frame :=
  first
    [ apply preserves_ret; auto with frame
    | apply preserves_panic; auto with frame
    | apply preserves_out_of_fuel; auto with frame
    | apply emit_untouched
    | apply cmd_call_untouched
    | apply pipe_Write_untouched
    | apply pipe_Read_untouched ].

Lemma readLoop_untouched : forall read ev fuel acc,
  preserves (E:=E) untouched (readLoop read ev fuel acc).
Proof.
  intros read ev fuel. induction fuel as [|fuel IH]; intros acc; simpl.
  - frame.
  - frame_bind r; [frame|].
    destruct (rerr r); [frame_bind x; frame|].
    frame_bind x.
    + destruct (_ =? _)%Z; frame.
    + destruct (slice_to _ _); [|frame].
      destruct (index _ _); [|frame].
      destruct (Byte.eqb _ _); [frame | apply IH].
Qed.

Lemma ExecuteTx_untouched : forall fuel ctx (tx : Tx),
  preserves (E:=E) untouched (ExecuteTx fuel ctx tx).
Proof.
  intros fuel ctx tx. unfold ExecuteTx.
  frame_bind p1; [frame|]. destruct p1; [frame|].
  frame_bind p2; [frame|]. destruct p2; [frame|].
  frame_bind p3; [frame|]. destruct p3; [frame|].
  destruct (MarshalBinary tx); [frame|].
  frame_bind err; [frame|]. destruct err; [frame|].
  frame_bind outData; [apply readLoop_untouched|].
  frame_bind outErr; [apply readLoop_untouched|].
  frame.
Qed.

End Frames.

(** ** The admission slot *)

Lemma unlocks_app : forall a b,
  unlocks (a ++ b) = (unlocks a + unlocks b)%nat.
Proof.
  intros. unfold unlocks. rewrite filter_app, length_app. reflexivity.
Qed.

Section Slot.

Context {E : Type}.

Lemma ExecuteLocked_takes_slot :
  forall ctx (cb : M (E:=E) unit) s,
    cmdLock s = [] ->
    ctx = Live \/ pick s = true ->
    ExecuteLocked ctx cb s = locked_case cb s.
Proof.
  intros ctx cb s Hl Hc. unfold ExecuteLocked. rewrite Hl. simpl.
  destruct ctx as [|err]; [reflexivity|].
  destruct Hc as [Hc|Hc]; [discriminate|]. rewrite Hc. reflexivity.
Qed.

Lemma locked_case_run :
  forall (cb : M (E:=E) unit) s o s2,
    cmdLock s = [] ->
    cb (acquired_state s) = (o, s2) ->
    locked_case cb s =
    match o with
    | Ret _ => (lock_recv ;; ret None)%go s2
    | Panic v => (Panic v, s2)
    | Blocked => (Blocked, s2)
    | OutOfFuel => (OutOfFuel, s2)
    end.
Proof.
  intros cb s o s2 Hl Hcb.
  unfold locked_case, bind at 1, lock_send. rewrite Hl. simpl.
  unfold bind at 1. simpl. unfold bind at 1.
  unfold acquired_state in Hcb. rewrite Hl in Hcb. simpl in Hcb.
  rewrite Hcb. destruct o; reflexivity.
Qed.

End Slot.

(** C1 (as the code has it): when [ExecuteLocked] takes the slot, whether
    the context is live or already done, and the callback returns leaving
    the channel as it found it, the slot is freed once, after the callback,
    and [ExecuteLocked] returns nil; when the callback panics, the panic
    leaves [ExecuteLocked] in the callback's final state: nothing frees the
    slot. *)
Theorem ExecuteLocked_release :
  forall E ctx (cb : M (E:=E) unit) s o s2,
    cmdLock s = [] ->
    ctx = Live \/ pick s = true ->
    cb (acquired_state s) = (o, s2) ->
    cmdLock s2 = [tt] ->
    (o = Ret tt ->
     exists s',
       ExecuteLocked ctx cb s = (Ret None, s') /\
       cmdLock s' = [] /\
       events s' = events s2 ++ [EvUnlock] /\
       unlocks (events s') = S (unlocks (events s2))) /\
    (forall v, o = Panic v ->
       ExecuteLocked ctx cb s = (Panic v, s2) /\
       cmdLock s2 = [tt]).
Proof.
  intros E ctx cb s o s2 Hl Hc Hcb Hkeep.
  rewrite ExecuteLocked_takes_slot by assumption.
  rewrite (locked_case_run cb s _ _ Hl Hcb).
  split.
  - intros ->. unfold bind, lock_recv. rewrite Hkeep. simpl.
    eexists. split; [reflexivity|]. simpl.
    split; [reflexivity|]. split; [reflexivity|].
    rewrite unlocks_app. change (unlocks [EvUnlock]) with 1%nat. lia.
  - intros v ->. split; [reflexivity | assumption].
Qed.

Lemma ExecuteLocked_release_witness :
  let cb := @callback Echo _ _ (Stub_Codec (inr call_request)) 1 Live [x61] in
  let s2 := snd (cb (acquired_state idle_echo)) in
  (Ret tt = Ret tt ->
   exists s',
     ExecuteLocked (Cancelled "context canceled") cb idle_echo
     = (Ret None, s') /\
     cmdLock s' = [] /\
     events s' = events s2 ++ [EvUnlock] /\
     unlocks (events s') = S (unlocks (events s2))) /\
  (forall v, Ret tt = Panic v ->
     ExecuteLocked (Cancelled "context canceled") cb idle_echo
     = (Panic v, s2) /\
     cmdLock s2 = [tt]).
Proof.
  intros cb s2.
  apply (@ExecuteLocked_release Echo (Cancelled "context canceled") cb
           idle_echo (Ret tt) s2).
  - reflexivity.
  - right. reflexivity.
  - vm_compute. reflexivity.
  - vm_compute. reflexivity.
Defined.

(** C1, as stated, fails: here the slot is taken, the callback panics on
    the failed read, and [ExecuteLocked] is left with the slot still taken
    and never freed. *)
Lemma ExecuteLocked_fault_keeps_slot :
  exists s',
    ExecuteLocked Live
      (@callback Scripted _ _ (Stub_Codec (inr call_request)) 1 Live [x61])
      broken_stdout
    = (Panic (PanicErr "EOF"), s') /\
    locks (events s') = 1%nat /\
    unlocks (events s') = 0%nat /\
    cmdLock s' = [tt].
Proof.
  eexists. split; [vm_compute; reflexivity|]. simpl.
  split; [reflexivity|]. split; reflexivity.
Qed.

(** ** A successful call *)

Section Success.

Context {E : Type} `{Engine E} {Tx : Type} `{Codec Tx}.

(** The handler up to the point where [ExecuteLocked] has returned. *)
Lemma serve_valid_call :
  forall fuel r jr (tx : Tx) (s : State E),
    Method jr = "suave_offchainCall" ->
    Unmarshal (Params jr) = inr tx ->
    serve fuel r jr s =
    (_ <- ExecuteLocked (Ctx r) (callback fuel (Ctx r) tx) ;;
     err <- errCh_recv ;;
     match err with
     | Some err =>
         emit (EvLog LevelError "could not execute offchain call"
                     (Some err)) ;;
         Write (Encoded (encode_JsonRpcErrorResponse
           (NewJsonRpcErrorResponse jr (-32600)
              ("could not execute: " ++ err)%string)))
     | None =>
         stdout <- outCh_recv ;;
         Write (Encoded (encode_JsonRpcSuccessResponse
           (NewJsonRpcSuccessResponse jr stdout))) ;;
         errData <- errCh_recv ;;
         match errData with
         | Some e =>
             emit (EvLog LevelInfo "encountered execution error" (Some e))
         | None => ret tt
         end
     end)%go
      (set_errCh []
         (set_outCh []
            (snd (Header_Set "Content-Type" "application/json" s)))).
Proof.
  intros fuel r jr tx s Hm Hu. unfold serve. rewrite Hm, Hu. reflexivity.
Qed.

(** The callback once [ExecuteTx] has returned its two frames. *)
Lemma callback_success :
  forall fuel ctx (tx : Tx) (s s2 : State E) stdout stderr,
    outCh s = [] -> errCh s = [] ->
    ExecuteTx fuel ctx tx s = (Ret (inr (stdout, stderr)), s2) ->
    callback fuel ctx tx s
    = (Ret tt, set_errCh [None] (set_outCh [stdout; stderr] s2)).
Proof.
  intros fuel ctx tx s s2 stdout stderr Ho He Hx.
  destruct (ExecuteTx_untouched fuel ctx tx _ _ _ Hx) as (_ & _ & Ho2 & He2 & _).
  rewrite Ho in Ho2. rewrite He in He2.
  unfold callback, bind. rewrite Hx.
  unfold outCh_send, errCh_send. rewrite Ho2. simpl.
  rewrite He2. simpl. reflexivity.
Qed.

End Success.

(** C8 (the code departs from the claim): when a valid call takes the slot
    and [ExecuteTx] returns the two frames, the handler writes the success
    envelope whose result is the primary output, and the diagnostic output
    is in no chunk of the response; but the handler then receives from
    [errCh] a second time, where the diagnostic output waits in [outCh]:
    it stays blocked, having logged nothing. *)
Theorem handleAPI_success_blocks :
  forall E (HE : Engine E) Tx (HC : Codec Tx) fuel r jr (tx : Tx)
         stdout stderr (s s2 : State E),
    parseJsonRpcRequest r = inr jr ->
    Method jr = "suave_offchainCall" ->
    Unmarshal (Params jr) = inr tx ->
    cmdLock s = [] ->
    Ctx r = Live \/ pick s = true ->
    ExecuteTx fuel (Ctx r) tx (callback_entry s)
    = (Ret (inr (stdout, stderr)), s2) ->
    exists s',
      handleAPI fuel r s = (Blocked, s') /\
      body (w s') = body (w s) ++ [success_envelope jr stdout] /\
      outCh s' = [stderr] /\
      errCh s' = [] /\
      events s' = events s2 ++ [EvUnlock].
Proof.
  intros E HE Tx HC fuel r jr tx stdout stderr s s2 Hp Hm Hu Hl Hc Hx.
  unfold handleAPI, defer_emit. rewrite Hp.
  rewrite (serve_valid_call fuel r jr tx s Hm Hu).
  destruct (ExecuteTx_untouched fuel (Ctx r) tx _ _ _ Hx)
    as (Hw & Hlock & _ & _ & _).
  unfold bind at 1.
  rewrite ExecuteLocked_takes_slot by (simpl; assumption).
  erewrite locked_case_run;
    [ | simpl; assumption
      | apply callback_success; [reflexivity | reflexivity | exact Hx] ].
  unfold callback_entry, acquired_state in Hw, Hlock. simpl in Hw, Hlock.
  rewrite Hl in Hlock. simpl in Hlock.
  unfold bind, lock_recv. simpl. rewrite Hlock. simpl.
  eexists. split; [reflexivity|]. simpl. rewrite Hw. simpl.
  repeat split.
Qed.

Lemma handleAPI_success_blocks_witness :
  exists s',
    @handleAPI Echo _ _ (Stub_Codec (inr call_request)) 1 live_http idle_echo
    = (Blocked, s') /\
    body (w s') =
      body (w idle_echo) ++ [success_envelope call_request [x61; x62; x0a]] /\
    outCh s' = [[x0a]] /\
    errCh s' = [] /\
    events s' =
      events (snd (@ExecuteTx Echo _ _ (Stub_Codec (inr call_request)) 1 Live
                              [x61; x62] (callback_entry idle_echo)))
      ++ [EvUnlock].
Proof.
  apply (@handleAPI_success_blocks Echo _ _ (Stub_Codec (inr call_request))
           1 live_http call_request [x61; x62] [x61; x62; x0a] [x0a]
           idle_echo).
  - reflexivity.
  - reflexivity.
  - reflexivity.
  - reflexivity.
  - left. reflexivity.
  - vm_compute. reflexivity.
Defined.

(** ** The frame loop *)

Section Buffer.

(** The array [buf] after a read stored [c] at its front. *)
Lemma buf_front : forall (c : list byte) n,
  (List.length c <= n)%nat ->
  exists rest, firstn n (c ++ repeat x00 n) = c ++ rest.
Proof.
  intros c n Hle.
  rewrite firstn_app, firstn_all2 by assumption.
  eexists. reflexivity.
Qed.

Lemma slice_to_front : forall (c rest : list byte),
  slice_to (c ++ rest) (Z.of_nat (List.length c)) = Some c.
Proof.
  intros c rest. unfold slice_to. rewrite length_app.
  rewrite Nat2Z.id.
  replace ((0 <=? Z.of_nat (List.length c))%Z
           && (Z.of_nat (List.length c)
               <=? Z.of_nat (List.length c + List.length rest))%Z)
    with true.
  - rewrite firstn_app, Nat.sub_diag, firstn_all. simpl.
    rewrite app_nil_r. reflexivity.
  - symmetry. apply andb_true_intro. split.
    + apply Z.leb_le. lia.
    + apply Z.leb_le. lia.
Qed.

Lemma index_front_last : forall (c rest : list byte),
  c <> [] ->
  index (c ++ rest) (Z.of_nat (List.length c) - 1) = Some (last c x00).
Proof.
  intros c rest Hne. unfold index. rewrite length_app.
  assert (Hpos : (0 < List.length c)%nat).
  { destruct c; [contradiction | simpl; lia]. }
  replace ((0 <=? Z.of_nat (List.length c) - 1)%Z
           && (Z.of_nat (List.length c) - 1
               <? Z.of_nat (List.length c + List.length rest))%Z)
    with true.
  - replace (Z.to_nat (Z.of_nat (List.length c) - 1))
      with (List.length c - 1)%nat by lia.
    rewrite nth_error_app1 by lia.
    destruct (exists_last Hne) as (c' & b & ->).
    rewrite last_last, length_app. simpl.
    rewrite nth_error_app2 by lia.
    replace (List.length c' + 1 - 1 - List.length c')%nat with 0%nat by lia.
    reflexivity.
  - symmetry. apply andb_true_intro. split.
    + apply Z.leb_le. lia.
    + apply Z.ltb_lt. lia.
Qed.

End Buffer.

(** What [Read] returns, by what the descriptor answered. *)
Lemma File_Read_chunk : forall c err,
  c <> [] -> os.File_Read (mkRead c err) = mkRead c err.
Proof. intros [|b c] err Hne; [contradiction | reflexivity]. Qed.

Lemma File_Read_error : forall c err,
  os.File_Read (mkRead c (Some err)) = mkRead c (Some err).
Proof. intros [|b c] err; reflexivity. Qed.

(** [Read] never returns no byte and no error. *)
Lemma File_Read_never_idle : forall r,
  rdata (os.File_Read r) = [] -> rerr (os.File_Read r) <> None.
Proof. intros [[|b c] [err|]]; simpl; intros Hd; discriminate. Qed.

Section Loop.

Context {E : Type}.
Variable read : E -> nat -> option (ReadResult * E).
Variable ev : option ReadResult -> Event.

Lemma readLoop_S : forall fuel acc,
  readLoop read ev (S fuel) acc =
  (r <- pipe_Read read ev ;;
   match rerr r with
   | Some err =>
       emit (EvLog LevelError
                   "revm service stdout corrupted, cannot recover"
                   (Some err)) ;;
       panic (PanicErr err)
   | None =>
       let buf := firstn bufSize (rdata r ++ repeat x00 bufSize) in
       let nRead := Z.of_nat (List.length (rdata r)) in
       (if (nRead =? 0)%Z then emit EvSleep else ret tt) ;;
       match slice_to buf nRead with
       | None => panic (PanicRuntime "slice bounds out of range")
       | Some chunk =>
           let acc := acc ++ chunk in
           match index buf (nRead - 1) with
           | None => panic (PanicRuntime "index out of range")
           | Some b =>
               if Byte.eqb b nl then ret acc
               else readLoop read ev fuel acc
           end
       end
   end)%go.
Proof. reflexivity. Qed.

(** One turn of the loop on a read that stored a non-empty chunk: the
    chunk is appended whole, and the loop ends exactly when the chunk's
    last byte is the delimiter. *)
Lemma readLoop_chunk : forall fuel acc (s : State E) c e',
  read (engine s) bufSize = Some (mkRead c None, e') ->
  c <> [] ->
  (List.length c <= bufSize)%nat ->
  readLoop read ev (S fuel) acc s =
  if Byte.eqb (last c x00) nl
  then (Ret (acc ++ c), after_read ev (mkRead c None) e' s)
  else readLoop read ev fuel (acc ++ c) (after_read ev (mkRead c None) e' s).
Proof.
  intros fuel acc s c e' Hread Hne Hle.
  rewrite readLoop_S. unfold bind at 1, pipe_Read. rewrite Hread.
  rewrite (File_Read_chunk c None Hne).
  cbv beta iota zeta. cbn [rerr rdata].
  replace (Z.of_nat (List.length c) =? 0)%Z with false.
  2:{ symmetry. apply Z.eqb_neq. destruct c; [contradiction|simpl; lia]. }
  unfold bind at 1, ret at 1.
  destruct (buf_front c bufSize Hle) as [rest ->].
  rewrite slice_to_front, index_front_last by assumption.
  destruct (Byte.eqb (last c x00) nl); reflexivity.
Qed.

(** One turn of the loop on a read that stored nothing and met no error
    on the descriptor: [Read] reports the end of the stream. *)
Lemma readLoop_empty : forall fuel acc (s : State E) e',
  read (engine s) bufSize = Some (mkRead [] None, e') ->
  readLoop read ev (S fuel) acc s =
  (Panic (PanicErr os.EOF),
   snd (emit (EvLog LevelError
                    "revm service stdout corrupted, cannot recover"
                    (Some os.EOF))
             (after_read ev (mkRead [] (Some os.EOF)) e' s))).
Proof.
  intros fuel acc s e' Hread.
  rewrite readLoop_S. unfold bind at 1, pipe_Read. rewrite Hread.
  reflexivity.
Qed.

(** One turn of the loop on a read that reported an error. *)
Lemma readLoop_error : forall fuel acc (s : State E) c err e',
  read (engine s) bufSize = Some (mkRead c (Some err), e') ->
  readLoop read ev (S fuel) acc s =
  (Panic (PanicErr err),
   snd (emit (EvLog LevelError
                    "revm service stdout corrupted, cannot recover"
                    (Some err))
             (after_read ev (mkRead c (Some err)) e' s))).
Proof.
  intros fuel acc s c err e' Hread.
  rewrite readLoop_S. unfold bind at 1, pipe_Read. rewrite Hread.
  rewrite File_Read_error. reflexivity.
Qed.

End Loop.

(** ** A frame over the loopback *)

Section Pipes.

Context {E : Type} `{Engine E} {Tx : Type} `{Codec Tx}.

Lemma ExecuteTx_with_pipes : forall fuel ctx (tx : Tx) (s : State E),
  hands_out_pipes (sgxRevmCmd s) ->
  ExecuteTx fuel ctx tx s
  = exchange fuel tx (set_cmd (with_pipes (sgxRevmCmd s)) s).
Proof.
  intros fuel ctx tx s (H1 & H2 & H3 & H4 & P0 & P1 & P2).
  destruct s as [c l e p oc ec x evs]. simpl in *.
  destruct c as [path args i o r pr ps]. simpl in *. subst.
  assert (Hp : hd None ps = None /\ hd None (tl ps) = None
               /\ hd None (tl (tl ps)) = None).
  { destruct ps as [|a0 [|a1 [|a2 ps]]]; simpl in *; auto. }
  destruct Hp as (Q0 & Q1 & Q2).
  unfold ExecuteTx, exchange, bind at 1, cmd_call at 1, exec.StdinPipe,
    exec.Pipe.
  simpl. rewrite Q0. simpl.
  unfold bind at 1, cmd_call at 1, exec.StdoutPipe, exec.Pipe. simpl.
  rewrite Q1. simpl.
  unfold bind at 1, cmd_call at 1, exec.StderrPipe, exec.Pipe. simpl.
  rewrite Q2. reflexivity.
Qed.

End Pipes.

Lemma take_pending : forall p cap,
  p <> [] -> take p cap = Some (mkRead (firstn cap p) None, skipn cap p).
Proof. intros [|b p] cap Hne; [contradiction | reflexivity]. Qed.

Lemma bufSize_pos : (0 < bufSize)%nat.
Proof. unfold bufSize. lia. Qed.

Lemma firstn_nonempty : forall (p : list byte) n,
  p <> [] -> (0 < n)%nat -> firstn n p <> [].
Proof. intros [|b p] [|n] Hne Hn; [contradiction | contradiction | lia |].
       simpl. discriminate. Qed.

Lemma last_in : forall (l : list byte) d, l <> [] -> In (last l d) l.
Proof.
  intros l d Hne. destruct (exists_last Hne) as (l' & b & ->).
  rewrite last_last. apply in_or_app. right. left. reflexivity.
Qed.

Lemma in_firstn : forall (l : list byte) n x, In x (firstn n l) -> In x l.
Proof.
  intros l n x Hin. rewrite <- (firstn_skipn n l).
  apply in_or_app. left. assumption.
Qed.

Lemma in_skipn : forall (l : list byte) n x, In x (skipn n l) -> In x l.
Proof.
  intros l n x Hin. rewrite <- (firstn_skipn n l).
  apply in_or_app. right. assumption.
Qed.

Lemma byte_eqb_refl : forall b, Byte.eqb b b = true.
Proof. intros b. apply Byte.byte_dec_lb. reflexivity. Qed.

Lemma byte_eqb_neq : forall a b, a <> b -> Byte.eqb a b = false.
Proof.
  intros a b Hne. destruct (Byte.eqb a b) eqn:Heq; [|reflexivity].
  apply Byte.byte_dec_bl in Heq. contradiction.
Qed.

(** The loop on the primary pipe of the echo engine, with the frame
    [d ++ [nl]] pending: the frame comes back whole, delimiter included. *)
Lemma echo_stdout_loop : forall fuel d acc (s : State Echo) pe,
  ~ In nl d ->
  (List.length d < fuel * bufSize)%nat ->
  engine s = mkEcho (d ++ [nl]) pe ->
  exists s',
    readLoop stdout_Read EvReadOut fuel acc s = (Ret (acc ++ d ++ [nl]), s') /\
    engine s' = mkEcho [] pe /\
    sgxRevmCmd s' = sgxRevmCmd s.
Proof.
  induction fuel as [|fuel IH]; intros d acc s pe Hnl Hlen Heng; [lia|].
  pose proof bufSize_pos as Hpos.
  assert (Hne : d ++ [nl] <> []) by (intro Habs; destruct d; discriminate).
  assert (Hread : stdout_Read (engine s) bufSize
                  = Some (mkRead (firstn bufSize (d ++ [nl])) None,
                          mkEcho (skipn bufSize (d ++ [nl])) pe)).
  { rewrite Heng. simpl. rewrite take_pending by assumption. reflexivity. }
  rewrite (readLoop_chunk stdout_Read EvReadOut fuel acc s _ _ Hread)
    by (auto using firstn_nonempty, firstn_le_length).
  destruct (Nat.lt_ge_cases (List.length d) bufSize) as [Hshort|Hlong].
  - rewrite firstn_all2 by (rewrite length_app; simpl; lia).
    rewrite skipn_all2 by (rewrite length_app; simpl; lia).
    rewrite last_last, byte_eqb_refl.
    eexists. split; [reflexivity|]. split; reflexivity.
  - assert (Hf : firstn bufSize (d ++ [nl]) = firstn bufSize d).
    { rewrite firstn_app.
      replace (bufSize - List.length d)%nat with 0%nat by lia.
      simpl. apply app_nil_r. }
    assert (Hs : skipn bufSize (d ++ [nl]) = skipn bufSize d ++ [nl]).
    { rewrite skipn_app.
      replace (bufSize - List.length d)%nat with 0%nat by lia.
      reflexivity. }
    rewrite Hf, Hs.
    assert (Hd : firstn bufSize d <> []).
    { apply firstn_nonempty; [|assumption].
      intro Habs. subst d. simpl in Hlong. lia. }
    rewrite byte_eqb_neq.
    2:{ intro Habs. apply Hnl. rewrite <- Habs.
        eapply in_firstn. apply last_in. assumption. }
    destruct (IH (skipn bufSize d) (acc ++ firstn bufSize d)
                 (after_read EvReadOut (mkRead (firstn bufSize d) None)
                             (mkEcho (skipn bufSize d ++ [nl]) pe) s) pe)
      as (s' & Hrun & He & Hc).
    + intro Habs. apply Hnl. eapply in_skipn. eassumption.
    + rewrite length_skipn. unfold bufSize in *. lia.
    + reflexivity.
    + exists s'. split; [|split; [assumption|]].
      * rewrite Hrun. rewrite <- app_assoc.
        rewrite (app_assoc (firstn bufSize d)), firstn_skipn. reflexivity.
      * rewrite Hc. reflexivity.
Qed.

(** The loop on the diagnostic pipe of the echo engine, with one empty
    frame pending. *)
Lemma echo_stderr_loop : forall fuel (s : State Echo) po,
  engine s = mkEcho po [nl] ->
  exists s',
    readLoop stderr_Read EvReadErr (S fuel) [] s = (Ret [nl], s') /\
    engine s' = mkEcho po [].
Proof.
  intros fuel s po Heng.
  assert (Hread : stderr_Read (engine s) bufSize
                  = Some (mkRead [nl] None, mkEcho po [])).
  { rewrite Heng. reflexivity. }
  rewrite (readLoop_chunk stderr_Read EvReadErr fuel [] s _ _ Hread).
  - eexists. split; reflexivity.
  - discriminate.
  - unfold bufSize. simpl. lia.
Qed.

(** A frame written to the idle echo engine and read back, once the pipes
    are there. *)
Lemma echo_exchange : forall fuel (payload : list byte) jr (s : State Echo),
  engine s = mkEcho [] [] ->
  ~ In nl payload ->
  (List.length payload < fuel * bufSize)%nat ->
  exists s',
    @exchange Echo _ _ (Stub_Codec jr) fuel payload s
    = (Ret (inr (payload ++ [nl], [nl])), s') /\
    engine s' = mkEcho [] [].
Proof.
  intros fuel payload jr s Heng0 Hnl Hlen.
  unfold exchange.
  change (@MarshalBinary _ (Stub_Codec jr) payload)
    with (@inr error _ payload).
  cbv iota. unfold bind at 1, pipe_Write.
  change (stdin_Write (engine s) (payload ++ [nl]))
    with (Some (@None error,
                mkEcho (pending_out (engine s) ++ payload ++ [nl])
                       (pending_err (engine s) ++ [nl]))).
  rewrite Heng0. cbv iota. simpl pending_out. simpl pending_err.
  rewrite !app_nil_l.
  match goal with
  | |- exists s', bind _ _ ?s0 = _ /\ _ =>
      destruct (echo_stdout_loop fuel payload [] s0 [nl] Hnl Hlen eq_refl)
        as (s1 & Hrun & Heng & _)
  end.
  unfold bind at 1. rewrite Hrun.
  destruct fuel as [|fuel]; [lia|].
  destruct (echo_stderr_loop fuel s1 [] Heng) as (s2 & Hrun2 & Heng2).
  unfold bind at 1. rewrite Hrun2.
  exists s2. split; [reflexivity | exact Heng2].
Qed.

(** C3 (as the code has it): for a payload without the delimiter, the empty
    payload included, the frame written with one write (payload and one
    delimiter byte) and read back over the loopback is the payload followed
    by the delimiter: the loop keeps the delimiter it stops on, and nothing
    is left pending on the loopback.  The loop needs one turn per 1024
    bytes of the frame. *)
Theorem frame_roundtrip_keeps_delimiter :
  forall fuel (payload : list byte) jr (s : State Echo),
    hands_out_pipes (sgxRevmCmd s) ->
    engine s = mkEcho [] [] ->
    ~ In nl payload ->
    (List.length payload < fuel * bufSize)%nat ->
    exists s',
      @ExecuteTx Echo _ _ (Stub_Codec jr) fuel Live payload s
      = (Ret (inr (payload ++ [nl], [nl])), s') /\
      engine s' = mkEcho [] [].
Proof.
  intros fuel payload jr s Hpipes Heng Hnl Hlen.
  rewrite ExecuteTx_with_pipes by assumption.
  apply echo_exchange; [exact Heng | exact Hnl | exact Hlen].
Qed.

Lemma frame_roundtrip_keeps_delimiter_witness :
  exists s',
    @ExecuteTx Echo _ _ (Stub_Codec (inr call_request)) 1 Live [x61; x62]
               idle_echo
    = (Ret (inr ([x61; x62] ++ [nl], [nl])), s') /\
    engine s' = mkEcho [] [].
Proof.
  apply (frame_roundtrip_keeps_delimiter 1 [x61; x62] (inr call_request)
           idle_echo).
  - repeat split.
  - reflexivity.
  - intros [Habs|[Habs|[]]]; discriminate.
  - unfold bufSize. simpl. lia.
Defined.

(** C3, as stated, fails: the empty payload comes back as the one-byte
    frame holding the delimiter, whatever the number of turns allowed. *)
Lemma frame_roundtrip_not_stripped :
  fst (@ExecuteTx Echo _ _ (Stub_Codec (inr call_request)) 1 Live []
                  idle_echo)
  = Ret (inr ([nl], [nl])) /\
  ~ exists fuel diag,
      fst (@ExecuteTx Echo _ _ (Stub_Codec (inr call_request)) fuel Live []
                      idle_echo)
      = Ret (inr ([], diag)).
Proof.
  split; [vm_compute; reflexivity|].
  intros (fuel & diag & Hrun).
  destruct fuel as [|fuel].
  - vm_compute in Hrun. discriminate.
  - rewrite ExecuteTx_with_pipes in Hrun by (repeat split).
    destruct (echo_exchange (S fuel) [] (inr call_request)
                (set_cmd (with_pipes (sgxRevmCmd idle_echo)) idle_echo)
                eq_refl)
      as (s' & Hx & _).
    + intros [].
    + unfold bufSize. simpl. lia.
    + rewrite Hx in Hrun. discriminate.
Qed.

(** ** A frame delivered in pieces *)

Lemma split_before_delimiter : forall (c t d : list byte),
  t <> [] -> c ++ t = d ++ [nl] ->
  exists d', d = c ++ d' /\ t = d' ++ [nl].
Proof.
  intros c t d Hne Heq.
  destruct (exists_last Hne) as (t' & b & ->).
  rewrite app_assoc in Heq. apply app_inj_tail in Heq.
  destruct Heq as [<- ->]. exists t'. auto.
Qed.

(** The loop on a primary pipe that delivers the frame [d ++ [nl]] in any
    number of non-empty pieces, none larger than the buffer: the pieces
    are put together in order, none lost, none twice, and the loop ends on
    the piece that ends the frame. *)
Lemma readLoop_pieces : forall chunks d acc (s : State Scripted) rest,
  Forall (fun c => c <> [] /\ (List.length c <= bufSize)%nat) chunks ->
  ~ In nl d ->
  List.concat chunks = d ++ [nl] ->
  out_reads (engine s) = map (fun c => mkRead c None) chunks ++ rest ->
  exists s',
    readLoop stdout_Read EvReadOut (List.length chunks) acc s
    = (Ret (acc ++ d ++ [nl]), s') /\
    out_reads (engine s') = rest.
Proof.
  induction chunks as [|c cs IH]; intros d acc s rest Hall Hnl Hcat Hreads.
  - simpl in Hcat. destruct d; discriminate.
  - inversion Hall as [|? ? [Hne Hle] Hcs]; subst.
    assert (Hread : stdout_Read (engine s) bufSize
              = Some (mkRead c None,
                      mkScripted (write_answer (engine s))
                                 (map (fun c => mkRead c None) cs ++ rest)
                                 (err_reads (engine s))
                                 (written (engine s)))).
    { simpl. rewrite Hreads. reflexivity. }
    simpl List.length.
    rewrite (readLoop_chunk stdout_Read EvReadOut _ acc s c _ Hread Hne Hle).
    simpl in Hcat.
    destruct cs as [|c2 cs].
    + simpl in Hcat. rewrite app_nil_r in Hcat. subst c.
      rewrite last_last, byte_eqb_refl.
      eexists. split; [reflexivity|]. reflexivity.
    + assert (Htail : List.concat (c2 :: cs) <> []).
      { inversion Hcs as [|? ? [Hne2 _] _]; subst. simpl.
        destruct c2; [contradiction|discriminate]. }
      destruct (split_before_delimiter c _ d Htail Hcat) as (d' & -> & Hcat').
      rewrite byte_eqb_neq.
      2:{ intro Habs. apply Hnl. rewrite <- Habs.
          apply in_or_app. left. apply last_in. assumption. }
      destruct (IH d' (acc ++ c)
                   (after_read EvReadOut (mkRead c None)
                      (mkScripted (write_answer (engine s))
                         (map (fun c => mkRead c None) (c2 :: cs) ++ rest)
                         (err_reads (engine s)) (written (engine s))) s)
                   rest Hcs)
        as (s' & Hrun & Hrest).
      * intro Habs. apply Hnl. apply in_or_app. right. assumption.
      * exact Hcat'.
      * reflexivity.
      * exists s'. split; [|assumption].
        rewrite Hrun, <- !app_assoc. reflexivity.
Qed.

(** ** Faults on the engine's pipes *)

Lemma read_faults_app : forall a b,
  read_faults (a ++ b) = read_faults a ++ read_faults b.
Proof. intros. apply flat_map_app. Qed.

Lemma write_faults_app : forall a b,
  write_faults (a ++ b) = write_faults a ++ write_faults b.
Proof. intros. apply flat_map_app. Qed.

Section LoopFaults.

Context {E : Type}.
Variable read : E -> nat -> option (ReadResult * E).
Variable ev : option ReadResult -> Event.

Hypothesis ev_read_fault : forall x,
  read_fault (ev x) =
  match x with
  | Some r => match rerr r with Some err => [err] | None => [] end
  | None => []
  end.
Hypothesis ev_write_fault : forall x, write_fault (ev x) = [].

(** One turn of the loop on a read that claims more bytes than the buffer
    holds. *)
Lemma readLoop_overlong : forall fuel acc (s : State E) c e',
  read (engine s) bufSize = Some (mkRead c None, e') ->
  (bufSize < List.length c)%nat ->
  readLoop read ev (S fuel) acc s =
  (Panic (PanicRuntime "slice bounds out of range"),
   after_read ev (mkRead c None) e' s).
Proof.
  intros fuel acc s c e' Hread Hlong.
  rewrite readLoop_S. unfold bind at 1, pipe_Read. rewrite Hread.
  rewrite File_Read_chunk by (intros ->; simpl in Hlong; lia).
  cbv beta iota zeta. cbn [rerr rdata].
  replace (Z.of_nat (List.length c) =? 0)%Z with false
    by (symmetry; apply Z.eqb_neq; lia).
  unfold bind at 1, ret at 1.
  unfold slice_to.
  rewrite length_firstn, length_app, repeat_length.
  replace (Z.of_nat (List.length c)
           <=? Z.of_nat (Nat.min bufSize (List.length c + bufSize)))%Z
    with false by (symmetry; apply Z.leb_gt; lia).
  rewrite andb_false_r. reflexivity.
Qed.

(** What the loop adds to the trace: no write, and a failed read only as
    the cause of the loop's panic. *)
Lemma readLoop_faults : forall fuel acc (s : State E) o s',
  readLoop read ev fuel acc s = (o, s') ->
  exists new,
    events s' = events s ++ new /\
    write_faults new = [] /\
    (forall err, In err (read_faults new) -> o = Panic (PanicErr err)).
Proof.
  induction fuel as [|fuel IH]; intros acc s o s' Hrun.
  - inversion Hrun; subst. exists []. rewrite app_nil_r.
    repeat split. intros err [].
  - destruct (read (engine s) bufSize) as [[[c [err|]] e']|] eqn:Hread.
    + rewrite (readLoop_error read ev fuel acc s c err e' Hread) in Hrun.
      inversion Hrun; subst. eexists. split.
      * simpl. rewrite <- app_assoc. reflexivity.
      * simpl. rewrite ev_write_fault, ev_read_fault. simpl.
        split; [reflexivity|]. intros err' [<-|[]]. reflexivity.
    + destruct c as [|b c].
      * rewrite (readLoop_empty read ev fuel acc s e' Hread) in Hrun.
        inversion Hrun; subst. eexists. split.
        -- simpl. rewrite <- app_assoc. reflexivity.
        -- simpl. rewrite ev_write_fault, ev_read_fault. simpl.
           split; [reflexivity|]. intros err' [<-|[]]. reflexivity.
      * destruct (Nat.le_gt_cases (List.length (b :: c)) bufSize)
          as [Hle|Hgt].
        -- rewrite (readLoop_chunk read ev fuel acc s (b :: c) e' Hread)
             in Hrun by (assumption || discriminate).
           destruct (Byte.eqb (last (b :: c) x00) nl).
           ++ inversion Hrun; subst. eexists. split; [reflexivity|].
              simpl. rewrite ev_write_fault, ev_read_fault. simpl.
              split; [reflexivity|]. intros err' [].
           ++ destruct (IH _ _ _ _ Hrun) as (new & Hev & Hw & Hr).
              exists (ev (Some (mkRead (b :: c) None)) :: new). split.
              ** rewrite Hev. simpl. rewrite <- app_assoc. reflexivity.
              ** simpl. rewrite ev_write_fault, ev_read_fault. simpl.
                 split; assumption.
        -- rewrite (readLoop_overlong fuel acc s (b :: c) e' Hread Hgt)
             in Hrun.
           inversion Hrun; subst. eexists. split; [reflexivity|].
           simpl. rewrite ev_write_fault, ev_read_fault. simpl.
           split; [reflexivity|]. intros err' [].
    + rewrite readLoop_S in Hrun. unfold bind at 1, pipe_Read in Hrun.
      rewrite Hread in Hrun. inversion Hrun; subst.
      eexists. split; [reflexivity|].
      simpl. rewrite ev_write_fault, ev_read_fault. simpl.
      split; [reflexivity|]. intros err' [].
Qed.

End LoopFaults.

Section TxFaults.

Context {E : Type} `{Engine E} {Tx : Type} `{Codec Tx}.

Ltac no_io Hrun :=
  inversion Hrun; subst; exists []; rewrite app_nil_r;
  split; [reflexivity | split; intros ? []].

(** What [ExecuteTx] does with a fault on a pipe: a failed read is the
    cause of a panic, a failed write is the error it returns. *)
Lemma ExecuteTx_faults : forall fuel ctx (tx : Tx) (s : State E) o s',
  ExecuteTx fuel ctx tx s = (o, s') ->
  exists new,
    events s' = events s ++ new /\
    (forall err, In err (read_faults new) -> o = Panic (PanicErr err)) /\
    (forall err, In err (write_faults new) -> o = Ret (inl err)).
Proof.
  intros fuel ctx tx s o s' Hrun. unfold ExecuteTx in Hrun.
  unfold bind at 1, cmd_call at 1 in Hrun.
  destruct (exec.StdinPipe (sgxRevmCmd s)) as [[e1|[]] c1]; [no_io Hrun|].
  unfold bind at 1, cmd_call at 1 in Hrun.
  destruct (exec.StdoutPipe _) as [[e2|[]] c2]; [no_io Hrun|].
  unfold bind at 1, cmd_call at 1 in Hrun.
  destruct (exec.StderrPipe _) as [[e3|[]] c3]; [no_io Hrun|].
  destruct (MarshalBinary tx) as [e4|txBytes]; [no_io Hrun|].
  unfold bind at 1, pipe_Write in Hrun. simpl engine in Hrun.
  destruct (stdin_Write (engine s) (txBytes ++ [nl])) as [[[werr|] e']|].
  - (* the write failed *)
    inversion Hrun; subst. eexists. split; [reflexivity|]. simpl.
    split; [intros err []|]. intros err [<-|[]]. reflexivity.
  - (* the write went through *)
    unfold bind at 1 in Hrun.
    match type of Hrun with
    | context [readLoop stdout_Read EvReadOut fuel [] ?s0] =>
        destruct (readLoop stdout_Read EvReadOut fuel [] s0)
          as [o1 s1] eqn:Hloop1
    end.
    destruct (readLoop_faults stdout_Read EvReadOut
                (fun x => eq_refl) (fun x => eq_refl) _ _ _ _ _ Hloop1)
      as (new1 & Hev1 & Hw1 & Hr1).
    simpl in Hev1.
    destruct o1 as [outData|v| |];
      try (inversion Hrun; subst;
           eexists; split; [rewrite Hev1, <- app_assoc; reflexivity|];
           rewrite read_faults_app, write_faults_app, Hw1; simpl;
           split; [intros err Hin; specialize (Hr1 err Hin);
                   inversion Hr1; reflexivity
                  | intros err []]).
    unfold bind at 1 in Hrun.
    destruct (readLoop stderr_Read EvReadErr fuel [] s1)
      as [o2 s2] eqn:Hloop2.
    destruct (readLoop_faults stderr_Read EvReadErr
                (fun x => eq_refl) (fun x => eq_refl) _ _ _ _ _ Hloop2)
      as (new2 & Hev2 & Hw2 & Hr2).
    assert (Hno1 : read_faults new1 = []).
    { destruct (read_faults new1) as [|err l] eqn:Hf; [reflexivity|].
      discriminate (Hr1 err (or_introl eq_refl)). }
    exists ((EvWrite (txBytes ++ [nl]) (Some None) :: new1) ++ new2).
    split.
    { destruct o2; inversion Hrun; subst;
        rewrite Hev2, Hev1, <- !app_assoc; reflexivity. }
    rewrite read_faults_app, write_faults_app. simpl.
    rewrite Hno1, Hw1, Hw2. simpl. split; [|intros err []].
    intros err Hin. specialize (Hr2 err Hin). subst o2.
    inversion Hrun. reflexivity.
  - (* the write never returns *)
    inversion Hrun; subst. eexists. split; [reflexivity|]. simpl.
    split; intros err [].
Qed.

End TxFaults.

(** ** The handler around one run of [ExecuteTx] *)

Section Run.

Context {E : Type} `{Engine E} {Tx : Type} `{Codec Tx}.

Lemma callback_run :
  forall fuel ctx (tx : Tx) (s sx : State E) ox,
    outCh s = [] -> errCh s = [] ->
    ExecuteTx fuel ctx tx s = (ox, sx) ->
    callback fuel ctx tx s =
    match ox with
    | Ret (inl err) => (Ret tt, set_errCh [Some err] sx)
    | Ret (inr (stdout, stderr)) =>
        (Ret tt, set_errCh [None] (set_outCh [stdout; stderr] sx))
    | Panic v => (Panic v, sx)
    | Blocked => (Blocked, sx)
    | OutOfFuel => (OutOfFuel, sx)
    end.
Proof.
  intros fuel ctx tx s sx ox Ho He Hx.
  destruct (ExecuteTx_untouched fuel ctx tx _ _ _ Hx)
    as (_ & _ & Ho2 & He2 & _).
  rewrite Ho in Ho2. rewrite He in He2.
  unfold callback, bind. rewrite Hx.
  destruct ox as [[err|[stdout stderr]]|v| |]; try reflexivity.
  - unfold errCh_send. rewrite He2. reflexivity.
  - unfold outCh_send, errCh_send. rewrite Ho2. simpl.
    rewrite He2. simpl. reflexivity.
Qed.

Lemma handleAPI_run :
  forall fuel r jr (tx : Tx) (s sx : State E) ox,
    parseJsonRpcRequest r = inr jr ->
    Method jr = "suave_offchainCall" ->
    Unmarshal (Params jr) = inr tx ->
    cmdLock s = [] ->
    Ctx r = Live \/ pick s = true ->
    ExecuteTx fuel (Ctx r) tx (callback_entry s) = (ox, sx) ->
    exists s',
      handleAPI fuel r s = (handler_outcome ox, s') /\
      events s' = events sx ++ tail_events ox /\
      body (w s') = body (w s) ++ response_chunks jr ox.
Proof.
  intros fuel r jr tx s sx ox Hp Hm Hu Hl Hc Hx.
  unfold handleAPI, defer_emit. rewrite Hp.
  rewrite (serve_valid_call fuel r jr tx s Hm Hu).
  destruct (ExecuteTx_untouched fuel (Ctx r) tx _ _ _ Hx)
    as (Hw & Hlock & _ & _ & _).
  unfold bind at 1.
  rewrite ExecuteLocked_takes_slot by (simpl; assumption).
  pose proof (callback_run fuel (Ctx r) tx (callback_entry s) sx ox
                eq_refl eq_refl Hx) as Hcb.
  unfold callback_entry, acquired_state in Hw, Hlock. simpl in Hw, Hlock.
  rewrite Hl in Hlock. simpl in Hlock.
  destruct ox as [[err|[stdout stderr]]|v| |];
    erewrite locked_case_run by (first [exact Hcb | simpl; assumption]).
  - unfold bind, lock_recv. simpl. rewrite Hlock. simpl.
    eexists. split; [reflexivity|]. simpl. rewrite Hw. simpl.
    rewrite <- !app_assoc. split; reflexivity.
  - unfold bind, lock_recv. simpl. rewrite Hlock. simpl.
    eexists. split; [reflexivity|]. simpl. rewrite Hw. simpl.
    split; reflexivity.
  - eexists. split; [reflexivity|]. simpl. rewrite Hw, app_nil_r. simpl.
    split; reflexivity.
  - eexists. split; [reflexivity|]. simpl. rewrite Hw, !app_nil_r. simpl.
    split; reflexivity.
  - eexists. split; [reflexivity|]. simpl. rewrite Hw, !app_nil_r. simpl.
    split; reflexivity.
Qed.

(** A run of the handler in which the callback does not start. *)
Lemma handleAPI_idle :
  forall fuel r (s : State E) o s',
    handleAPI fuel r s = (o, s') ->
    (forall jr tx, parseJsonRpcRequest r = inr jr ->
                   Method jr = "suave_offchainCall" ->
                   Unmarshal (Params jr) = inr tx ->
                   cmdLock s = [] ->
                   Ctx r = Live \/ pick s = true -> False) ->
    exists new,
      events s' = events s ++ new /\
      read_faults new = [] /\ write_faults new = [].
Proof.
  intros fuel r s o s' Hrun Hidle.
  unfold handleAPI, defer_emit in Hrun.
  destruct (parseJsonRpcRequest r) as [perr|jr] eqn:Hp.
  { inversion Hrun; subst. eexists. split; [reflexivity|]. auto. }
  destruct (String.eqb (Method jr) "suave_offchainCall") eqn:Hm.
  2:{ unfold serve in Hrun. rewrite Hm in Hrun.
      inversion Hrun; subst. eexists. split; [reflexivity|]. auto. }
  apply String.eqb_eq in Hm.
  destruct (Unmarshal (Params jr)) as [uerr|tx] eqn:Hu.
  { unfold serve in Hrun. rewrite Hm, Hu in Hrun.
    inversion Hrun; subst. eexists. split; [reflexivity|]. auto. }
  specialize (Hidle jr tx eq_refl Hm Hu).
  rewrite (serve_valid_call fuel r jr tx s Hm Hu) in Hrun.
  unfold bind at 1, ExecuteLocked in Hrun. simpl in Hrun.
  destruct (cmdLock s) as [|u l] eqn:Hl.
  - destruct (Ctx r) as [|cerr] eqn:Hc; [exfalso; auto|].
    destruct (pick s) eqn:Hpick; [exfalso; auto|].
    inversion Hrun; subst. eexists. split; [reflexivity|]. auto.
  - replace (S (List.length l) <? 1)%nat with false in Hrun
      by (symmetry; apply Nat.ltb_ge; lia).
    destruct (Ctx r) as [|cerr] eqn:Hc.
    + inversion Hrun; subst. exists []. rewrite app_nil_r. auto.
    + inversion Hrun; subst. eexists. split; [reflexivity|]. auto.
Qed.

End Run.

Lemma tail_events_no_fault : forall ox,
  read_faults (tail_events ox) = [] /\ write_faults (tail_events ox) = [].
Proof. intros [[err|[a b]]|v| |]; split; reflexivity. Qed.

(** C5 (as the code has it): in every run of [handleAPI], a read on the
    primary or the diagnostic pipe that reports an error makes the handler
    panic with that error, and nothing is written to the response: the
    error is not returned as a value; a write to the input pipe that
    reports an error is returned by [ExecuteTx] as an ordinary error, and
    the handler returns after writing the error envelope that carries
    it. *)
Theorem stream_faults :
  forall E (HE : Engine E) Tx (HC : Codec Tx) fuel r (s : State E) o s',
    handleAPI fuel r s = (o, s') ->
    exists new,
      events s' = events s ++ new /\
      (forall err, In err (read_faults new) ->
         o = Panic (PanicErr err) /\ body (w s') = body (w s)) /\
      (forall err, In err (write_faults new) ->
         o = Ret tt /\
         exists jr,
           parseJsonRpcRequest r = inr jr /\
           body (w s') =
             body (w s)
             ++ [error_envelope jr "Message"
                   ("could not execute: " ++ err)%string]).
Proof.
  intros E HE Tx HC fuel r s o s' Hrun.
  assert (Hidle :
    (forall jr tx, parseJsonRpcRequest r = inr jr ->
                   Method jr = "suave_offchainCall" ->
                   Unmarshal (Params jr) = inr tx ->
                   cmdLock s = [] ->
                   Ctx r = Live \/ pick s = true -> False) ->
    exists new,
      events s' = events s ++ new /\
      (forall err, In err (read_faults new) ->
         o = Panic (PanicErr err) /\ body (w s') = body (w s)) /\
      (forall err, In err (write_faults new) ->
         o = Ret tt /\
         exists jr,
           parseJsonRpcRequest r = inr jr /\
           body (w s') =
             body (w s)
             ++ [error_envelope jr "Message"
                   ("could not execute: " ++ err)%string])).
  { intros Hno.
    destruct (handleAPI_idle fuel r s o s' Hrun Hno) as (new & Hev & Hr & Hw).
    exists new. rewrite Hr, Hw. split; [assumption|].
    split; intros err []. }
  destruct (parseJsonRpcRequest r) as [perr|jr] eqn:Hp;
    [apply Hidle; intros; discriminate|].
  destruct (String.eqb (Method jr) "suave_offchainCall") eqn:Hm.
  2:{ apply Hidle. intros jr' tx' Hjr Hm'. injection Hjr as <-.
      apply String.eqb_neq in Hm. contradiction. }
  apply String.eqb_eq in Hm.
  destruct (Unmarshal (Params jr)) as [uerr|tx] eqn:Hu.
  { apply Hidle. intros jr' tx' Hjr _ Hu'. injection Hjr as <-.
    rewrite Hu in Hu'. discriminate. }
  destruct (cmdLock s) as [|u l] eqn:Hl;
    [|apply Hidle; intros; discriminate].
  assert (Hc : {Ctx r = Live \/ pick s = true}
               + {~ (Ctx r = Live \/ pick s = true)}).
  { destruct (Ctx r); [left; left; reflexivity|].
    destruct (pick s); [left; right; reflexivity|].
    right. intros [Habs|Habs]; discriminate. }
  destruct Hc as [Hc|Hc]; [|apply Hidle; intros; contradiction].
  clear Hidle.
  destruct (ExecuteTx fuel (Ctx r) tx (callback_entry s)) as [ox sx] eqn:Hx.
  destruct (handleAPI_run fuel r jr tx s sx ox Hp Hm Hu Hl Hc Hx)
    as (s1 & Hrun1 & Hev & Hbody).
  rewrite Hrun in Hrun1. injection Hrun1 as -> <-.
  destruct (ExecuteTx_faults fuel (Ctx r) tx _ _ _ Hx)
    as (newx & Hevx & Hreads & Hwrites).
  destruct (tail_events_no_fault ox) as (Htr & Htw).
  exists ([EvLock; EvMetric "revm_lock_wait"] ++ newx ++ tail_events ox).
  split.
  { rewrite Hev, Hevx. unfold callback_entry, acquired_state. simpl.
    rewrite <- !app_assoc. reflexivity. }
  rewrite !read_faults_app, !write_faults_app, Htr, Htw, !app_nil_r.
  simpl. split.
  - intros err Hin. rewrite (Hreads err Hin) in *. simpl in *.
    rewrite app_nil_r in Hbody. auto.
  - intros err Hin. rewrite (Hwrites err Hin) in *. simpl in *.
    split; [reflexivity|]. exists jr. auto.
Qed.

Lemma stream_faults_witness :
  let run := @handleAPI Scripted _ _ (Stub_Codec (inr call_request)) 1
                        live_http broken_stdout in
  exists new,
    events (snd run) = events broken_stdout ++ new /\
    (forall err, In err (read_faults new) ->
       fst run = Panic (PanicErr err) /\
       body (w (snd run)) = body (w broken_stdout)) /\
    (forall err, In err (write_faults new) ->
       fst run = Ret tt /\
       exists jr,
         @parseJsonRpcRequest _ (Stub_Codec (inr call_request)) live_http
         = inr jr /\
         body (w (snd run)) =
           body (w broken_stdout)
           ++ [error_envelope jr "Message"
                 ("could not execute: " ++ err)%string]).
Proof.
  intros run.
  apply (@stream_faults Scripted _ _ (Stub_Codec (inr call_request)) 1
           live_http broken_stdout (fst run) (snd run)).
  vm_compute. reflexivity.
Defined.

(** C5, as stated, fails for the write of the input frame: its error comes
    back from [ExecuteTx] as a value, and the handler answers with an error
    envelope and returns. *)
Lemma write_error_is_returned :
  fst (@ExecuteTx Scripted _ _ (Stub_Codec (inr call_request)) 1 Live
                  [x61; x62] broken_stdin)
  = Ret (inl "write |1: broken pipe") /\
  fst (@handleAPI Scripted _ _ (Stub_Codec (inr call_request)) 1 live_http
                  broken_stdin)
  = Ret tt /\
  body (w (snd (@handleAPI Scripted _ _ (Stub_Codec (inr call_request)) 1
                           live_http broken_stdin)))
  = [error_envelope call_request "Message"
       "could not execute: write |1: broken pipe"].
Proof. vm_compute. repeat split. Qed.

(** ** The echoed fields *)

Lemma same_response_trans : forall E (s1 s2 s3 : State E),
  same_response s1 s2 -> same_response s2 s3 -> same_response s1 s3.
Proof. unfold same_response. intros. congruence. Qed.

Section Echo.

Context {E : Type} `{Engine E} {Tx : Type} `{Codec Tx}.

Ltac step x :=
  apply preserves_bind; [exact (@same_response_trans E) | | intros x ].

Ltac same :=
  let s := fresh "s" in let o := fresh "o" in let s' := fresh "s'" in
  let Hrun := fresh "Hrun" in
  intros s o s' Hrun; unfold same_response;
  repeat match type of Hrun with
         | context [match ?x with _ => _ end] => destruct x
         | context [if ?x then _ else _] => destruct x
         end;
  inversion Hrun; reflexivity.

Lemma errCh_send_same : forall v, preserves (E:=E) same_response (errCh_send v).
Proof. intros v. unfold errCh_send. same. Qed.

Lemma outCh_send_same : forall v, preserves (E:=E) same_response (outCh_send v).
Proof. intros v. unfold outCh_send. same. Qed.

Lemma errCh_recv_same : preserves (E:=E) same_response errCh_recv.
Proof. unfold errCh_recv. same. Qed.

Lemma outCh_recv_same : preserves (E:=E) same_response outCh_recv.
Proof. unfold outCh_recv. same. Qed.

Lemma lock_send_same : preserves (E:=E) same_response lock_send.
Proof. unfold lock_send, emit. same. Qed.

Lemma lock_recv_same : preserves (E:=E) same_response lock_recv.
Proof. unfold lock_recv, emit. same. Qed.

Lemma emit_same : forall e, preserves (E:=E) same_response (emit e).
Proof. intros e. unfold emit. same. Qed.

Lemma ret_same : forall A (a : A), preserves (E:=E) same_response (ret a).
Proof. intros A a. unfold ret. same. Qed.

Lemma ExecuteTx_same : forall fuel ctx (tx : Tx),
  preserves (E:=E) same_response (ExecuteTx fuel ctx tx).
Proof.
  intros fuel ctx tx s o s' Hrun.
  destruct (ExecuteTx_untouched fuel ctx tx s o s' Hrun) as (Hw & _).
  exact Hw.
Qed.

Lemma callback_same : forall fuel ctx (tx : Tx),
  preserves (E:=E) same_response (callback fuel ctx tx).
Proof.
  intros fuel ctx tx. unfold callback.
  step r; [apply ExecuteTx_same|].
  destruct r as [err|[stdout stderr]]; [apply errCh_send_same|].
  step x; [apply outCh_send_same|].
  step y; [apply outCh_send_same|].
  apply errCh_send_same.
Qed.

Lemma ExecuteLocked_same : forall ctx (cb : M (E:=E) unit),
  preserves same_response cb ->
  preserves same_response (ExecuteLocked ctx cb).
Proof.
  intros ctx cb Hcb.
  assert (Hl : preserves same_response (locked_case cb)).
  { unfold locked_case.
    step x; [apply lock_send_same|].
    step y; [apply emit_same|].
    step z; [exact Hcb|].
    step u; [apply lock_recv_same|].
    apply ret_same. }
  assert (Hd : forall err, preserves (E:=E) same_response (done_case err)).
  { intros err. unfold done_case.
    step x; [apply emit_same|]. apply ret_same. }
  intros s o s' Hrun. unfold ExecuteLocked in Hrun.
  destruct (List.length (cmdLock s) <? 1)%nat, ctx as [|err].
  - exact (Hl s o s' Hrun).
  - destruct (pick s); [exact (Hl s o s' Hrun) | exact (Hd err s o s' Hrun)].
  - inversion Hrun. reflexivity.
  - exact (Hd err s o s' Hrun).
Qed.

End Echo.

Section Replies.

Context {E : Type} `{Engine E} {Tx : Type} `{Codec Tx}.

Lemma with_own_version : forall jr, with_version (Jsonrpc jr) jr = jr.
Proof. intros [v m p i]. reflexivity. Qed.

(** The handler, once the request is parsed: the way it ends and what it
    replies are the same for every version string, and the envelope it
    writes carries the version string of the request. *)
Lemma serve_reply : forall fuel r jr (s : State E),
  exists a o,
    (o = Ret tt -> a <> NoReply) /\
    forall v, exists sv,
      serve fuel r (with_version v jr) s = (o, sv) /\
      body (w sv) = body (w s) ++ envelopes (with_version v jr) a.
Proof.
  intros fuel r jr s.
  destruct (String.eqb (Method jr) "suave_offchainCall") eqn:Hm.
  2:{ exists (ErrorReply "invalid method, expected suave_offchainCall"),
        (Ret tt).
      split; [intros _; discriminate|]. intros v.
      unfold serve, with_version. cbn [Method]. rewrite Hm.
      eexists. split; reflexivity. }
  apply String.eqb_eq in Hm.
  destruct (Unmarshal (Params jr)) as [uerr|tx] eqn:Hu.
  { exists (ErrorReply ("could not unmarshal transaction: " ++ uerr)%string),
      (Ret tt).
    split; [intros _; discriminate|]. intros v.
    unfold serve, with_version. cbn [Method Params]. rewrite Hm, Hu.
    eexists. split; reflexivity. }
  assert (Hserve : forall v,
    serve fuel r (with_version v jr) s =
    (_ <- ExecuteLocked (Ctx r) (callback fuel (Ctx r) tx) ;;
     err <- errCh_recv ;;
     match err with
     | Some err =>
         emit (EvLog LevelError "could not execute offchain call"
                     (Some err)) ;;
         Write (Encoded (encode_JsonRpcErrorResponse
           (NewJsonRpcErrorResponse (with_version v jr) (-32600)
              ("could not execute: " ++ err)%string)))
     | None =>
         stdout <- outCh_recv ;;
         Write (Encoded (encode_JsonRpcSuccessResponse
           (NewJsonRpcSuccessResponse (with_version v jr) stdout))) ;;
         errData <- errCh_recv ;;
         match errData with
         | Some e =>
             emit (EvLog LevelInfo "encountered execution error" (Some e))
         | None => ret tt
         end
     end)%go
      (set_errCh []
         (set_outCh []
            (snd (Header_Set "Content-Type" "application/json" s))))).
  { intros v. apply serve_valid_call; assumption. }
  destruct (ExecuteLocked (Ctx r) (callback fuel (Ctx r) tx)
              (set_errCh []
                 (set_outCh []
                    (snd (Header_Set "Content-Type" "application/json" s)))))
    as [ol s1] eqn:Hl.
  assert (Hw : body (w s1) = body (w s)).
  { rewrite (ExecuteLocked_same (Ctx r) _ (callback_same fuel (Ctx r) tx)
               _ _ _ Hl). reflexivity. }
  destruct ol as [x|p| |].
  2:{ exists NoReply, (Panic p). split; [discriminate|]. intros v.
      rewrite Hserve. unfold bind at 1. rewrite Hl.
      eexists. split; [reflexivity|]. rewrite Hw, app_nil_r. reflexivity. }
  2:{ exists NoReply, Blocked. split; [discriminate|]. intros v.
      rewrite Hserve. unfold bind at 1. rewrite Hl.
      eexists. split; [reflexivity|]. rewrite Hw, app_nil_r. reflexivity. }
  2:{ exists NoReply, OutOfFuel. split; [discriminate|]. intros v.
      rewrite Hserve. unfold bind at 1. rewrite Hl.
      eexists. split; [reflexivity|]. rewrite Hw, app_nil_r. reflexivity. }
  destruct (errCh s1) as [|[err|] rest] eqn:He.
  - exists NoReply, Blocked. split; [discriminate|]. intros v.
    rewrite Hserve. unfold bind at 1. rewrite Hl.
    unfold bind at 1, errCh_recv. rewrite He.
    eexists. split; [reflexivity|]. rewrite Hw, app_nil_r. reflexivity.
  - exists (ErrorReply ("could not execute: " ++ err)%string), (Ret tt).
    split; [intros _; discriminate|]. intros v.
    rewrite Hserve. unfold bind at 1. rewrite Hl.
    unfold bind at 1, errCh_recv. rewrite He.
    eexists. split; [reflexivity|]. simpl. rewrite Hw. reflexivity.
  - destruct (outCh s1) as [|stdout outs] eqn:Ho.
    + exists NoReply, Blocked. split; [discriminate|]. intros v.
      rewrite Hserve. unfold bind at 1. rewrite Hl.
      unfold bind at 1, errCh_recv. rewrite He.
      unfold bind at 1, outCh_recv. simpl. rewrite Ho.
      eexists. split; [reflexivity|]. simpl. rewrite Hw, app_nil_r.
      reflexivity.
    + destruct rest as [|[e|] rest].
      * exists (ResultReply stdout), Blocked. split; [discriminate|].
        intros v.
        rewrite Hserve. unfold bind at 1. rewrite Hl.
        unfold bind at 1, errCh_recv. rewrite He.
        unfold bind at 1, outCh_recv. simpl. rewrite Ho.
        eexists. split; [reflexivity|]. simpl. rewrite Hw. reflexivity.
      * exists (ResultReply stdout), (Ret tt).
        split; [intros _; discriminate|]. intros v.
        rewrite Hserve. unfold bind at 1. rewrite Hl.
        unfold bind at 1, errCh_recv. rewrite He.
        unfold bind at 1, outCh_recv. simpl. rewrite Ho.
        eexists. split; [reflexivity|]. simpl. rewrite Hw. reflexivity.
      * exists (ResultReply stdout), (Ret tt).
        split; [intros _; discriminate|]. intros v.
        rewrite Hserve. unfold bind at 1. rewrite Hl.
        unfold bind at 1, errCh_recv. rewrite He.
        unfold bind at 1, outCh_recv. simpl. rewrite Ho.
        eexists. split; [reflexivity|]. simpl. rewrite Hw. reflexivity.
Qed.

Lemma envelopes_echo : forall jr a, Forall (echoes jr) (envelopes jr a).
Proof.
  intros jr [|msg|result]; simpl; constructor; try constructor;
    eexists; (split; [reflexivity|]); split; reflexivity.
Qed.

End Replies.

(** C10 (as the code has it): once the request is parsed, the handler
    goes the same way and gives the same reply whatever the [jsonrpc]
    string is, the empty string of a missing field included; a handler
    that returns has written exactly one envelope; and every envelope it
    writes, of an error or of a result, carries the [jsonrpc] string of
    the request and the [id] that the decoder stored for it. *)
Theorem handleAPI_echoes_version_and_id :
  forall E (HE : Engine E) Tx (HC : Codec Tx) fuel r jr (s : State E) o s',
    parseJsonRpcRequest r = inr jr ->
    handleAPI fuel r s = (o, s') ->
    exists a,
      body (w s') = body (w s) ++ envelopes jr a /\
      Forall (echoes jr) (envelopes jr a) /\
      (o = Ret tt -> a <> NoReply) /\
      forall v, exists sv,
        serve fuel r (with_version v jr) s = (o, sv) /\
        body (w sv) = body (w s) ++ envelopes (with_version v jr) a.
Proof.
  intros E HE Tx HC fuel r jr s o s' Hp Hrun.
  destruct (serve_reply fuel r jr s) as (a & o1 & Hret & Hall).
  destruct (Hall (Jsonrpc jr)) as (s1 & Hserve & Hbody).
  rewrite with_own_version in Hserve, Hbody.
  unfold handleAPI, defer_emit in Hrun. rewrite Hp, Hserve in Hrun.
  assert (Ho : o = o1 /\ w s' = w s1).
  { destruct o1; inversion Hrun; split; reflexivity. }
  destruct Ho as [-> Hw].
  exists a. rewrite Hw.
  split; [exact Hbody|]. split; [apply envelopes_echo|].
  split; [exact Hret | exact Hall].
Qed.

Lemma handleAPI_echoes_version_and_id_witness :
  exists a,
    body (w (snd (@handleAPI Echo _ _ (Stub_Codec (inr call_request)) 1
                             live_http idle_echo)))
    = body (w idle_echo) ++ envelopes call_request a /\
    Forall (echoes call_request) (envelopes call_request a) /\
    (fst (@handleAPI Echo _ _ (Stub_Codec (inr call_request)) 1
                     live_http idle_echo) = Ret tt -> a <> NoReply) /\
    forall v, exists sv,
      @serve Echo _ _ (Stub_Codec (inr call_request)) 1 live_http
             (with_version v call_request) idle_echo
      = (fst (@handleAPI Echo _ _ (Stub_Codec (inr call_request)) 1
                         live_http idle_echo), sv) /\
      body (w sv)
      = body (w idle_echo) ++ envelopes (with_version v call_request) a.
Proof.
  apply (@handleAPI_echoes_version_and_id Echo _ _
           (Stub_Codec (inr call_request)) 1 live_http call_request
           idle_echo
           (fst (@handleAPI Echo _ _ (Stub_Codec (inr call_request)) 1
                            live_http idle_echo))
           (snd (@handleAPI Echo _ _ (Stub_Codec (inr call_request)) 1
                            live_http idle_echo))).
  - reflexivity.
  - vm_compute. reflexivity.
Defined.

(** C10, as stated, fails for the [id]: a request whose [id] is the
    number 2^53 + 1 is answered with an envelope whose [id] is the float64
    that the decoder stored, which stands for 2^53. *)
Lemma id_number_not_echoed :
  exists f,
    body (w (snd (@handleAPI Echo _ _ (Stub_Codec (inr big_id_request)) 1
                             live_http idle_echo)))
    = [ Encoded (JObject
          [ ("jsonrpc", JString "2.0");
            ("error",
             JObject [ ("code", JInt (-32600));
                       ("Message",
                        JString
                          "invalid method, expected suave_offchainCall") ]);
            ("id", JNumber f) ]) ] /\
    json.float64_to_Z f = Some 9007199254740992%Z /\
    json.float64_to_Z f <> Some big_id.
Proof.
  exists (S754_finite false 4503599627370496 1).
  split; [vm_compute; reflexivity|].
  split; [vm_compute; reflexivity|].
  vm_compute. discriminate.
Qed.

(** ** Concurrent calls *)

Section Serial.

Import Interleaving.

Lemma in_runs : forall l t, In t (runs l) <-> In t l.
Proof.
  induction l as [|a l IH]; intros t; simpl; [tauto|].
  destruct (runs l) as [|t' q] eqn:Hr.
  - simpl. rewrite <- IH. simpl. tauto.
  - destruct (Nat.eqb a t') eqn:Heq.
    + apply Nat.eqb_eq in Heq. subst a. rewrite <- IH. simpl. tauto.
    + rewrite <- IH. simpl. tauto.
Qed.

(** A call by [t] on top of a log that [t] is not in, or whose newest run
    is [t]'s, leaves the runs without repetition, [t]'s run newest. *)
Lemma runs_push : forall l t,
  NoDup (runs l) ->
  ~ In t l \/ hd_error (runs l) = Some t ->
  NoDup (runs (t :: l)) /\ hd_error (runs (t :: l)) = Some t.
Proof.
  intros l t Hnd Hmine. simpl.
  destruct (runs l) as [|t' q] eqn:Hr.
  - split; [repeat constructor; intros []|reflexivity].
  - destruct (Nat.eqb t t') eqn:Heq.
    + apply Nat.eqb_eq in Heq. subst t'. split; [assumption|reflexivity].
    + apply Nat.eqb_neq in Heq. split; [|reflexivity].
      destruct Hmine as [Hout|Hhd]; [|simpl in Hhd; congruence].
      constructor; [|assumption].
      intro Hin. apply Hout. apply in_runs. rewrite Hr. exact Hin.
Qed.

Lemma Inv_init : Inv init.
Proof.
  constructor; simpl; auto; try discriminate.
  constructor.
Qed.

Lemma move_to_same : forall f t p, move_to f t p t = p.
Proof. intros. unfold move_to. rewrite Nat.eqb_refl. reflexivity. Qed.

Lemma move_to_other : forall f t p i, i <> t -> move_to f t p i = f i.
Proof.
  intros f t p i Hne. unfold move_to.
  destruct (Nat.eqb i t) eqn:Heq; [|reflexivity].
  apply Nat.eqb_eq in Heq. contradiction.
Qed.

(** A step of a holder that keeps the slot and makes no call. *)
Lemma Inv_holder_moves : forall x t p,
  Inv x -> holds (pcs x t) = true -> holds p = true ->
  Inv (mkSys (lock x) (move_to (pcs x) t p) (io x)).
Proof.
  intros x t p [A B C D F G] Ht Hp.
  constructor; simpl; unfold callers; simpl; auto.
  - intros i Hi. destruct (Nat.eq_dec i t) as [->|Hne]; [eauto|].
    rewrite move_to_other in Hi by assumption. eauto.
  - intros i j Hi Hj.
    destruct (Nat.eq_dec i t) as [->|Hi'], (Nat.eq_dec j t) as [->|Hj'];
      try reflexivity;
      rewrite ?move_to_other in * by assumption; eauto.
  - intros i Hi. destruct (Nat.eq_dec i t) as [->|Hne].
    + rewrite move_to_same in Hi. destruct p; discriminate.
    + rewrite move_to_other in Hi by assumption. eauto.
  - intros i Hi. destruct (Nat.eq_dec i t) as [->|Hne]; [eauto|].
    rewrite move_to_other in Hi by assumption. eauto.
Qed.

(** A step of a holder that keeps the slot and makes a call. *)
Lemma Inv_holder_calls : forall x t p c,
  Inv x -> holds (pcs x t) = true -> holds p = true ->
  Inv (mkSys (lock x) (move_to (pcs x) t p) ((t, c) :: io x)).
Proof.
  intros x t p c [A B C D F G] Ht Hp.
  destruct (runs_push (callers x) t G (F t Ht)) as [Hnd Hhd].
  constructor; simpl; unfold callers; simpl; auto.
  - intros i Hi. destruct (Nat.eq_dec i t) as [->|Hne]; [eauto|].
    rewrite move_to_other in Hi by assumption. eauto.
  - intros i j Hi Hj.
    destruct (Nat.eq_dec i t) as [->|Hi'], (Nat.eq_dec j t) as [->|Hj'];
      try reflexivity;
      rewrite ?move_to_other in * by assumption; eauto.
  - intros i Hi. destruct (Nat.eq_dec i t) as [->|Hne].
    + rewrite move_to_same in Hi. destruct p; discriminate.
    + rewrite move_to_other in Hi by assumption.
      intros [Heq|Hin]; [congruence|]. exact (D i Hi Hin).
  - intros i Hi. destruct (Nat.eq_dec i t) as [->|Hne].
    + right. exact Hhd.
    + rewrite move_to_other in Hi by assumption.
      exfalso. apply Hne. eauto.
Qed.

Lemma Inv_step : forall x t m x', Inv x -> step x t m = Some x' -> Inv x'.
Proof.
  intros x t m x' HI Hstep. unfold step in Hstep.
  destruct (pcs x t) eqn:Hpc; destruct m; try discriminate.
  - (* Acquire *)
    destruct (List.length (lock x) <? 1)%nat eqn:Hfree; [|discriminate].
    injection Hstep as <-.
    assert (Hl : lock x = []).
    { apply Nat.ltb_lt in Hfree. destruct (lock x); [reflexivity|].
      simpl in Hfree. lia. }
    destruct HI as [A B C D F G].
    assert (Hnone : forall i, holds (pcs x i) = true -> False).
    { intros i Hi. specialize (B i Hi). congruence. }
    constructor; simpl; unfold callers; simpl; rewrite ?Hl; auto.
    + intros i j Hi Hj.
      destruct (Nat.eq_dec i t) as [->|Hi'], (Nat.eq_dec j t) as [->|Hj'];
        try reflexivity;
        rewrite ?move_to_other in * by assumption; exfalso; eauto.
    + intros i Hi. destruct (Nat.eq_dec i t) as [->|Hne].
      * rewrite move_to_same in Hi. discriminate.
      * rewrite move_to_other in Hi by assumption. eauto.
    + intros i Hi. destruct (Nat.eq_dec i t) as [->|Hne].
      * left. apply D. rewrite Hpc. reflexivity.
      * rewrite move_to_other in Hi by assumption. exfalso. eauto.
  - (* GiveUp *)
    injection Hstep as <-. destruct HI as [A B C D F G].
    constructor; simpl; unfold callers; simpl; auto.
    + intros i Hi. destruct (Nat.eq_dec i t) as [->|Hne].
      * rewrite move_to_same in Hi. discriminate.
      * rewrite move_to_other in Hi by assumption. eauto.
    + intros i j Hi Hj.
      destruct (Nat.eq_dec i t) as [->|Hi'];
        [rewrite move_to_same in Hi; discriminate|].
      destruct (Nat.eq_dec j t) as [->|Hj'];
        [rewrite move_to_same in Hj; discriminate|].
      rewrite move_to_other in * by assumption. eauto.
    + intros i Hi. destruct (Nat.eq_dec i t) as [->|Hne].
      * apply D. rewrite Hpc. reflexivity.
      * rewrite move_to_other in Hi by assumption. eauto.
    + intros i Hi. destruct (Nat.eq_dec i t) as [->|Hne].
      * rewrite move_to_same in Hi. discriminate.
      * rewrite move_to_other in Hi by assumption. eauto.
  - (* Fail *)
    injection Hstep as <-.
    apply Inv_holder_moves; [assumption | rewrite Hpc | ]; reflexivity.
  - (* Write *)
    injection Hstep as <-.
    apply Inv_holder_calls; [assumption | rewrite Hpc; reflexivity | ].
    destruct ok; reflexivity.
  - (* Read on outPipe *)
    injection Hstep as <-.
    apply Inv_holder_calls; [assumption | rewrite Hpc; reflexivity | ].
    destruct a; reflexivity.
  - (* Read on errPipe *)
    injection Hstep as <-.
    apply Inv_holder_calls; [assumption | rewrite Hpc; reflexivity | ].
    destruct a; reflexivity.
  - (* Unlock *)
    destruct (lock x) as [|u rest] eqn:Hl; [discriminate|].
    injection Hstep as <-. destruct HI as [A B C D F G].
    assert (Hrest : rest = []).
    { destruct A as [A|A]; rewrite Hl in A; [discriminate|].
      injection A as _ A. exact A. }
    assert (Hone : forall i, holds (pcs x i) = true -> i = t).
    { intros i Hi. apply (C i t Hi). rewrite Hpc. reflexivity. }
    constructor; simpl; unfold callers; simpl; auto.
    + intros i Hi. destruct (Nat.eq_dec i t) as [->|Hne].
      * rewrite move_to_same in Hi. discriminate.
      * rewrite move_to_other in Hi by assumption.
        exfalso. apply Hne. eauto.
    + intros i j Hi Hj.
      destruct (Nat.eq_dec i t) as [->|Hi'];
        [rewrite move_to_same in Hi; discriminate|].
      rewrite move_to_other in Hi by assumption.
      exfalso. apply Hi'. eauto.
    + intros i Hi. destruct (Nat.eq_dec i t) as [->|Hne].
      * rewrite move_to_same in Hi. discriminate.
      * rewrite move_to_other in Hi by assumption. eauto.
    + intros i Hi. destruct (Nat.eq_dec i t) as [->|Hne].
      * rewrite move_to_same in Hi. discriminate.
      * rewrite move_to_other in Hi by assumption.
        exfalso. apply Hne. eauto.
Qed.

Lemma Inv_run : forall sched x x', Inv x -> run x sched = Some x' -> Inv x'.
Proof.
  induction sched as [|[t m] rest IH]; intros x x' HI Hrun; simpl in Hrun.
  - injection Hrun as <-. exact HI.
  - destruct (step x t m) as [x1|] eqn:Hstep; [|discriminate].
    eapply IH; [eapply Inv_step; eassumption | exact Hrun].
Qed.

End Serial.

Section Between.

Import Interleaving.

Lemma hd_runs : forall l t, hd_error (runs (t :: l)) = Some t.
Proof.
  intros l t. simpl. destruct (runs l) as [|t' q]; [reflexivity|].
  destruct (Nat.eqb t t') eqn:Heq; [|reflexivity].
  apply Nat.eqb_eq in Heq. subst. reflexivity.
Qed.

Lemma runs_cons : forall l t,
  runs (t :: l) =
  match runs l with
  | t' :: q => if Nat.eqb t t' then t' :: q else t :: t' :: q
  | [] => [t]
  end.
Proof. reflexivity. Qed.

Lemma NoDup_runs_tail : forall l t, NoDup (runs (t :: l)) -> NoDup (runs l).
Proof.
  intros l t Hnd. simpl in Hnd. destruct (runs l) as [|t' q]; [constructor|].
  destruct (Nat.eqb t t'); [assumption|].
  inversion Hnd. assumption.
Qed.

(** Runs without repetition: between two calls of a goroutine there are
    only calls of that goroutine. *)
Lemma runs_between : forall l,
  NoDup (runs l) ->
  forall l1 t l2 l3, l = l1 ++ t :: l2 ++ t :: l3 ->
  forall u, In u l2 -> u = t.
Proof.
  induction l as [|a r IH]; intros Hnd l1 t l2 l3 Heq u Hin.
  - destruct l1; discriminate.
  - pose proof (NoDup_runs_tail r a Hnd) as Hr.
    destruct l1 as [|x l1].
    + simpl in Heq. injection Heq as -> ->.
      destruct l2 as [|u1 l2]; [contradiction|].
      assert (Hu1 : u1 = t).
      { destruct (Nat.eq_dec u1 t) as [|Hne]; [assumption|]. exfalso.
        pose proof (hd_runs (l2 ++ t :: l3) u1) as Hhd.
        change ((u1 :: l2) ++ t :: l3) with (u1 :: l2 ++ t :: l3) in Hnd.
        rewrite runs_cons in Hnd.
        destruct (runs (u1 :: l2 ++ t :: l3)) as [|t' q] eqn:Hruns;
          [discriminate|].
        injection Hhd as ->.
        destruct (Nat.eqb t u1) eqn:Hb;
          [apply Nat.eqb_eq in Hb; congruence|].
        apply NoDup_cons_iff in Hnd. destruct Hnd as [Hnotin _].
        apply Hnotin.
        rewrite <- Hruns. apply in_runs. right.
        apply in_or_app. right. left. reflexivity. }
      subst u1. destruct Hin as [<-|Hin]; [reflexivity|].
      apply (IH Hr [] t l2 l3 eq_refl u Hin).
    + simpl in Heq. injection Heq as -> ->.
      apply (IH Hr l1 t l2 l3 eq_refl u Hin).
Qed.

End Between.

(** C9: however the goroutines are scheduled, the channel never buffers
    more than one value, at most one goroutine is between taking the slot
    and freeing it, and in the log of the calls on the engine's pipes the
    calls of each goroutine form one run: no call of another goroutine
    falls between the write and the reads of one call of
    [ExecuteLocked]. *)
Theorem mutual_exclusion :
  forall sched x,
    Interleaving.run Interleaving.init sched = Some x ->
    (List.length (Interleaving.lock x) <= 1)%nat /\
    (forall i j,
        Interleaving.holds (Interleaving.pcs x i) = true ->
        Interleaving.holds (Interleaving.pcs x j) = true -> i = j) /\
    (forall l1 t a l2 b l3,
        Interleaving.io x = l1 ++ (t, a) :: l2 ++ (t, b) :: l3 ->
        forall u c, In (u, c) l2 -> u = t).
Proof.
  intros sched x Hrun.
  destruct (Inv_run sched _ _ Inv_init Hrun) as [A B C D F G].
  split; [|split; [assumption|]].
  - destruct A as [-> | ->]; simpl; lia.
  - intros l1 t a l2 b l3 Hio u c Hin.
    apply (runs_between _ G (map fst l1) t (map fst l2) (map fst l3)).
    + unfold Interleaving.callers. rewrite Hio.
      rewrite map_app. simpl. rewrite map_app. reflexivity.
    + apply (in_map fst) in Hin. exact Hin.
Qed.

Lemma mutual_exclusion_witness :
  (List.length (Interleaving.lock after_two_calls) <= 1)%nat /\
  (forall i j,
      Interleaving.holds (Interleaving.pcs after_two_calls i) = true ->
      Interleaving.holds (Interleaving.pcs after_two_calls j) = true ->
      i = j) /\
  (forall l1 t a l2 b l3,
      Interleaving.io after_two_calls = l1 ++ (t, a) :: l2 ++ (t, b) :: l3 ->
      forall u c, In (u, c) l2 -> u = t).
Proof.
  apply (mutual_exclusion two_calls after_two_calls).
  reflexivity.
Defined.

(** While a goroutine holds the slot, no other can take it. *)
Lemma acquire_refused :
  forall sched x i j,
    Interleaving.run Interleaving.init sched = Some x ->
    Interleaving.holds (Interleaving.pcs x i) = true ->
    Interleaving.step x j Interleaving.Acquire = None.
Proof.
  intros sched x i j Hrun Hi.
  destruct (Inv_run sched _ _ Inv_init Hrun) as [A B C D F G].
  unfold Interleaving.step. rewrite (B i Hi).
  destruct (Interleaving.pcs x j); reflexivity.
Qed.

(** The two steps on the channel are the channel operations of
    [ExecuteLocked]. *)
Lemma acquire_is_lock_send :
  forall E (s : State E) x t,
    Interleaving.pcs x t = Interleaving.AtSelect ->
    cmdLock s = Interleaving.lock x ->
    match Interleaving.step x t Interleaving.Acquire with
    | Some x' =>
        fst (lock_send s) = Ret tt /\
        cmdLock (snd (lock_send s)) = Interleaving.lock x'
    | None => fst (lock_send s) = Blocked
    end.
Proof.
  intros E s x t Hpc Hl. unfold Interleaving.step, lock_send.
  rewrite Hpc, Hl.
  destruct (List.length (Interleaving.lock x) <? 1)%nat; simpl; auto.
Qed.

Lemma unlock_is_lock_recv :
  forall E (s : State E) x t,
    Interleaving.pcs x t = Interleaving.AtUnlock ->
    cmdLock s = Interleaving.lock x ->
    match Interleaving.step x t Interleaving.Unlock with
    | Some x' =>
        fst (lock_recv s) = Ret tt /\
        cmdLock (snd (lock_recv s)) = Interleaving.lock x'
    | None => fst (lock_recv s) = Blocked
    end.
Proof.
  intros E s x t Hpc Hl. unfold Interleaving.step, lock_recv.
  rewrite Hpc, Hl.
  destruct (Interleaving.lock x); simpl; auto.
Qed.

(** * Further properties *)

(** ** The readiness handlers *)

Section ReadinessFacts.

Import Readiness.

Lemma last_cons_default : forall (l : list bool) x d,
  last (x :: l) d = last l x.
Proof.
  induction l as [|y l IH]; intros x d; [reflexivity|].
  change (last (x :: y :: l) d) with (last (y :: l) d).
  rewrite (IH y d), (IH y x). reflexivity.
Qed.

(** One administrative call: nothing happens when the flag already has the
    call's target; otherwise the flag takes it and the transition is
    recorded. *)
Lemma admin_step : forall a s,
  admin a s =
  if Bool.eqb (isReady s) (target a) then s
  else mkServer (target a) (DrainDuration s)
                (acts s ++ transition (DrainDuration s) (target a)).
Proof.
  intros [|] [[|] d l]; simpl; try reflexivity.
  unfold act. simpl. rewrite <- app_assoc. reflexivity.
Qed.

Lemma admin_all_trace : forall calls s,
  exists ts,
    acts (admin_all calls s)
    = acts s ++ flat_map (transition (DrainDuration s)) ts /\
    alternates (isReady s) ts /\
    isReady (admin_all calls s) = last ts (isReady s) /\
    isReady (admin_all calls s) = last (map target calls) (isReady s) /\
    DrainDuration (admin_all calls s) = DrainDuration s.
Proof.
  induction calls as [|a calls IH]; intros s.
  - exists []. simpl. rewrite app_nil_r. repeat split; reflexivity.
  - change (admin_all (a :: calls) s) with (admin_all calls (admin a s)).
    destruct (IH (admin a s)) as (ts & Hacts & Halt & Hlast & Htarget & Hd).
    rewrite admin_step in Hacts, Halt, Hlast, Htarget, Hd |- *.
    simpl map. rewrite last_cons_default.
    destruct (Bool.eqb (isReady s) (target a)) eqn:Heq.
    + apply Bool.eqb_prop in Heq. exists ts. rewrite <- Heq.
      repeat split; assumption.
    + apply Bool.eqb_false_iff in Heq.
      exists (target a :: ts). rewrite (last_cons_default ts).
      simpl in *. rewrite Hacts, <- app_assoc.
      repeat split; auto.
      destruct (isReady s), (target a); try reflexivity; congruence.
Qed.

End ReadinessFacts.

(** X11: a drain of a server that is not ready and an undrain of one that
    is ready change nothing; so a second drain, or a second undrain, right
    after the first adds neither a log entry nor a sleep.  Neither handler
    writes to its response. *)
Theorem drain_undrain_idempotent :
  forall s x x',
    fst (Readiness.handleDrain (fst (Readiness.handleDrain s x)) x')
    = fst (Readiness.handleDrain s x) /\
    fst (Readiness.handleUndrain (fst (Readiness.handleUndrain s x)) x')
    = fst (Readiness.handleUndrain s x) /\
    snd (Readiness.handleDrain s x) = x /\
    snd (Readiness.handleUndrain s x) = x.
Proof.
  intros [[|] d l] x x'; repeat split; reflexivity.
Qed.

(** X12: after any run of drain and undrain calls, the flag is the target
    of the last call (and the flag at the start when there was none); what
    the calls added to the log is a sequence of transitions in which ready
    and not ready alternate, starting away from the flag at the start and
    ending on the final flag; each transition to not ready is one log
    entry followed by one sleep of the drain interval, each transition to
    ready is one log entry. *)
Theorem admin_transitions_alternate :
  forall calls s,
    exists ts,
      Readiness.acts (Readiness.admin_all calls s)
      = Readiness.acts s
        ++ flat_map (Readiness.transition (Readiness.DrainDuration s)) ts /\
      Readiness.alternates (Readiness.isReady s) ts /\
      Readiness.isReady (Readiness.admin_all calls s)
      = last ts (Readiness.isReady s) /\
      Readiness.isReady (Readiness.admin_all calls s)
      = last (map Readiness.target calls) (Readiness.isReady s).
Proof.
  intros calls s.
  destruct (admin_all_trace calls s) as (ts & H1 & H2 & H3 & H4 & _).
  exists ts. auto.
Qed.

(** X13: whatever the server was, after a drain the readiness check
    answers 503 and the liveness check still 200, and after an undrain the
    readiness check answers 200. *)
Theorem readiness_follows_drain :
  forall s x0 x,
    status x = None ->
    status (snd (Readiness.handleReadinessCheck
                   (fst (Readiness.handleDrain s x0)) x)) = Some 503%Z /\
    status (snd (Readiness.handleLivenessCheck
                   (fst (Readiness.handleDrain s x0)) x)) = Some 200%Z /\
    status (snd (Readiness.handleReadinessCheck
                   (fst (Readiness.handleUndrain s x0)) x)) = Some 200%Z.
Proof.
  intros [[|] d l] x0 x Hx;
    unfold Readiness.handleReadinessCheck, Readiness.handleLivenessCheck,
      Readiness.write_header;
    simpl; rewrite Hx; repeat split; reflexivity.
Qed.

Lemma readiness_follows_drain_witness :
  status (snd (Readiness.handleReadinessCheck
                 (fst (Readiness.handleDrain (Readiness.mkServer true 5 [])
                                             (mkWriter [] None [])))
                 (mkWriter [] None []))) = Some 503%Z /\
  status (snd (Readiness.handleLivenessCheck
                 (fst (Readiness.handleDrain (Readiness.mkServer true 5 [])
                                             (mkWriter [] None [])))
                 (mkWriter [] None []))) = Some 200%Z /\
  status (snd (Readiness.handleReadinessCheck
                 (fst (Readiness.handleUndrain (Readiness.mkServer true 5 [])
                                               (mkWriter [] None [])))
                 (mkWriter [] None []))) = Some 200%Z.
Proof.
  apply (readiness_follows_drain (Readiness.mkServer true 5 [])
                                 (mkWriter [] None []) (mkWriter [] None [])).
  reflexivity.
Defined.

(** ** The frame loop on any engine *)

Section Delivered.

Context {E : Type}.
Variable read : E -> nat -> option (ReadResult * E).
Variable ev : option ReadResult -> Event.

(** The loop on reads that store the chunks [pre] and then [c], where [c]
    is the first chunk whose last byte is the delimiter. *)
Lemma readLoop_delivered : forall pre c fuel acc (s : State E) e',
  Forall fits (pre ++ [c]) ->
  Forall (fun x => ~ ends_frame x) pre ->
  ends_frame c ->
  delivers read (engine s) (pre ++ [c]) e' ->
  (List.length pre < fuel)%nat ->
  exists s',
    readLoop read ev fuel acc s = (Ret (acc ++ List.concat pre ++ c), s') /\
    engine s' = e'.
Proof.
  induction pre as [|x pre IH];
    intros c fuel acc s e' Hfits Hpre Hc Hdel Hfuel;
    (destruct fuel as [|fuel]; [simpl in Hfuel; lia|]).
  - simpl in Hdel. destruct Hdel as (e1 & Hread & ->).
    inversion Hfits as [|? ? [Hne Hle] _]; subst.
    rewrite (readLoop_chunk read ev fuel acc s c e1 Hread Hne Hle).
    unfold ends_frame in Hc. rewrite Hc, byte_eqb_refl.
    eexists. split; reflexivity.
  - simpl in Hdel. destruct Hdel as (e1 & Hread & Hdel).
    inversion Hfits as [|? ? [Hne Hle] Hfits']; subst.
    inversion Hpre as [|? ? Hx Hpre']; subst.
    rewrite (readLoop_chunk read ev fuel acc s x e1 Hread Hne Hle).
    rewrite byte_eqb_neq by exact Hx.
    destruct (IH c fuel (acc ++ x)
                 (after_read ev (mkRead x None) e1 s) e'
                 Hfits' Hpre' Hc Hdel)
      as (s' & Hrun & Heng).
    + simpl in Hfuel. lia.
    + exists s'. split; [|exact Heng].
      rewrite Hrun. simpl. rewrite <- !app_assoc. reflexivity.
Qed.

End Delivered.

Lemma frame_chunks : forall (chunks : list (list byte)) d,
  Forall fits chunks ->
  ~ In nl d ->
  List.concat chunks = d ++ [nl] ->
  exists pre c,
    chunks = pre ++ [c] /\
    Forall (fun x => ~ ends_frame x) pre /\
    ends_frame c.
Proof.
  intros chunks d Hfits Hnl Hcat.
  assert (Hne : chunks <> []).
  { intros ->. simpl in Hcat. destruct d; discriminate. }
  destruct (exists_last Hne) as (pre & c & ->).
  exists pre, c. split; [reflexivity|].
  rewrite concat_app in Hcat. simpl in Hcat. rewrite app_nil_r in Hcat.
  apply Forall_app in Hfits. destruct Hfits as [Hpre Hc].
  inversion Hc as [|? ? [Hcne _] _]; subst.
  destruct (exists_last Hcne) as (c' & b & ->).
  rewrite app_assoc in Hcat. apply app_inj_tail in Hcat.
  destruct Hcat as [Hd ->].
  split.
  - apply Forall_forall. intros x Hx Hend.
    apply Hnl. rewrite <- Hd. apply in_or_app. left.
    apply in_concat. exists x. split; [exact Hx|].
    rewrite Forall_forall in Hpre. destruct (Hpre x Hx) as [Hxne _].
    unfold ends_frame in Hend. rewrite <- Hend.
    apply last_in. exact Hxne.
  - unfold ends_frame. apply last_last.
Qed.

(** X8: the frame loop looks only at the last byte of each read.  When the
    reads store chunks (none empty, none larger than the buffer) of which
    the first to end with the delimiter is [c], the loop returns what it
    had, followed by all the chunks up to [c] and [c] itself, delimiters
    inside the chunks included, and leaves the engine where these reads
    left it: later chunks are not read. *)
Theorem readLoop_stops_on_last_byte :
  forall E (read : E -> nat -> option (ReadResult * E)) ev pre c fuel acc
         (s : State E) e',
    Forall fits (pre ++ [c]) ->
    Forall (fun x => ~ ends_frame x) pre ->
    ends_frame c ->
    delivers read (engine s) (pre ++ [c]) e' ->
    (List.length pre < fuel)%nat ->
    exists s',
      readLoop read ev fuel acc s
      = (Ret (acc ++ List.concat pre ++ c), s') /\
      engine s' = e'.
Proof.
  intros E read ev pre c fuel acc s e' Hfits Hpre Hc Hdel Hfuel.
  exact (readLoop_delivered read ev pre c fuel acc s e'
           Hfits Hpre Hc Hdel Hfuel).
Qed.

Lemma readLoop_stops_on_last_byte_witness :
  exists s',
    readLoop stdout_Read EvReadOut 2 [] two_frames_stdout
    = (Ret ([] ++ List.concat [[x61; x0a; x62]] ++ [x63; x0a]), s') /\
    engine s' = mkScripted None [mkRead [x64; x0a] None] [] [].
Proof.
  apply (readLoop_stops_on_last_byte Scripted stdout_Read EvReadOut
           [[x61; x0a; x62]] [x63; x0a] 2 [] two_frames_stdout).
  - repeat constructor; try discriminate; unfold bufSize; simpl; lia.
  - repeat constructor. unfold ends_frame. simpl. discriminate.
  - reflexivity.
  - simpl. eexists. split; [reflexivity|].
    eexists. split; reflexivity.
  - simpl. lia.
Defined.

(** X9: on either output pipe of any engine, a frame [d ++ [nl]] whose
    payload [d] has no delimiter, delivered in any number of chunks (none
    empty, none larger than the buffer), is returned by the loop as it was
    sent, delimiter included: no byte lost, none twice, whatever the
    cutting.  The loop needs one turn per chunk. *)
Theorem readLoop_reassembles :
  forall E (read : E -> nat -> option (ReadResult * E)) ev chunks d fuel acc
         (s : State E) e',
    Forall fits chunks ->
    ~ In nl d ->
    List.concat chunks = d ++ [nl] ->
    delivers read (engine s) chunks e' ->
    (List.length chunks <= fuel)%nat ->
    exists s',
      readLoop read ev fuel acc s = (Ret (acc ++ d ++ [nl]), s') /\
      engine s' = e'.
Proof.
  intros E read ev chunks d fuel acc s e' Hfits Hnl Hcat Hdel Hfuel.
  destruct (frame_chunks chunks d Hfits Hnl Hcat) as (pre & c & -> & Hpre & Hc).
  destruct (readLoop_delivered read ev pre c fuel acc s e'
              Hfits Hpre Hc Hdel)
    as (s' & Hrun & Heng).
  - rewrite length_app in Hfuel. simpl in Hfuel. lia.
  - exists s'. split; [|exact Heng].
    rewrite Hrun. rewrite concat_app in Hcat. simpl in Hcat.
    rewrite app_nil_r in Hcat. rewrite Hcat. reflexivity.
Qed.

Lemma readLoop_reassembles_witness :
  exists s',
    readLoop stderr_Read EvReadErr 3 [] slow_stderr
    = (Ret ([] ++ [x6f; x6b] ++ [nl]), s') /\
    engine s' = mkScripted None [] [] [].
Proof.
  apply (readLoop_reassembles Scripted stderr_Read EvReadErr
           [[x6f]; [x6b]; [x0a]] [x6f; x6b] 3 [] slow_stderr).
  - repeat constructor; try discriminate; unfold bufSize; simpl; lia.
  - intros [Habs|[Habs|[]]]; discriminate.
  - reflexivity.
  - simpl. eexists. split; [reflexivity|].
    eexists. split; [reflexivity|].
    eexists. split; reflexivity.
  - simpl. lia.
Defined.

(** ** A read that stores nothing *)

Section ZeroRead.

Context {E : Type}.
Variable read : E -> nat -> option (ReadResult * E).
Variable ev : option ReadResult -> Event.



Hypothesis ev_not_sleep : forall x, ev x <> EvSleep.


End ZeroRead.




(** ** Errors returned by [ExecuteTx] *)

Section TxErrors.

Context {E : Type} `{Engine E} {Tx : Type} `{Codec Tx}.

Lemma same_cmd_refl : forall (s : State E), same_cmd s s.
Proof. reflexivity. Qed.

Lemma same_cmd_trans : forall (s1 s2 s3 : State E),
  same_cmd s1 s2 -> same_cmd s2 s3 -> same_cmd s1 s3.
Proof. unfold same_cmd. intros. congruence. Qed.

Lemma keeps_refusing_refl : forall (s : State E), keeps_refusing s s.
Proof. intros s Hs. exact Hs. Qed.

Lemma keeps_refusing_trans : forall (s1 s2 s3 : State E),
  keeps_refusing s1 s2 -> keeps_refusing s2 s3 -> keeps_refusing s1 s3.
Proof. unfold keeps_refusing. auto. Qed.

Lemma same_cmd_keeps : forall A (m : M (E:=E) A),
  preserves same_cmd m -> preserves keeps_refusing m.
Proof.
  intros A m Hm s o s' Hrun Hs. rewrite (Hm s o s' Hrun). exact Hs.
Qed.

Lemma emit_same_cmd : forall e, preserves (E:=E) same_cmd (emit e).
Proof. intros e s o s' Heq. inversion Heq. reflexivity. Qed.

Lemma pipe_Write_same_cmd : forall bs,
  preserves (E:=E) same_cmd (pipe_Write bs).
Proof.
  intros bs s o s' Heq. unfold pipe_Write in Heq.
  destruct (stdin_Write (engine s) bs) as [[err e']|];
    inversion Heq; reflexivity.
Qed.

Lemma pipe_Read_same_cmd : forall read ev,
  preserves (E:=E) same_cmd (pipe_Read read ev).
Proof.
  intros read ev s o s' Heq. unfold pipe_Read in Heq.
  destruct (read (engine s) bufSize) as [[r e']|];
    inversion Heq; reflexivity.
Qed.

Ltac cmd_bind x :=
  apply preserves_bind; [exact same_cmd_trans | | intros x ].

Ltac cmd_leaf :=
  first
    [ apply preserves_ret; exact same_cmd_refl
    | apply preserves_panic; exact same_cmd_refl
    | apply preserves_out_of_fuel; exact same_cmd_refl
    | apply emit_same_cmd
    | apply pipe_Write_same_cmd
    | apply pipe_Read_same_cmd ].

Lemma readLoop_same_cmd : forall read ev fuel acc,
  preserves (E:=E) same_cmd (readLoop read ev fuel acc).
Proof.
  intros read ev fuel. induction fuel as [|fuel IH]; intros acc; simpl.
  - cmd_leaf.
  - cmd_bind r; [cmd_leaf|].
    destruct (rerr r); [cmd_bind x; cmd_leaf|].
    cmd_bind x.
    + destruct (_ =? _)%Z; cmd_leaf.
    + destruct (slice_to _ _); [|cmd_leaf].
      destruct (index _ _); [|cmd_leaf].
      destruct (Byte.eqb _ _); [cmd_leaf | apply IH].
Qed.

(** The two later pipe requests do not give [StdinPipe] back. *)
Lemma StdoutPipe_keeps :
  preserves (E:=E) keeps_refusing (cmd_call exec.StdoutPipe).
Proof.
  intros s o s' Heq Hs. unfold cmd_call, exec.StdoutPipe in Heq.
  unfold exec.Pipe in Heq.
  destruct (exec.Stdout (sgxRevmCmd s)), (exec.Process (sgxRevmCmd s)) eqn:Hp;
    try destruct (hd None (exec.os_Pipe (sgxRevmCmd s)));
    inversion Heq; subst; exact Hs.
Qed.

Lemma StderrPipe_keeps :
  preserves (E:=E) keeps_refusing (cmd_call exec.StderrPipe).
Proof.
  intros s o s' Heq Hs. unfold cmd_call, exec.StderrPipe in Heq.
  unfold exec.Pipe in Heq.
  destruct (exec.Stderr (sgxRevmCmd s)), (exec.Process (sgxRevmCmd s)) eqn:Hp;
    try destruct (hd None (exec.os_Pipe (sgxRevmCmd s)));
    inversion Heq; subst; exact Hs.
Qed.

Ltac keep_bind x :=
  apply preserves_bind; [exact keeps_refusing_trans | | intros x ].

Ltac keep_leaf :=
  first
    [ apply preserves_ret; exact keeps_refusing_refl
    | apply StdoutPipe_keeps
    | apply StderrPipe_keeps
    | apply same_cmd_keeps; first [cmd_leaf | apply readLoop_same_cmd] ].

(** [ExecuteTx] on a command that refuses [StdinPipe]. *)
Lemma ExecuteTx_refused : forall fuel ctx (tx : Tx) (s : State E),
  refuses_stdin (sgxRevmCmd s) ->
  exists err, ExecuteTx fuel ctx tx s = (Ret (inl err), s).
Proof.
  intros fuel ctx tx s Hs.
  unfold ExecuteTx, bind at 1, cmd_call at 1, exec.StdinPipe.
  destruct s as [c l e p oc ec x evs]. simpl in *.
  destruct (exec.Stdin c) eqn:Hin.
  - eexists. reflexivity.
  - destruct (exec.Process c) eqn:Hp.
    + eexists. reflexivity.
    + destruct Hs as [Hs|Hs]; contradiction.
Qed.

(** After an [ExecuteTx] that was not stopped by [os.Pipe()] failing for
    the input pipe, however it ended, the command refuses [StdinPipe]. *)
Lemma ExecuteTx_leaves_refusing : forall fuel ctx (tx : Tx) (s : State E) o s',
  ~ stdin_pipe_fails (sgxRevmCmd s) ->
  ExecuteTx fuel ctx tx s = (o, s') ->
  refuses_stdin (sgxRevmCmd s').
Proof.
  intros fuel ctx tx s o s' Hok Hrun.
  unfold ExecuteTx, bind at 1, cmd_call at 1, exec.StdinPipe in Hrun.
  unfold exec.Pipe in Hrun.
  destruct (exec.Stdin (sgxRevmCmd s)) eqn:Hin.
  { inversion Hrun; subst. simpl. left. rewrite Hin. discriminate. }
  destruct (exec.Process (sgxRevmCmd s)) eqn:Hp.
  { inversion Hrun; subst. simpl. right. rewrite Hp. discriminate. }
  destruct (hd None (exec.os_Pipe (sgxRevmCmd s))) as [err|] eqn:Hos.
  { exfalso. apply Hok. repeat split; try assumption.
    rewrite Hos. discriminate. }
  match type of Hrun with
  | ?k ?s1 = _ =>
      assert (Hk : preserves keeps_refusing k)
  end.
  { keep_bind p2; [keep_leaf|]. destruct p2; [keep_leaf|].
    keep_bind p3; [keep_leaf|]. destruct p3; [keep_leaf|].
    destruct (MarshalBinary tx); [keep_leaf|].
    keep_bind err; [keep_leaf|]. destruct err; [keep_leaf|].
    keep_bind outData; [keep_leaf|].
    keep_bind outErr; [keep_leaf|].
    keep_leaf. }
  apply (Hk _ _ _ Hrun). left. simpl. discriminate.
Qed.

(** [ExecuteTx] when [os.Pipe()] fails for the input pipe: the error is
    returned, and the command is as before but for the answer used up. *)
Lemma ExecuteTx_stdin_pipe_fails :
  forall fuel ctx (tx : Tx) (s : State E) err,
    exec.Stdin (sgxRevmCmd s) = None ->
    exec.Process (sgxRevmCmd s) = None ->
    hd None (exec.os_Pipe (sgxRevmCmd s)) = Some err ->
    ExecuteTx fuel ctx tx s
    = (Ret (inl err),
       set_cmd (exec.set_os_Pipe (sgxRevmCmd s)
                                 (tl (exec.os_Pipe (sgxRevmCmd s)))) s).
Proof.
  intros fuel ctx tx s err Hin Hp Hos.
  unfold ExecuteTx, bind at 1, cmd_call at 1, exec.StdinPipe.
  unfold exec.Pipe. rewrite Hin, Hp, Hos. reflexivity.
Qed.

End TxErrors.

(** X7: a call of [ExecuteTx] that follows another on the same service
    returns an error at once, without a write or a read, and leaves the
    state as it is, unless the first call was stopped by [os.Pipe()]
    failing for the input pipe: the first call either was refused the
    input pipe by the command, and so is the second, or took it, and the
    command hands it out once only.  When [os.Pipe()] does fail for the
    input pipe, the first call returns its error and the command still has
    no input stream, so that a later call can succeed. *)
Theorem ExecuteTx_pipes_once :
  forall E (HE : Engine E) Tx (HC : Codec Tx) fuel ctx (tx : Tx)
         (s : State E) o s',
    ExecuteTx fuel ctx tx s = (o, s') ->
    (~ stdin_pipe_fails (sgxRevmCmd s) ->
     forall fuel' ctx' (tx' : Tx),
     exists err, ExecuteTx fuel' ctx' tx' s' = (Ret (inl err), s')) /\
    (stdin_pipe_fails (sgxRevmCmd s) ->
     o = Ret (inl (match hd None (exec.os_Pipe (sgxRevmCmd s)) with
                   | Some err => err
                   | None => EmptyString
                   end)) /\
     exec.Stdin (sgxRevmCmd s') = None /\
     exec.Process (sgxRevmCmd s') = None /\
     exec.os_Pipe (sgxRevmCmd s') = tl (exec.os_Pipe (sgxRevmCmd s)) /\
     events s' = events s /\ engine s' = engine s).
Proof.
  intros E HE Tx HC fuel ctx tx s o s' Hrun. split.
  - intros Hok fuel' ctx' tx'.
    apply ExecuteTx_refused.
    exact (ExecuteTx_leaves_refusing fuel ctx tx s o s' Hok Hrun).
  - intros (Hin & Hp & Hos).
    destruct (hd None (exec.os_Pipe (sgxRevmCmd s))) as [err|] eqn:Hhd;
      [|contradiction].
    rewrite (ExecuteTx_stdin_pipe_fails fuel ctx tx s err Hin Hp Hhd) in Hrun.
    inversion Hrun; subst. simpl. repeat split; assumption.
Qed.

Lemma ExecuteTx_pipes_once_witness :
  let first := @ExecuteTx Echo _ _ (Stub_Codec (inr call_request)) 1 Live
                          [x61; x62] idle_echo in
  let failed := @ExecuteTx Echo _ _ (Stub_Codec (inr call_request)) 1 Live
                           [x61; x62] no_pipe_echo in
  (exists err,
     @ExecuteTx Echo _ _ (Stub_Codec (inr call_request)) 1 Live [x63]
                (snd first)
     = (Ret (inl err), snd first)) /\
  (fst failed = Ret (inl "pipe: too many open files") /\
   fst (@ExecuteTx Echo _ _ (Stub_Codec (inr call_request)) 1 Live
                   [x61; x62] (snd failed))
   = Ret (inr ([x61; x62; x0a], [x0a]))).
Proof.
  intros first failed. split.
  - apply (@ExecuteTx_pipes_once Echo _ _ (Stub_Codec (inr call_request)) 1
             Live [x61; x62] idle_echo (fst first) (snd first)).
    + vm_compute. reflexivity.
    + intros (_ & _ & Habs). apply Habs. reflexivity.
  - split.
    + apply (@ExecuteTx_pipes_once Echo _ _ (Stub_Codec (inr call_request)) 1
               Live [x61; x62] no_pipe_echo (fst failed) (snd failed)).
      * vm_compute. reflexivity.
      * repeat split. discriminate.
    + vm_compute. reflexivity.
Defined.

(** X10: when [ExecuteTx] returns an error, no read was made on either
    output pipe: the trace gained nothing, or only the write that reported
    this error. *)
Theorem ExecuteTx_error_before_reads :
  forall E (HE : Engine E) Tx (HC : Codec Tx) fuel ctx (tx : Tx)
         (s : State E) err s',
    ExecuteTx fuel ctx tx s = (Ret (inl err), s') ->
    (events s' = events s /\ engine s' = engine s) \/
    (exists bs, events s' = events s ++ [EvWrite bs (Some (Some err))]).
Proof.
  intros E HE Tx HC fuel ctx tx s err s' Hrun. unfold ExecuteTx in Hrun.
  unfold bind at 1, cmd_call at 1 in Hrun.
  destruct (exec.StdinPipe (sgxRevmCmd s)) as [[e1|[]] c1];
    [inversion Hrun; subst; left; split; reflexivity|].
  unfold bind at 1, cmd_call at 1 in Hrun.
  destruct (exec.StdoutPipe _) as [[e2|[]] c2];
    [inversion Hrun; subst; left; split; reflexivity|].
  unfold bind at 1, cmd_call at 1 in Hrun.
  destruct (exec.StderrPipe _) as [[e3|[]] c3];
    [inversion Hrun; subst; left; split; reflexivity|].
  destruct (MarshalBinary tx) as [e4|txBytes];
    [inversion Hrun; subst; left; split; reflexivity|].
  unfold bind at 1, pipe_Write in Hrun. simpl engine in Hrun.
  destruct (stdin_Write (engine s) (txBytes ++ [nl])) as [[[werr|] e']|].
  - inversion Hrun; subst. right. eexists. reflexivity.
  - exfalso. unfold bind at 1 in Hrun.
    match type of Hrun with
    | context [readLoop stdout_Read EvReadOut fuel [] ?s0] =>
        destruct (readLoop stdout_Read EvReadOut fuel [] s0) as [[a|v| |] s1]
    end; try discriminate.
    unfold bind at 1 in Hrun.
    destruct (readLoop stderr_Read EvReadErr fuel [] s1) as [[b|v| |] s2];
      discriminate.
  - discriminate.
Qed.

Lemma ExecuteTx_error_before_reads_witness :
  let run := @ExecuteTx Scripted _ _ (Stub_Codec (inr call_request)) 1 Live
                        [x61; x62] broken_stdin in
  (events (snd run) = events broken_stdin /\
   engine (snd run) = engine broken_stdin) \/
  (exists bs,
     events (snd run)
     = events broken_stdin
       ++ [EvWrite bs (Some (Some "write |1: broken pipe"))]).
Proof.
  intros run.
  apply (@ExecuteTx_error_before_reads Scripted _ _
           (Stub_Codec (inr call_request)) 1 Live [x61; x62] broken_stdin
           "write |1: broken pipe" (snd run)).
  vm_compute. reflexivity.
Defined.

(** ** How a run of the handler ends *)

Section Ends.

Context {E : Type} `{Engine E} {Tx : Type} `{Codec Tx}.

(** A handler that took the slot, once [ExecuteTx] is over. *)
Lemma handleAPI_run_state :
  forall fuel r jr (tx : Tx) (s sx : State E) ox,
    parseJsonRpcRequest r = inr jr ->
    Method jr = "suave_offchainCall" ->
    Unmarshal (Params jr) = inr tx ->
    cmdLock s = [] ->
    Ctx r = Live \/ pick s = true ->
    ExecuteTx fuel (Ctx r) tx (callback_entry s) = (ox, sx) ->
    exists s',
      handleAPI fuel r s = (handler_outcome ox, s') /\
      cmdLock s' = slot_after ox /\
      engine s' = engine sx /\
      sgxRevmCmd s' = sgxRevmCmd sx /\
      body (w s') = body (w s) ++ response_chunks jr ox.
Proof.
  intros fuel r jr tx s sx ox Hp Hm Hu Hl Hc Hx.
  unfold handleAPI, defer_emit. rewrite Hp.
  rewrite (serve_valid_call fuel r jr tx s Hm Hu).
  destruct (ExecuteTx_untouched fuel (Ctx r) tx _ _ _ Hx)
    as (Hw & Hlock & _ & _ & _).
  unfold bind at 1.
  rewrite ExecuteLocked_takes_slot by (simpl; assumption).
  pose proof (callback_run fuel (Ctx r) tx (callback_entry s) sx ox
                eq_refl eq_refl Hx) as Hcb.
  unfold callback_entry, acquired_state in Hw, Hlock. simpl in Hw, Hlock.
  rewrite Hl in Hlock. simpl in Hlock.
  destruct ox as [[err|[stdout stderr]]|v| |];
    erewrite locked_case_run by (first [exact Hcb | simpl; assumption]).
  - unfold bind, lock_recv. simpl. rewrite Hlock. simpl.
    eexists. split; [reflexivity|]. simpl. rewrite Hw. simpl.
    repeat split; reflexivity.
  - unfold bind, lock_recv. simpl. rewrite Hlock. simpl.
    eexists. split; [reflexivity|]. simpl. rewrite Hw. simpl.
    repeat split; reflexivity.
  - eexists. split; [reflexivity|]. simpl. rewrite Hw, Hlock, app_nil_r.
    repeat split; reflexivity.
  - eexists. split; [reflexivity|]. simpl. rewrite Hw, Hlock, app_nil_r.
    repeat split; reflexivity.
  - eexists. split; [reflexivity|]. simpl. rewrite Hw, Hlock, app_nil_r.
    repeat split; reflexivity.
Qed.

(** A handler whose callback does not start. *)
Lemma handleAPI_idle_state :
  forall fuel r (s : State E) o s',
    handleAPI fuel r s = (o, s') ->
    (forall jr tx, parseJsonRpcRequest r = inr jr ->
                   Method jr = "suave_offchainCall" ->
                   Unmarshal (Params jr) = inr tx ->
                   cmdLock s = [] ->
                   Ctx r = Live \/ pick s = true -> False) ->
    cmdLock s' = cmdLock s /\
    engine s' = engine s /\
    sgxRevmCmd s' = sgxRevmCmd s /\
    ((o = Blocked /\ body (w s') = body (w s)) \/
     (o = Ret tt /\
      exists c, body (w s') = body (w s) ++ [c] /\ is_error_chunk c = true)).
Proof.
  intros fuel r s o s' Hrun Hidle.
  unfold handleAPI, defer_emit in Hrun.
  destruct (parseJsonRpcRequest r) as [perr|jr] eqn:Hp.
  { inversion Hrun; subst. repeat split; try reflexivity.
    right. split; [reflexivity|]. eexists. split; reflexivity. }
  destruct (String.eqb (Method jr) "suave_offchainCall") eqn:Hm.
  2:{ unfold serve in Hrun. rewrite Hm in Hrun.
      inversion Hrun; subst. repeat split; try reflexivity.
      right. split; [reflexivity|]. eexists. split; reflexivity. }
  apply String.eqb_eq in Hm.
  destruct (Unmarshal (Params jr)) as [uerr|tx] eqn:Hu.
  { unfold serve in Hrun. rewrite Hm, Hu in Hrun.
    inversion Hrun; subst. repeat split; try reflexivity.
    right. split; [reflexivity|]. eexists. split; reflexivity. }
  specialize (Hidle jr tx eq_refl Hm Hu).
  rewrite (serve_valid_call fuel r jr tx s Hm Hu) in Hrun.
  unfold bind at 1, ExecuteLocked in Hrun. simpl in Hrun.
  destruct (cmdLock s) as [|u l] eqn:Hl.
  - destruct (Ctx r) as [|cerr] eqn:Hc; [exfalso; auto|].
    destruct (pick s) eqn:Hpick; [exfalso; auto|].
    inversion Hrun; subst. simpl. rewrite Hl.
    repeat split; try reflexivity. left. split; reflexivity.
  - replace (S (List.length l) <? 1)%nat with false in Hrun
      by (symmetry; apply Nat.ltb_ge; lia).
    destruct (Ctx r) as [|cerr] eqn:Hc;
      (inversion Hrun; subst; simpl; rewrite Hl;
       repeat split; try reflexivity; left; split; reflexivity).
Qed.

(** Every run of the handler ends in one of two ways. *)
Lemma handleAPI_end :
  forall fuel r (s : State E) o s',
    handleAPI fuel r s = (o, s') ->
    (cmdLock s' = cmdLock s /\
     engine s' = engine s /\
     sgxRevmCmd s' = sgxRevmCmd s /\
     ((o = Blocked /\ body (w s') = body (w s)) \/
      (o = Ret tt /\
       exists c, body (w s') = body (w s) ++ [c] /\
                 is_error_chunk c = true))) \/
    (exists jr tx ox sx,
       parseJsonRpcRequest r = inr jr /\
       cmdLock s = [] /\
       ExecuteTx fuel (Ctx r) tx (callback_entry s) = (ox, sx) /\
       o = handler_outcome ox /\
       cmdLock s' = slot_after ox /\
       engine s' = engine sx /\
       body (w s') = body (w s) ++ response_chunks jr ox).
Proof.
  intros fuel r s o s' Hrun.
  assert (Hidle :
    (forall jr tx, parseJsonRpcRequest r = inr jr ->
                   Method jr = "suave_offchainCall" ->
                   Unmarshal (Params jr) = inr tx ->
                   cmdLock s = [] ->
                   Ctx r = Live \/ pick s = true -> False) ->
    cmdLock s' = cmdLock s /\
    engine s' = engine s /\
    sgxRevmCmd s' = sgxRevmCmd s /\
    ((o = Blocked /\ body (w s') = body (w s)) \/
     (o = Ret tt /\
      exists c, body (w s') = body (w s) ++ [c] /\
                is_error_chunk c = true))).
  { exact (handleAPI_idle_state fuel r s o s' Hrun). }
  destruct (parseJsonRpcRequest r) as [perr|jr] eqn:Hp;
    [left; apply Hidle; intros; discriminate|].
  destruct (String.eqb (Method jr) "suave_offchainCall") eqn:Hm.
  2:{ left. apply Hidle. intros jr' tx' Hjr Hm'. injection Hjr as <-.
      apply String.eqb_neq in Hm. contradiction. }
  apply String.eqb_eq in Hm.
  destruct (Unmarshal (Params jr)) as [uerr|tx] eqn:Hu.
  { left. apply Hidle. intros jr' tx' Hjr _ Hu'. injection Hjr as <-.
    rewrite Hu in Hu'. discriminate. }
  destruct (cmdLock s) as [|u l] eqn:Hl;
    [|left; apply Hidle; intros; discriminate].
  assert (Hc : {Ctx r = Live \/ pick s = true}
               + {~ (Ctx r = Live \/ pick s = true)}).
  { destruct (Ctx r); [left; left; reflexivity|].
    destruct (pick s); [left; right; reflexivity|].
    right. intros [Habs|Habs]; discriminate. }
  destruct Hc as [Hc|Hc]; [|left; apply Hidle; intros; contradiction].
  right.
  destruct (ExecuteTx fuel (Ctx r) tx (callback_entry s)) as [ox sx] eqn:Hx.
  destruct (handleAPI_run_state fuel r jr tx s sx ox Hp Hm Hu Hl Hc Hx)
    as (s1 & Hrun1 & Hslot & Heng & _ & Hbody).
  rewrite Hrun in Hrun1. injection Hrun1 as -> <-.
  exists jr, tx, ox, sx. repeat split; auto.
Qed.

End Ends.

(** X4: when [handleAPI] returns, the admission slot is as it was when the
    handler was entered; when it panics, the slot was free at entry and is
    taken at the end, for good. *)
Theorem handleAPI_slot_at_end :
  forall E (HE : Engine E) Tx (HC : Codec Tx) fuel r (s : State E) o s',
    handleAPI fuel r s = (o, s') ->
    (o = Ret tt -> cmdLock s' = cmdLock s) /\
    (forall v, o = Panic v -> cmdLock s = [] /\ cmdLock s' = [tt]).
Proof.
  intros E HE Tx HC fuel r s o s' Hrun.
  destruct (handleAPI_end fuel r s o s' Hrun)
    as [(Hl & _ & _ & [[-> _]|[-> _]])
       |(jr & tx & ox & sx & _ & Hl & _ & -> & Hslot & _)].
  - split; [discriminate | intros v Hv; discriminate].
  - split; [intros _; exact Hl | intros v Hv; discriminate].
  - rewrite Hl, Hslot.
    destruct ox as [[err|[a b]]|v| |]; simpl;
      (split; [intros Ho; try discriminate; reflexivity
              |intros v' Hv; try discriminate; auto]).
Qed.

Lemma handleAPI_slot_at_end_witness :
  let run := @handleAPI Scripted _ _ (Stub_Codec (inr call_request)) 1
                        live_http broken_stdout in
  (fst run = Ret tt -> cmdLock (snd run) = cmdLock broken_stdout) /\
  (forall v, fst run = Panic v ->
     cmdLock broken_stdout = [] /\ cmdLock (snd run) = [tt]).
Proof.
  intros run.
  apply (@handleAPI_slot_at_end Scripted _ _ (Stub_Codec (inr call_request))
           1 live_http broken_stdout (fst run) (snd run)).
  vm_compute. reflexivity.
Defined.

(** X5: when [handleAPI] returns, it has written exactly one chunk to the
    response, and the chunk reports an error: the text of a parse failure
    or an envelope with a member [error].  No run that writes a success
    envelope returns. *)
Theorem handleAPI_returns_only_errors :
  forall E (HE : Engine E) Tx (HC : Codec Tx) fuel r (s : State E) s',
    handleAPI fuel r s = (Ret tt, s') ->
    exists c,
      body (w s') = body (w s) ++ [c] /\ is_error_chunk c = true.
Proof.
  intros E HE Tx HC fuel r s s' Hrun.
  destruct (handleAPI_end fuel r s (Ret tt) s' Hrun)
    as [(_ & _ & _ & [[Habs _]|[_ Hc]])
       |(jr & tx & ox & sx & _ & _ & _ & Ho & _ & _ & Hbody)].
  - discriminate.
  - exact Hc.
  - destruct ox as [[err|[a b]]|v| |]; try discriminate.
    eexists. split; [exact Hbody | reflexivity].
Qed.

Lemma handleAPI_returns_only_errors_witness :
  exists c,
    body (w (snd (@handleAPI Scripted _ _ (Stub_Codec (inr call_request)) 1
                             live_http broken_stdin)))
    = body (w broken_stdin) ++ [c] /\
    is_error_chunk c = true.
Proof.
  apply (@handleAPI_returns_only_errors Scripted _ _
           (Stub_Codec (inr call_request)) 1 live_http broken_stdin).
  vm_compute. reflexivity.
Defined.

(** ** Requests the handler turns down *)

(** X1: a body that does not decode is answered with status 400 (unless a
    status was written before) and the text [could not parse request: ]
    followed by the decoder's error; no header is set, the handler returns,
    and neither the slot, the command nor the engine is touched. *)
Theorem handleAPI_parse_failure :
  forall E (HE : Engine E) Tx (HC : Codec Tx) fuel r err (s : State E),
    parseJsonRpcRequest r = inl err ->
    exists s',
      handleAPI fuel r s = (Ret tt, s') /\
      w s' = mkWriter (header (w s))
                      (match status (w s) with
                       | None => Some 400%Z
                       | st => st
                       end)
                      (body (w s)
                       ++ [Text ("could not parse request: " ++ err)%string])
      /\
      cmdLock s' = cmdLock s /\
      sgxRevmCmd s' = sgxRevmCmd s /\
      engine s' = engine s /\
      events s' = events s ++ [EvMetric "request_duration_api"].
Proof.
  intros E HE Tx HC fuel r err s Hp.
  unfold handleAPI, defer_emit. rewrite Hp.
  eexists. split; [reflexivity|]. simpl.
  destruct (status (w s)); repeat split; reflexivity.
Qed.

Lemma handleAPI_parse_failure_witness :
  exists s',
    @handleAPI Echo _ _ (Stub_Codec (inl "EOF")) 0 live_http idle_echo
    = (Ret tt, s') /\
    w s' = mkWriter (header (w idle_echo))
                    (match status (w idle_echo) with
                     | None => Some 400%Z
                     | st => st
                     end)
                    (body (w idle_echo)
                     ++ [Text ("could not parse request: " ++ "EOF")%string])
    /\
    cmdLock s' = cmdLock idle_echo /\
    sgxRevmCmd s' = sgxRevmCmd idle_echo /\
    engine s' = engine idle_echo /\
    events s' = events idle_echo ++ [EvMetric "request_duration_api"].
Proof.
  apply (@handleAPI_parse_failure Echo _ _ (Stub_Codec (inl "EOF")) 0
           live_http "EOF" idle_echo).
  reflexivity.
Defined.

(** X2: a call of the supported method whose parameters do not unmarshal
    into a transaction is answered with the error envelope of code -32600
    whose message is [could not unmarshal transaction: ] followed by the
    unmarshalling error; the handler returns without entering
    [ExecuteLocked]: the slot, the command and the engine are as they
    were, and only the request's duration is recorded. *)
Theorem handleAPI_unmarshal_failure :
  forall E (HE : Engine E) Tx (HC : Codec Tx) fuel r jr err (s : State E),
    parseJsonRpcRequest r = inr jr ->
    Method jr = "suave_offchainCall" ->
    Unmarshal (Params jr) = inl err ->
    exists s',
      handleAPI fuel r s = (Ret tt, s') /\
      body (w s') =
        body (w s)
        ++ [error_envelope jr "Message"
              ("could not unmarshal transaction: " ++ err)%string] /\
      cmdLock s' = cmdLock s /\
      sgxRevmCmd s' = sgxRevmCmd s /\
      engine s' = engine s /\
      events s' = events s ++ [EvMetric "request_duration_api"].
Proof.
  intros E HE Tx HC fuel r jr err s Hp Hm Hu.
  unfold handleAPI, defer_emit. rewrite Hp.
  unfold serve. rewrite Hm, Hu. simpl.
  eexists. split; [reflexivity|]. simpl. repeat split; reflexivity.
Qed.

Lemma handleAPI_unmarshal_failure_witness :
  exists s',
    @handleAPI Echo _ _ (Refusing_Codec (inr call_request) "EOF") 0
               live_http idle_echo
    = (Ret tt, s') /\
    body (w s') =
      body (w idle_echo)
      ++ [error_envelope call_request "Message"
            ("could not unmarshal transaction: " ++ "EOF")%string] /\
    cmdLock s' = cmdLock idle_echo /\
    sgxRevmCmd s' = sgxRevmCmd idle_echo /\
    engine s' = engine idle_echo /\
    events s' = events idle_echo ++ [EvMetric "request_duration_api"].
Proof.
  apply (@handleAPI_unmarshal_failure Echo _ _
           (Refusing_Codec (inr call_request) "EOF") 0 live_http
           call_request "EOF" idle_echo);
    reflexivity.
Defined.

(** ** The status of the response *)

Section Status.

Context {E : Type} `{Engine E} {Tx : Type} `{Codec Tx}.

Lemma written_status_twice : forall st,
  written_status (written_status st) = written_status st.
Proof. intros [z|]; reflexivity. Qed.

Lemma answers_ok_refl : forall (s : State E), answers_ok s s.
Proof. intros s. split; [reflexivity | left; reflexivity]. Qed.

Lemma answers_ok_trans : forall (s1 s2 s3 : State E),
  answers_ok s1 s2 -> answers_ok s2 s3 -> answers_ok s1 s3.
Proof.
  intros s1 s2 s3 [Hh1 H1] [Hh2 H2]. split; [congruence|].
  destruct H2 as [H2|H2].
  - rewrite H2. exact H1.
  - right. rewrite H2. destruct H1 as [H1|H1].
    + rewrite H1. reflexivity.
    + rewrite H1. apply written_status_twice.
Qed.

Lemma same_response_answers : forall A (m : M (E:=E) A),
  preserves same_response m -> preserves answers_ok m.
Proof.
  intros A m Hm s o s' Hrun. specialize (Hm s o s' Hrun).
  unfold same_response in Hm. unfold answers_ok. rewrite Hm.
  split; [reflexivity | left; reflexivity].
Qed.

Lemma Write_answers : forall c, preserves (E:=E) answers_ok (Write c).
Proof.
  intros c s o s' Hrun. inversion Hrun; subst.
  split; [reflexivity|]. right. simpl.
  destruct (status (w s)); reflexivity.
Qed.

Ltac ok_bind x :=
  apply preserves_bind; [exact answers_ok_trans | | intros x ].

Ltac ok_same := apply same_response_answers.

(** [handleAPI] after it has set the content type. *)
Lemma serve_answers : forall fuel r jr (s : State E) o s',
  serve fuel r jr s = (o, s') ->
  answers_ok (snd (Header_Set "Content-Type" "application/json" s)) s'.
Proof.
  intros fuel r jr s o s' Hrun.
  unfold serve in Hrun.
  match type of Hrun with
  | bind _ ?k _ = _ => assert (Hk : preserves answers_ok (k tt))
  end.
  { cbv beta.
    destruct (negb (String.eqb (Method jr) "suave_offchainCall"));
      [apply Write_answers|].
    destruct (Unmarshal (Params jr)) as [err|tx]; [apply Write_answers|].
    ok_bind y.
    { ok_same. intros x o1 x' Heq. inversion Heq. reflexivity. }
    ok_bind z; [ok_same; apply ExecuteLocked_same, callback_same|].
    ok_bind err; [ok_same; apply errCh_recv_same|].
    destruct err as [err|].
    - ok_bind u; [ok_same; apply emit_same|]. apply Write_answers.
    - ok_bind stdout; [ok_same; apply outCh_recv_same|].
      ok_bind u; [apply Write_answers|].
      ok_bind errData; [ok_same; apply errCh_recv_same|].
      destruct errData; ok_same; [apply emit_same | apply ret_same]. }
  exact (Hk (snd (Header_Set "Content-Type" "application/json" s)) o s' Hrun).
Qed.

End Status.

(** X3: for a request that parses, however the run ends, the response has
    the content type [application/json] put in front of its headers, and
    its status is either what it was, with nothing written, or that of a
    written response: 200 unless a status was written before the handler.
    JSON-RPC errors are not HTTP errors. *)
Theorem handleAPI_parsed_status :
  forall E (HE : Engine E) Tx (HC : Codec Tx) fuel r jr (s : State E) o s',
    parseJsonRpcRequest r = inr jr ->
    handleAPI fuel r s = (o, s') ->
    header (w s') = ("Content-Type", "application/json") :: header (w s) /\
    ((status (w s') = status (w s) /\ body (w s') = body (w s)) \/
     status (w s') = written_status (status (w s))).
Proof.
  intros E HE Tx HC fuel r jr s o s' Hp Hrun.
  unfold handleAPI, defer_emit in Hrun. rewrite Hp in Hrun.
  destruct (serve fuel r jr s) as [o1 s1] eqn:Hserve.
  destruct (serve_answers fuel r jr s o1 s1 Hserve) as [Hh Hst].
  assert (Hw : w s' = w s1) by (destruct o1; inversion Hrun; reflexivity).
  rewrite Hw. split; [exact Hh|].
  destruct Hst as [Hst|Hst].
  - left. rewrite Hst. split; reflexivity.
  - right. exact Hst.
Qed.

Lemma handleAPI_parsed_status_witness :
  let run := @handleAPI Echo _ _ (Stub_Codec (inr foo_request)) 0 live_http
                        idle_echo in
  header (w (snd run))
  = ("Content-Type", "application/json") :: header (w idle_echo) /\
  ((status (w (snd run)) = status (w idle_echo) /\
    body (w (snd run)) = body (w idle_echo)) \/
   status (w (snd run)) = written_status (status (w idle_echo))).
Proof.
  intros run.
  apply (@handleAPI_parsed_status Echo _ _ (Stub_Codec (inr foo_request)) 0
           live_http foo_request idle_echo (fst run) (snd run)).
  - reflexivity.
  - vm_compute. reflexivity.
Defined.

(** ** The service as it is built *)

Section Built.

Context {E : Type} `{Engine E} {Tx : Type} `{Codec Tx}.

(** [ExecuteTx] on a started command that has no input stream set. *)
Lemma ExecuteTx_started : forall fuel ctx (tx : Tx) (s : State E),
  exec.Stdin (sgxRevmCmd s) = None ->
  exec.Process (sgxRevmCmd s) = Some tt ->
  ExecuteTx fuel ctx tx s
  = (Ret (inl "exec: StdinPipe after process started"), s).
Proof.
  intros fuel ctx tx s Hin Hp.
  unfold ExecuteTx, bind at 1, cmd_call at 1, exec.StdinPipe.
  rewrite Hin, Hp. destruct s; reflexivity.
Qed.

End Built.

(** X6: on the service [NewRevmService] returns, with the slot free, a
    call of the supported method whose parameters unmarshal ends in one of
    two ways.  When the select of [ExecuteLocked] takes the slot (the
    context is live, or it is done and the runtime picks the send), the
    call is answered with the error envelope [could not execute: exec:
    StdinPipe after process started] and the handler returns.  When the
    context is done and the runtime picks that case, nothing is written
    and the handler stays blocked.  Either way the slot is free at the end
    and the engine has not been written to or read from. *)
Theorem handleAPI_on_built_service :
  forall E (HE : Engine E) Tx (HC : Codec Tx) launch svc fuel r jr (tx : Tx)
         (s : State E),
    NewRevmService launch = inr svc ->
    sgxRevmCmd s = svc_cmd svc ->
    cmdLock s = svc_lock svc ->
    parseJsonRpcRequest r = inr jr ->
    Method jr = "suave_offchainCall" ->
    Unmarshal (Params jr) = inr tx ->
    (Ctx r = Live \/ pick s = true ->
     exists s',
       handleAPI fuel r s = (Ret tt, s') /\
       body (w s') =
         body (w s)
         ++ [error_envelope jr "Message"
               "could not execute: exec: StdinPipe after process started"] /\
       cmdLock s' = [] /\
       engine s' = engine s) /\
    (forall err,
       Ctx r = Cancelled err -> pick s = false ->
       exists s',
         handleAPI fuel r s = (Blocked, s') /\
         body (w s') = body (w s) /\
         cmdLock s' = [] /\
         engine s' = engine s /\
         events s' = events s ++ [EvMetric "revm_lock_timeout"]).
Proof.
  intros E HE Tx HC launch svc fuel r jr tx s Hnew Hcmd Hlock Hp Hm Hu.
  unfold NewRevmService in Hnew.
  destruct launch as [e|]; simpl in Hnew; [discriminate|].
  injection Hnew as <-. simpl in Hcmd, Hlock.
  split.
  - intros Hc.
    assert (Hx : ExecuteTx fuel (Ctx r) tx (callback_entry s)
                 = (Ret (inl "exec: StdinPipe after process started"),
                    callback_entry s)).
    { apply ExecuteTx_started; simpl; rewrite Hcmd; reflexivity. }
    destruct (handleAPI_run_state fuel r jr tx s _ _ Hp Hm Hu Hlock Hc Hx)
      as (s' & Hrun & Hslot & Heng & _ & Hbody).
    exists s'. repeat split; assumption.
  - intros err Hctx Hpick.
    unfold handleAPI, defer_emit. rewrite Hp.
    rewrite (serve_valid_call fuel r jr tx s Hm Hu).
    unfold bind at 1, ExecuteLocked. simpl. rewrite Hlock, Hctx, Hpick.
    simpl. eexists. split; [reflexivity|]. simpl.
    repeat split; try reflexivity. exact Hlock.
Qed.

Lemma handleAPI_on_built_service_witness :
  (exists s',
     @handleAPI Echo _ _ (Stub_Codec (inr call_request)) 1 live_http
                (start_state started_service (mkEcho [] []) true)
     = (Ret tt, s') /\
     body (w s') =
       body (w (start_state started_service (mkEcho [] []) true))
       ++ [error_envelope call_request "Message"
             "could not execute: exec: StdinPipe after process started"] /\
     cmdLock s' = [] /\
     engine s' = engine (start_state started_service (mkEcho [] []) true)) /\
  (exists s',
     @handleAPI Echo _ _ (Stub_Codec (inr call_request)) 1 expired_http
                (start_state started_service (mkEcho [] []) false)
     = (Blocked, s') /\
     body (w s')
     = body (w (start_state started_service (mkEcho [] []) false)) /\
     cmdLock s' = [] /\
     engine s' = engine (start_state started_service (mkEcho [] []) false) /\
     events s'
     = events (start_state started_service (mkEcho [] []) false)
       ++ [EvMetric "revm_lock_timeout"]).
Proof.
  split.
  - apply (@handleAPI_on_built_service Echo _ _
             (Stub_Codec (inr call_request))
             None started_service 1 live_http call_request [x61; x62]
             (start_state started_service (mkEcho [] []) true));
      try reflexivity.
    left. reflexivity.
  - apply (proj2 (@handleAPI_on_built_service Echo _ _
                    (Stub_Codec (inr call_request))
                    None started_service 1 expired_http call_request
                    [x61; x62]
                    (start_state started_service (mkEcho [] []) false)
                    eq_refl eq_refl eq_refl eq_refl eq_refl eq_refl)
                 "context deadline exceeded");
      reflexivity.
Defined.

(** ** A callback that panics *)

Section AfterPanic.

Import Interleaving.

(** Once a goroutine has panicked in its callback, the only step any
    goroutine can take is to give up. *)
Lemma step_after_panic : forall x i t m x',
  Inv x -> pcs x i = Panicked -> step x t m = Some x' ->
  m = GiveUp /\ lock x' = lock x /\ io x' = io x /\ pcs x' i = Panicked.
Proof.
  intros x i t m x' HI Hi Hstep.
  assert (Hhi : holds (pcs x i) = true) by (rewrite Hi; reflexivity).
  assert (Hlock : lock x = [tt]) by exact (holder_locks x HI i Hhi).
  assert (Hout : holds (pcs x t) = false).
  { destruct (holds (pcs x t)) eqn:Hht; [|reflexivity].
    assert (t = i) by exact (holder_unique x HI t i Hht Hhi). subst t.
    unfold step in Hstep. rewrite Hi in Hstep. discriminate. }
  unfold step in Hstep.
  destruct (pcs x t) eqn:Hpc; try discriminate Hout;
    destruct m; try discriminate Hstep.
  - rewrite Hlock in Hstep. simpl in Hstep. discriminate.
  - injection Hstep as <-. simpl. repeat split.
    rewrite move_to_other; [exact Hi|].
    intros ->. rewrite Hi in Hpc. discriminate.
Qed.

Lemma run_after_panic : forall rest x y i,
  Inv x -> pcs x i = Panicked -> run x rest = Some y ->
  Forall (fun tm => snd tm = GiveUp) rest /\
  lock y = lock x /\ io y = io x /\ pcs y i = Panicked.
Proof.
  induction rest as [|[t m] rest IH]; intros x y i HI Hi Hrun;
    simpl in Hrun.
  - injection Hrun as <-. repeat split; [constructor | exact Hi].
  - destruct (step x t m) as [x1|] eqn:Hstep; [|discriminate].
    destruct (step_after_panic x i t m x1 HI Hi Hstep)
      as (Hm & Hl & Hio & Hp).
    destruct (IH x1 y i (Inv_step x t m x1 HI Hstep) Hp Hrun)
      as (Hall & Hl' & Hio' & Hp').
    repeat split.
    + constructor; [exact Hm | exact Hall].
    + congruence.
    + congruence.
    + exact Hp'.
Qed.

End AfterPanic.

(** X14: once the callback of one goroutine has panicked, the service is
    stuck for good: in every continuation of the schedule each step is a
    caller giving up on its context; the slot stays taken, no goroutine
    acquires it, and no further call is made on the engine's pipes. *)
Theorem panic_keeps_slot_forever :
  forall pre rest x y i,
    Interleaving.run Interleaving.init pre = Some x ->
    Interleaving.pcs x i = Interleaving.Panicked ->
    Interleaving.run x rest = Some y ->
    Forall (fun tm => snd tm = Interleaving.GiveUp) rest /\
    Interleaving.lock y = [tt] /\
    Interleaving.io y = Interleaving.io x /\
    Interleaving.pcs y i = Interleaving.Panicked.
Proof.
  intros pre rest x y i Hpre Hi Hrun.
  assert (HI : Interleaving.Inv x) by exact (Inv_run pre _ _ Inv_init Hpre).
  destruct (run_after_panic rest x y i HI Hi Hrun) as (Hall & Hl & Hio & Hp).
  repeat split; try assumption.
  rewrite Hl. apply (Interleaving.holder_locks x HI i).
  rewrite Hi. reflexivity.
Qed.

Lemma panic_keeps_slot_forever_witness :
  Forall (fun tm => snd tm = Interleaving.GiveUp) callers_give_up /\
  Interleaving.lock after_give_up = [tt] /\
  Interleaving.io after_give_up = Interleaving.io after_failed_call /\
  Interleaving.pcs after_give_up 0%nat = Interleaving.Panicked.
Proof.
  apply (panic_keeps_slot_forever failed_call callers_give_up
           after_failed_call after_give_up 0%nat);
    reflexivity.
Defined.

(** ** One response for a request *)

Section OneChunk.

Context {E : Type} `{Engine E} {Tx : Type} `{Codec Tx}.

(** Sequencing under two relations that compose into a third. *)
Lemma preserves_seq :
  forall (R1 R2 R3 : State E -> State E -> Prop) A B
         (m : M (E:=E) A) (k : A -> M (E:=E) B),
    (forall a b c, R1 a b -> R2 b c -> R3 a c) ->
    (forall a b, R1 a b -> R3 a b) ->
    preserves R1 m -> (forall a, preserves R2 (k a)) ->
    preserves R3 (bind m k).
Proof.
  intros R1 R2 R3 A B m k Hcomp Hweak Hm Hk s o s' Heq. unfold bind in Heq.
  destruct (m s) as [[a| v | |] s1] eqn:Hms;
    try (inversion Heq; subst; eapply Hweak, Hm; eassumption).
  eapply Hcomp; [eapply Hm | eapply Hk]; eassumption.
Qed.

Lemma same_response_body : forall A (m : M (E:=E) A),
  preserves same_response m -> preserves same_body m.
Proof.
  intros A m Hm s o s' Hrun. specialize (Hm s o s' Hrun).
  unfold same_response in Hm. unfold same_body. rewrite Hm. reflexivity.
Qed.

Lemma Write_one_more : forall c, preserves (E:=E) one_more_chunk (Write c).
Proof.
  intros c s o s' Hrun. inversion Hrun; subst. right. exists c. reflexivity.
Qed.

Lemma same_body_one_more : forall (a b : State E),
  same_body a b -> one_more_chunk a b.
Proof. intros a b Hab. left. exact Hab. Qed.

Lemma body_then_chunk : forall (a b c : State E),
  same_body a b -> one_more_chunk b c -> one_more_chunk a c.
Proof.
  unfold same_body, one_more_chunk. intros a b c Hab [Hbc|[x Hbc]].
  - left. congruence.
  - right. exists x. congruence.
Qed.

Lemma chunk_then_body : forall (a b c : State E),
  one_more_chunk a b -> same_body b c -> one_more_chunk a c.
Proof.
  unfold same_body, one_more_chunk. intros a b c [Hab|[x Hab]] Hbc.
  - left. congruence.
  - right. exists x. congruence.
Qed.

Lemma same_body_trans : forall (a b c : State E),
  same_body a b -> same_body b c -> same_body a c.
Proof. unfold same_body. intros. congruence. Qed.

Ltac quiet_then x :=
  apply (preserves_seq same_body one_more_chunk one_more_chunk);
  [exact body_then_chunk | exact same_body_one_more | | intros x].

Ltac quiet := apply same_response_body.

Lemma serve_one_more : forall fuel r jr,
  preserves (E:=E) one_more_chunk (serve fuel r jr).
Proof.
  intros fuel r jr. unfold serve.
  quiet_then x.
  { intros s o s' Hrun. inversion Hrun; subst. reflexivity. }
  destruct (negb (String.eqb (Method jr) "suave_offchainCall"));
    [apply Write_one_more|].
  destruct (Unmarshal (Params jr)) as [err|tx]; [apply Write_one_more|].
  quiet_then y.
  { quiet. intros s o s' Hrun. inversion Hrun. reflexivity. }
  quiet_then z; [quiet; apply ExecuteLocked_same, callback_same|].
  quiet_then err; [quiet; apply errCh_recv_same|].
  destruct err as [err|].
  - quiet_then u; [quiet; apply emit_same | apply Write_one_more].
  - quiet_then stdout; [quiet; apply outCh_recv_same|].
    apply (preserves_seq one_more_chunk same_body one_more_chunk);
      [exact chunk_then_body | auto | apply Write_one_more | intros u].
    apply preserves_bind; [exact same_body_trans | | intros errData].
    + quiet. apply errCh_recv_same.
    + destruct errData; quiet; [apply emit_same | apply ret_same].
Qed.

Lemma handleAPI_one_more : forall fuel r,
  preserves (E:=E) one_more_chunk (handleAPI fuel r).
Proof.
  intros fuel r s o s' Hrun. unfold handleAPI, defer_emit in Hrun.
  match type of Hrun with
  | match ?m s with _ => _ end = _ =>
      assert (Hm : preserves one_more_chunk m);
      [|destruct (m s) as [o1 s1] eqn:Hms;
        specialize (Hm s o1 s1 Hms);
        assert (Hw : w s' = w s1)
          by (destruct o1; inversion Hrun; reflexivity);
        unfold one_more_chunk in *; rewrite Hw; exact Hm]
  end.
  destruct (parseJsonRpcRequest r) as [err|jr]; [|apply serve_one_more].
  quiet_then x; [|apply Write_one_more].
  intros s0 o0 s0' Hrun0. inversion Hrun0; subst. reflexivity.
Qed.

End OneChunk.

(** X15: whatever the request, the engine and the way the run ends, the
    handler adds at most one chunk to the body of the response: it never
    answers a request twice. *)
Theorem handleAPI_writes_at_most_once :
  forall E (HE : Engine E) Tx (HC : Codec Tx) fuel r (s : State E),
    body (w (snd (handleAPI fuel r s))) = body (w s) \/
    exists c, body (w (snd (handleAPI fuel r s))) = body (w s) ++ [c].
Proof.
  intros E HE Tx HC fuel r s.
  destruct (handleAPI fuel r s) as [o s'] eqn:Hrun.
  exact (handleAPI_one_more fuel r s o s' Hrun).
Qed.

(** ** The order of the calls on the pipes *)

Section Order.

Context {E : Type} `{Engine E} {Tx : Type} `{Codec Tx}.

Lemma gains_refl : forall P (s : State E), gains P s s.
Proof. intros P s. exists []. rewrite app_nil_r. auto. Qed.

Lemma gains_trans : forall P (s1 s2 s3 : State E),
  gains P s1 s2 -> gains P s2 s3 -> gains P s1 s3.
Proof.
  intros P s1 s2 s3 (l1 & H1 & F1) (l2 & H2 & F2).
  exists (l1 ++ l2). split.
  - rewrite H2, H1, app_assoc. reflexivity.
  - rewrite forallb_app, F1, F2. reflexivity.
Qed.

Lemma emit_gains : forall P e,
  P e = true -> preserves (E:=E) (gains P) (emit e).
Proof.
  intros P e He s o s' Hrun. inversion Hrun; subst.
  exists [e]. simpl. rewrite He. auto.
Qed.

Lemma pipe_Read_gains : forall P read ev,
  (forall r, P (ev r) = true) ->
  preserves (E:=E) (gains P) (pipe_Read read ev).
Proof.
  intros P read ev Hev s o s' Hrun. unfold pipe_Read in Hrun.
  destruct (read (engine s) bufSize) as [[r e']|];
    inversion Hrun; subst; eexists; simpl; split;
    try reflexivity; simpl; rewrite Hev; reflexivity.
Qed.

Lemma readLoop_gains : forall P read ev,
  (forall r, P (ev r) = true) ->
  P EvSleep = true ->
  (forall l m e, P (EvLog l m e) = true) ->
  forall fuel acc, preserves (E:=E) (gains P) (readLoop read ev fuel acc).
Proof.
  intros P read ev Hev Hsleep Hlog fuel.
  induction fuel as [|fuel IH]; intros acc; simpl.
  - apply preserves_out_of_fuel. exact (gains_refl P).
  - apply preserves_bind; [exact (gains_trans P) | | intros r].
    { apply pipe_Read_gains, Hev. }
    destruct (rerr r).
    { apply preserves_bind; [exact (gains_trans P) | | intros x].
      - apply emit_gains, Hlog.
      - apply preserves_panic. exact (gains_refl P). }
    apply preserves_bind; [exact (gains_trans P) | | intros x].
    + destruct (_ =? _)%Z;
        [apply emit_gains, Hsleep
        | apply preserves_ret; exact (gains_refl P)].
    + destruct (slice_to _ _);
        [|apply preserves_panic; exact (gains_refl P)].
      destruct (index _ _);
        [|apply preserves_panic; exact (gains_refl P)].
      destruct (Byte.eqb _ _);
        [apply preserves_ret; exact (gains_refl P) | apply IH].
Qed.

(** The two loops one after the other. *)
Lemma reads_in_order :
  forall A (f : list byte -> list byte -> A) fuel (s : State E) o s',
    bind (readLoop stdout_Read EvReadOut fuel [])
         (fun outData =>
            bind (readLoop stderr_Read EvReadErr fuel [])
                 (fun outErr => ret (f outData outErr))) s = (o, s') ->
    exists outs errs,
      events s' = events s ++ outs ++ errs /\
      forallb of_stdout_loop outs = true /\
      forallb of_stderr_loop errs = true.
Proof.
  intros A f fuel s o s' Hrun. unfold bind at 1 in Hrun.
  destruct (readLoop stdout_Read EvReadOut fuel [] s) as [o1 s1] eqn:H1.
  destruct (readLoop_gains of_stdout_loop stdout_Read EvReadOut
              (fun _ => eq_refl) eq_refl (fun _ _ _ => eq_refl)
              fuel [] s o1 s1 H1) as (outs & He1 & Ho).
  assert (Hstop : s' = s1 ->
                  exists outs errs,
                    events s' = events s ++ outs ++ errs /\
                    forallb of_stdout_loop outs = true /\
                    forallb of_stderr_loop errs = true).
  { intros ->. exists outs, []. rewrite app_nil_r. auto. }
  destruct o1 as [outData|v| |];
    try (apply Hstop; inversion Hrun; reflexivity).
  unfold bind at 1 in Hrun.
  destruct (readLoop stderr_Read EvReadErr fuel [] s1) as [o2 s2] eqn:H2.
  destruct (readLoop_gains of_stderr_loop stderr_Read EvReadErr
              (fun _ => eq_refl) eq_refl (fun _ _ _ => eq_refl)
              fuel [] s1 o2 s2 H2) as (errs & He2 & Hr).
  assert (Hs : s' = s2) by (destruct o2; inversion Hrun; reflexivity).
  subst s'. exists outs, errs.
  rewrite He2, He1, app_assoc. auto.
Qed.

Lemma exchange_order : forall fuel (tx : Tx) (s : State E) o s',
  exchange fuel tx s = (o, s') ->
  events s' = events s \/
  exists bs res outs errs,
    MarshalBinary tx = inr bs /\
    events s' = events s ++ EvWrite (bs ++ [nl]) res :: outs ++ errs /\
    forallb of_stdout_loop outs = true /\
    forallb of_stderr_loop errs = true /\
    (res <> Some None -> outs = [] /\ errs = []).
Proof.
  intros fuel tx s o s' Hrun. unfold exchange in Hrun.
  destruct (MarshalBinary tx) as [err|bs] eqn:Hbin.
  { left. inversion Hrun. reflexivity. }
  right. exists bs.
  unfold bind at 1, pipe_Write in Hrun.
  destruct (stdin_Write (engine s) (bs ++ [nl])) as [[[err|] e']|].
  - exists (Some (Some err)), [], []. inversion Hrun; subst. simpl.
    repeat split; reflexivity.
  - apply reads_in_order in Hrun. destruct Hrun as (outs & errs & He & Ho & Hr).
    exists (Some None), outs, errs. simpl in He.
    split; [reflexivity|]. split.
    { rewrite He, <- app_assoc. reflexivity. }
    split; [exact Ho|]. split; [exact Hr|].
    intros Hne. contradiction Hne. reflexivity.
  - exists None, [], []. inversion Hrun; subst. simpl.
    repeat split; reflexivity.
Qed.

End Order.

(** X16: in every run of [ExecuteTx], on any engine and however it ends,
    the calls on the pipes come in one order: nothing at all, or one write
    of the encoded transaction followed by a newline, then the reads of
    the loop on the primary output, then the reads of the loop on the
    diagnostic output.  Nothing is read unless the write returned without
    error, and nothing is written twice. *)
Theorem ExecuteTx_io_order :
  forall E (HE : Engine E) Tx (HC : Codec Tx) fuel ctx (tx : Tx)
         (s : State E) o s',
    ExecuteTx fuel ctx tx s = (o, s') ->
    events s' = events s \/
    exists bs res outs errs,
      MarshalBinary tx = inr bs /\
      events s' = events s ++ EvWrite (bs ++ [nl]) res :: outs ++ errs /\
      forallb of_stdout_loop outs = true /\
      forallb of_stderr_loop errs = true /\
      (res <> Some None -> outs = [] /\ errs = []).
Proof.
  intros E HE Tx HC fuel ctx tx s o s' Hrun.
  unfold ExecuteTx in Hrun.
  unfold bind at 1, cmd_call at 1 in Hrun.
  destruct (exec.StdinPipe (sgxRevmCmd s)) as [[err|p1] c1];
    cbv beta iota in Hrun.
  { left. inversion Hrun. reflexivity. }
  unfold bind at 1, cmd_call at 1 in Hrun.
  destruct (exec.StdoutPipe (sgxRevmCmd (set_cmd c1 s))) as [[err|p2] c2];
    cbv beta iota in Hrun.
  { left. inversion Hrun. reflexivity. }
  unfold bind at 1, cmd_call at 1 in Hrun.
  destruct (exec.StderrPipe (sgxRevmCmd (set_cmd c2 (set_cmd c1 s))))
    as [[err|p3] c3]; cbv beta iota in Hrun.
  { left. inversion Hrun. reflexivity. }
  change (exchange fuel tx (set_cmd c3 (set_cmd c2 (set_cmd c1 s))) = (o, s'))
    in Hrun.
  exact (exchange_order fuel tx _ o s' Hrun).
Qed.

Lemma ExecuteTx_io_order_witness :
  let run := @ExecuteTx Scripted _ _ (Stub_Codec (inr call_request)) 3 Live
                        [x61; x62] pausing_stdout in
  events (snd run) = events pausing_stdout \/
  exists bs res outs errs,
    @MarshalBinary _ (Stub_Codec (inr call_request)) [x61; x62] = inr bs /\
    events (snd run)
    = events pausing_stdout ++ EvWrite (bs ++ [nl]) res :: outs ++ errs /\
    forallb of_stdout_loop outs = true /\
    forallb of_stderr_loop errs = true /\
    (res <> Some None -> outs = [] /\ errs = []).
Proof.
  intros run.
  apply (@ExecuteTx_io_order Scripted _ _ (Stub_Codec (inr call_request)) 3
           Live [x61; x62] pausing_stdout (fst run) (snd run)).
  vm_compute. reflexivity.
Defined.
